(** * web-ext: the add-on submission client (src/util/submit-addon.js)

    A shallow embedding of the [Client] class and of [signAddon], and the
    properties of the submission workflow, of the JSON gateway and of the
    polling primitive [waitRetry].

    JavaScript values are a first-order data type, asynchronous methods are
    state-passing functions over a [World] that records every observable
    effect in order (log lines, HTTP requests, file writes), and the two
    racing timers of [waitRetry] are an explicit event loop. *)

From Stdlib Require Import ZArith List String Ascii Bool Lia Arith.
From Stdlib Require Import DecimalString.
Import ListNotations.
Local Open Scope string_scope.
Local Open Scope Z_scope.
#[local] Set Warnings "-register-all".

(** ** JavaScript values *)

Module Js.

(** The values that flow through the client: what [response.json()] yields,
    the caller's metadata, and [undefined] for a missing property.  Numbers
    are the integers that a double holds exactly and prints by its digits
    (ids, status codes, milliseconds).  An object is the list of its own
    properties in property order. *)
Inductive value :=
| Undefined
| Null
| Bool (b : bool)
| Num (n : Z)
| Str (s : string)
| Arr (elems : list value)
| Obj (props : list (string * value)).

(** [if (v)]: the falsy values are undefined, null, false, 0 and the empty
    string. *)
Definition truthy (v : value) : bool :=
  match v with
  | Undefined | Null => false
  | Bool b => b
  | Num n => negb (n =? 0)
  | Str s => negb (String.eqb s EmptyString)
  | Arr _ | Obj _ => true
  end.

(** [a || b] *)
Definition or_else (a b : value) : value := if truthy a then a else b.

Definition string_of_Z (n : Z) : string :=
  NilZero.string_of_int (Z.to_int n).

Fixpoint join (sep : string) (l : list string) : string :=
  match l with
  | [] => EmptyString
  | [s] => s
  | s :: rest => s ++ sep ++ join sep rest
  end.

(** [`${v}`] and [String(v)]: an array prints its elements separated by
    commas, with nothing for a null or undefined element; an object prints
    as [[object Object]]. *)
Fixpoint to_string (v : value) : string :=
  match v with
  | Undefined => "undefined"
  | Null => "null"
  | Bool true => "true"
  | Bool false => "false"
  | Num n => string_of_Z n
  | Str s => s
  | Arr l =>
      join ","
        (List.map (fun e => match e with
                            | Undefined | Null => EmptyString
                            | _ => to_string e
                            end) l)
  | Obj _ => "[object Object]"
  end.

(** A property list denotes the object obtained by defining its entries in
    order, as [JSON.parse] does: of two entries with one key the later one
    holds the value. *)
Fixpoint lookup (k : string) (ps : list (string * value)) : option value :=
  match ps with
  | [] => None
  | (k', v) :: rest =>
      match lookup k rest with
      | Some x => Some x
      | None => if String.eqb k k' then Some v else None
      end
  end.

Definition has (k : string) (ps : list (string * value)) : bool :=
  match lookup k ps with Some _ => true | None => false end.

(** [o[k] = v]: an existing key keeps its place, a new key goes last. *)
Definition set (k : string) (v : value) (ps : list (string * value))
  : list (string * value) :=
  if has k ps
  then List.map (fun kv => if String.eqb k (fst kv) then (fst kv, v) else kv) ps
  else (ps ++ [(k, v)])%list.

Fixpoint indexed (i : nat) (l : list value) : list (string * value) :=
  match l with
  | [] => []
  | x :: rest => (string_of_Z (Z.of_nat i), x) :: indexed (S i) rest
  end.

Fixpoint chars (s : string) : list value :=
  match s with
  | EmptyString => []
  | String c rest => Str (String c EmptyString) :: chars rest
  end.

(** The own enumerable properties that a spread [{...v}] copies: the
    properties of an object, the indexed elements of an array or of a
    string, and nothing for undefined, null, a boolean or a number. *)
Definition own_props (v : value) : list (string * value) :=
  match v with
  | Obj ps => ps
  | Arr l => indexed 0 l
  | Str s => indexed 0 (chars s)
  | _ => []
  end.

(** [{...target, ...v}] *)
Definition spread (v : value) (target : list (string * value))
  : list (string * value) :=
  fold_left (fun acc kv => set (fst kv) (snd kv) acc) (own_props v) target.

(** An error object: [name] and [message], printed by
    [Error.prototype.toString]. *)
Record error := { name : string; message : string }.

Definition Error (msg : string) : error := {| name := "Error"; message := msg |}.
Definition TypeError (msg : string) : error :=
  {| name := "TypeError"; message := msg |}.

Definition error_to_string (e : error) : string :=
  if String.eqb (name e) EmptyString then message e
  else if String.eqb (message e) EmptyString then name e
  else name e ++ ": " ++ message e.

(** What an evaluation produces: a value or a thrown error.  [Pending] is
    an awaited promise that never settles. *)
Inductive outcome (A : Type) :=
| Returned (a : A)
| Threw (e : error)
| Pending.
Arguments Returned {A} a.
Arguments Threw {A} e.
Arguments Pending {A}.

(** [v.k]: reading a property of undefined or null throws a TypeError; a
    missing property reads as undefined.  (Properties inherited from the
    prototypes, and [length], are not among the names the client reads.) *)
Definition get (v : value) (k : string) : outcome value :=
  match v with
  | Undefined | Null =>
      Threw (TypeError ("Cannot read properties of " ++ to_string v
                        ++ " (reading '" ++ k ++ "')"))
  | _ => Returned (match lookup k (own_props v) with
                   | Some x => x
                   | None => Undefined
                   end)
  end.

(** [const { k: x } = v].  Of the TypeError on null and undefined the kind
    is modelled; the text of its message is the runtime's. *)
Definition destructure (v : value) (k : string) : outcome value :=
  match v with
  | Undefined | Null =>
      Threw (TypeError ("Cannot destructure property '" ++ k ++ "' of "
                        ++ to_string v))
  | _ => get v k
  end.

(** [const [x] = v]: the first element of an iterable.  Of the TypeError
    the kind is modelled; the text of its message is the runtime's. *)
Definition first (v : value) : outcome value :=
  match v with
  | Arr l => Returned (List.hd Undefined l)
  | Str s => Returned (List.hd Undefined (chars s))
  | _ => Threw (TypeError (to_string v ++ " is not iterable"))
  end.

End Js.

(** ** URLs *)

Module Url.

(** A parsed URL: what precedes the path (scheme and authority), the path,
    and the query.  [href] is the concatenation of the three parts. *)
Record t := { origin : string; pathname : string; search : string }.

Definition href (u : t) : string := origin u ++ pathname u ++ search u.

(** [s.split(c)] for a one-character separator. *)
Fixpoint split (c : ascii) (s : string) : list string :=
  match s with
  | EmptyString => [EmptyString]
  | String a rest =>
      if Ascii.eqb a c then EmptyString :: split c rest
      else match split c rest with
           | x :: xs => String a x :: xs
           | [] => [String a EmptyString]
           end
  end.

(** [segments.pop()] *)
Definition pop (l : list string) : string := List.last l EmptyString.

Fixpoint ends_with_slash (s : string) : bool :=
  match s with
  | EmptyString => false
  | String a EmptyString => Ascii.eqb a "/"
  | String _ rest => ends_with_slash rest
  end.

(** *** Characters *)

Definition code (c : ascii) : nat := nat_of_ascii c.

Definition between (lo hi : nat) (c : ascii) : bool :=
  Nat.leb lo (code c) && Nat.leb (code c) hi.

Definition one_of (codes : list nat) (c : ascii) : bool :=
  existsb (Nat.eqb (code c)) codes.

Definition is_alpha (c : ascii) : bool := between 65 90 c || between 97 122 c.
Definition is_digit (c : ascii) : bool := between 48 57 c.

(** [/] and, in the URLs of the web, the backslash. *)
Definition is_slash (c : ascii) : bool := one_of [47; 92]%nat c.

Definition lower (c : ascii) : ascii :=
  if between 65 90 c then ascii_of_nat (Nat.add (code c) 32) else c.

Definition forward (c : ascii) : ascii :=
  if Nat.eqb (code c) 92 then "/"%char else c.

Fixpoint map_chars (f : ascii -> ascii) (s : string) : string :=
  match s with
  | EmptyString => EmptyString
  | String c rest => String (f c) (map_chars f rest)
  end.

Fixpoint all (p : ascii -> bool) (s : string) : bool :=
  match s with
  | EmptyString => true
  | String c rest => p c && all p rest
  end.

Fixpoint remove (p : ascii -> bool) (s : string) : string :=
  match s with
  | EmptyString => EmptyString
  | String c rest => if p c then remove p rest else String c (remove p rest)
  end.

Fixpoint drop_leading (p : ascii -> bool) (s : string) : string :=
  match s with
  | EmptyString => EmptyString
  | String c rest => if p c then drop_leading p rest else s
  end.

Fixpoint drop_trailing (p : ascii -> bool) (s : string) : string :=
  match s with
  | EmptyString => EmptyString
  | String c rest =>
      match drop_trailing p rest with
      | EmptyString => if p c then EmptyString else String c EmptyString
      | kept => String c kept
      end
  end.

(** The part before the first character that [stop] holds of, and the part
    from that character on. *)
Fixpoint span_until (stop : ascii -> bool) (s : string) : string * string :=
  match s with
  | EmptyString => (EmptyString, EmptyString)
  | String c rest =>
      if stop c then (EmptyString, s)
      else let (a, b) := span_until stop rest in (String c a, b)
  end.

(** *** Percent-encoding *)

Definition hex (n : nat) : ascii :=
  ascii_of_nat (if Nat.ltb n 10 then Nat.add 48 n else Nat.add 55 n).

Definition percent_encoded (c : ascii) : string :=
  String "%" (String (hex (Nat.div (code c) 16))
                (String (hex (Nat.modulo (code c) 16)) EmptyString)).

(** The percent-encode sets of the URL standard: controls and bytes beyond
    [~]; in a query also space, the double quote, [#], [<] and [>], and the
    single quote for http and the like; in a path also [?], the backquote
    and the braces. *)
Definition c0_control_set (c : ascii) : bool :=
  Nat.ltb (code c) 32 || Nat.ltb 126 (code c).
Definition query_set (c : ascii) : bool :=
  c0_control_set c || one_of [32; 34; 35; 60; 62]%nat c.
Definition special_query_set (c : ascii) : bool :=
  query_set c || one_of [39]%nat c.
Definition path_set (c : ascii) : bool :=
  query_set c || one_of [63; 96; 123; 125]%nat c.

Fixpoint percent_encode (set : ascii -> bool) (s : string) : string :=
  match s with
  | EmptyString => EmptyString
  | String c rest =>
      (if set c then percent_encoded c else String c EmptyString)
      ++ percent_encode set rest
  end.

(** *** The parser's first steps *)

(** Controls and spaces at both ends are dropped, tabs and newlines
    everywhere. *)
Definition clean (s : string) : string :=
  remove (one_of [9; 10; 13]%nat)
    (drop_trailing (between 0 32) (drop_leading (between 0 32) s)).

Fixpoint scheme_run (s : string) : option (string * string) :=
  match s with
  | EmptyString => None
  | String c rest =>
      if Ascii.eqb c ":" then Some (EmptyString, rest)
      else if is_alpha c || is_digit c || one_of [43; 45; 46]%nat c then
        match scheme_run rest with
        | Some (name, after) => Some (String (lower c) name, after)
        | None => None
        end
      else None
  end.

(** The scheme, in lower case, and what follows its colon: a letter, then
    letters, digits, [+], [-] and [.], then the colon. *)
Definition scheme (s : string) : option (string * string) :=
  match s with
  | EmptyString => None
  | String c _ => if is_alpha c then scheme_run s else None
  end.

(** *** Paths *)

(** A path is the list of the pieces between its slashes, the empty piece
    before the first slash included: [/a/b/] has the four pieces empty,
    [a], [b] and empty. *)

Definition single_dot (seg : string) : bool :=
  existsb (String.eqb seg) ["."; "%2e"; "%2E"].

Definition double_dot (seg : string) : bool :=
  existsb (String.eqb seg)
    [".."; ".%2e"; ".%2E"; "%2e."; "%2E."; "%2e%2e"; "%2E%2e"; "%2e%2E";
     "%2E%2E"].

(** A [..] removes the last segment, if there is one. *)
Definition shorten (path : list string) : list string :=
  match path with
  | _ :: _ :: _ => List.removelast path
  | _ => path
  end.

(** The segments of a reference, applied to a path one after the other: a
    dot segment is not kept, and leaves an empty segment when it is the
    last one; every other segment is added percent-encoded. *)
Fixpoint walk (path segs : list string) : list string :=
  match segs with
  | [] => path
  | seg :: rest =>
      let last := match rest with [] => [EmptyString] | _ => [] end in
      walk (if double_dot seg then shorten path ++ last
            else if single_dot seg then path ++ last
            else path ++ [percent_encode path_set seg])%list
           rest
  end.

Definition segments (p : string) : list string :=
  split "/" (map_chars forward p).

(** The query as it is serialised, question mark included. *)
Definition search_of (q : string) : string :=
  match q with
  | EmptyString => EmptyString
  | String c rest => String c (percent_encode special_query_set rest)
  end.

(** *** Relative references *)

Inductive reference :=
| SameDocument
| QueryOnly (query : string)
| PathAbsolute (segs : list string) (query : string)
| PathRelative (segs : list string) (query : string).

(** What a reference without a scheme asks for; a fragment is not part of
    what is requested and is dropped. *)
Definition reference_of (rel : string) : reference :=
  let (ref, _) := span_until (one_of [35]%nat) (clean rel) in
  let (p, q) := span_until (one_of [63]%nat) ref in
  match p, q with
  | EmptyString, EmptyString => SameDocument
  | EmptyString, _ => QueryOnly (search_of q)
  | String c rest, _ =>
      if is_slash c then PathAbsolute (segments rest) (search_of q)
      else PathRelative (segments p) (search_of q)
  end.

(** [new URL(rel, base)] for an http(s) base and a reference that neither
    has a scheme nor begins with two slashes, as every reference of the
    client, which begins with [addons/], [addon/] or [upload/]: a relative
    path replaces the last segment of the base path. *)
Definition resolve (rel : string) (base : t) : t :=
  match reference_of rel with
  | SameDocument => base
  | QueryOnly query =>
      {| origin := origin base; pathname := pathname base; search := query |}
  | PathAbsolute segs query =>
      {| origin := origin base;
         pathname := String.concat "/" (walk [EmptyString] segs);
         search := query |}
  | PathRelative segs query =>
      {| origin := origin base;
         pathname :=
           String.concat "/"
             (walk (List.removelast (split "/" (pathname base))) segs);
         search := query |}
  end.

(** A segment that URL resolution keeps in place: printable ASCII without
    the characters that end a segment or a path ([/], the backslash, [?],
    [#]), without [%], which can spell a dot segment, without [^], which
    only the later versions of the URL standard encode in a path, and not
    a dot segment.  The ids of add-ons, GUIDs in braces and names of the
    form of an e-mail address, are such segments. *)
Definition plain (c : ascii) : bool :=
  between 32 126 c && negb (one_of [35; 37; 47; 63; 92; 94]%nat c).

Definition segment (s : string) : bool :=
  all plain s && negb (String.eqb s ".") && negb (String.eqb s "..").

(** *** Absolute URLs *)

Definition special (sch : string) : bool :=
  existsb (String.eqb sch) ["http"; "https"; "ws"; "wss"; "ftp"].

Definition default_port (sch : string) : Z :=
  if String.eqb sch "http" || String.eqb sch "ws" then 80
  else if String.eqb sch "https" || String.eqb sch "wss" then 443
  else 21.

Fixpoint number (acc : Z) (digits : string) : Z :=
  match digits with
  | EmptyString => acc
  | String c rest => number (10 * acc + Z.of_nat (Nat.sub (code c) 48)) rest
  end.

(** The host in lower case and the port, when it is not the default one.
    There is no URL without a host, with a port that is not a number, or
    with a port above 65535.  An IPv6 literal is kept as written. *)
Definition host_port (sch hostport : string) : option string :=
  if negb (all (fun c => negb (one_of [91]%nat c)) hostport) then Some hostport
  else
    let (host, port) := span_until (one_of [58]%nat) hostport in
    match host, port with
    | EmptyString, _ => None
    | _, EmptyString => Some (map_chars lower host)
    | _, String _ digits =>
        if negb (all is_digit digits) then None
        else if String.eqb digits EmptyString then Some (map_chars lower host)
        else if 65535 <? number 0 digits then None
        else if number 0 digits =? default_port sch
             then Some (map_chars lower host)
             else Some (map_chars lower host ++ ":"
                        ++ Js.string_of_Z (number 0 digits))
    end.

Definition invalid : Js.error := Js.TypeError "Invalid URL".

(** [new URL(s)].  A string without a scheme is no URL.  For http, https,
    ws, wss and ftp the slashes after the scheme are skipped, the authority
    runs to the next slash, [?] or [#], and the path is normalised; the
    host is taken as written, without the checks and the normalisation of
    domain names and IP addresses; the fragment is dropped.  A URL of
    another scheme is kept as written.  [origin] is what precedes the path
    in [href], [search] the query with its question mark. *)
Definition parse (s : string) : Js.outcome t :=
  match scheme (clean s) with
  | None => Js.Threw invalid
  | Some (sch, rest) =>
      let (rest, _) := span_until (one_of [35]%nat) rest in
      let (hier, query) := span_until (one_of [63]%nat) rest in
      if special sch then
        let (authority, path) :=
          span_until is_slash (drop_leading is_slash hier) in
        let parts := split "@" authority in
        let credentials := String.concat "@" (List.removelast parts) in
        match host_port sch (pop parts) with
        | None => Js.Threw invalid
        | Some host =>
            Js.Returned
              {| origin := sch ++ "://"
                           ++ (if String.eqb credentials EmptyString
                               then EmptyString else credentials ++ "@")
                           ++ host;
                 pathname :=
                   match path with
                   | EmptyString => "/"
                   | String _ rest =>
                       String.concat "/" (walk [EmptyString] (segments rest))
                   end;
                 search := search_of query |}
        end
      else
        match hier with
        | String "/" (String "/" rest) =>
            let (authority, path) := span_until (one_of [47]%nat) rest in
            Js.Returned {| origin := sch ++ "://" ++ authority;
                           pathname := path; search := query |}
        | _ =>
            Js.Returned {| origin := sch ++ ":"; pathname := hier;
                           search := query |}
        end
  end.

End Url.

(** ** HTTP messages and the world *)

Inductive FormEntry :=
| Field (s : string)
| FileFromSync (path : string).

(** A request body: nothing, a multipart form, or the string
    [JSON.stringify(v)], kept as the value [v] it serialises. *)
Inductive Body :=
| NoBody
| Form (entries : list (string * FormEntry))
| JsonString (v : Js.value).

Record Request := {
  url : Url.t;
  method : string;
  headers : list (string * string);
  body : Body
}.

(** A node-fetch response: [json] is what [await response.json()] gives,
    [stream] is [response.body]. *)
Record Response := {
  status : Z;
  statusText : string;
  ok : bool;
  stream : option string;
  json : Js.outcome Js.value
}.

(** Observable effects, in the order they happen: what is logged, sent and
    written.  What the client reads of the file system is an answer of the
    environment and leaves no effect. *)
Inductive Effect :=
| Info (msg : string) (args : list Js.value)
| Debug (msg : string)
| Sent (at_ms : Z) (req : Request)
| WroteFile (path : string) (text : string)
| Piped (dest : string) (contents : string).

Record World := {
  clock : Z;
  effects : list Effect;
  calls : nat
}.

(** The collaborators outside the client: the network behind node-fetch
    (for the n-th request: its latency in milliseconds and its result), the
    file system, and the token signer of jose.  [fileFromSync] is whether
    node-fetch can make a [File] of the path: it throws when the path
    cannot be inspected. *)
Record Env := {
  network : nat -> Request -> Z * Js.outcome Response;
  stat_isFile : string -> Js.outcome bool;
  fileFromSync : string -> Js.outcome unit;
  writeFile : string -> string -> Js.outcome unit;
  pipeline : string -> string -> Js.outcome unit;
  sign_HS256 : string -> Z -> Z -> string -> Js.outcome string;
  cwd : string
}.

(** ** Asynchronous computations *)

Definition M (A : Type) : Type := World -> Js.outcome A * World.

Definition ret {A} (a : A) : M A := fun w => (Js.Returned a, w).
Definition throw {A} (e : Js.error) : M A := fun w => (Js.Threw e, w).
Definition lift {A} (o : Js.outcome A) : M A := fun w => (o, w).

Definition bind {A B} (m : M A) (k : A -> M B) : M B :=
  fun w =>
    match m w with
    | (Js.Returned a, w') => k a w'
    | (Js.Threw e, w') => (Js.Threw e, w')
    | (Js.Pending, w') => (Js.Pending, w')
    end.

(** [try { m } catch (e) { h e }] *)
Definition try_catch {A} (m : M A) (h : Js.error -> M A) : M A :=
  fun w =>
    match m w with
    | (Js.Threw e, w') => h e w'
    | r => r
    end.

Notation "x <- m ;; k" := (bind m (fun x => k))
  (at level 61, m at next level, right associativity).
Notation "m ;;; k" := (bind m (fun _ => k))
  (at level 61, right associativity).

Definition emit (e : Effect) : M unit :=
  fun w => (Js.Returned tt,
            {| clock := clock w; effects := effects w ++ [e]; calls := calls w |}).

Definition log_info (msg : string) (args : list Js.value) : M unit :=
  emit (Info msg args).
Definition log_debug (msg : string) : M unit := emit (Debug msg).

Definition now : M Z := fun w => (Js.Returned (clock w), w).

(** Resuming at time [t]: the clock never moves backwards. *)
Definition resume_at (t : Z) (w : World) : World :=
  {| clock := Z.max (clock w) t; effects := effects w; calls := calls w |}.

(** ** Authentication *)

(** [interface ApiAuth]: produces the Authorization header of one request,
    at the time the request is built. *)
Record ApiAuth := { getAuthHeader : Z -> Js.outcome string }.

Record JwtApiAuth := {
  apiKey : string;
  apiSecret : string;
  apiJwtExpiresIn : Z
}.

Definition or_default {A} (o : option A) (d : A) : A :=
  match o with Some a => a | None => d end.

Section WithEnv.

Variable env : Env.

Definition JwtApiAuth_new (apiKey apiSecret : string)
    (apiJwtExpiresIn : option Z) : JwtApiAuth :=
  {| apiKey := apiKey;
     apiSecret := apiSecret;
     apiJwtExpiresIn := or_default apiJwtExpiresIn (60 * 5) |}.

(** A token issued now (in seconds) that expires [apiJwtExpiresIn] seconds
    later, signed with the secret. *)
Definition signJWT (this : JwtApiAuth) (now_ms : Z) : Js.outcome string :=
  let iat := now_ms / 1000 in
  sign_HS256 env (apiKey this) iat (iat + apiJwtExpiresIn this) (apiSecret this).

Definition JwtApiAuth_getAuthHeader (this : JwtApiAuth) (now_ms : Z)
  : Js.outcome string :=
  match signJWT this now_ms with
  | Js.Returned authToken => Js.Returned ("JWT " ++ authToken)
  | Js.Threw e => Js.Threw e
  | Js.Pending => Js.Pending
  end.

Definition JwtApiAuth_as_ApiAuth (a : JwtApiAuth) : ApiAuth :=
  {| getAuthHeader := JwtApiAuth_getAuthHeader a |}.

(** ** The client *)

Record Client := {
  apiAuth : ApiAuth;
  apiUrl : Url.t;
  validationCheckInterval : Z;
  validationCheckTimeout : Z;
  approvalCheckInterval : Z;
  approvalCheckTimeout : Z;
  downloadDir : string;
  userAgentString : string
}.

(** The constructor's parameter object; [None] is an omitted or undefined
    field, for which the default applies. *)
Record ClientConstructorParams := {
  p_apiAuth : ApiAuth;
  p_baseUrl : Url.t;
  p_validationCheckInterval : option Z;
  p_validationCheckTimeout : option Z;
  p_approvalCheckInterval : option Z;
  p_approvalCheckTimeout : option Z;
  p_downloadDir : option string;
  p_userAgentString : string
}.

Definition Client_new (p : ClientConstructorParams) : Client :=
  let baseUrl :=
    if negb (Url.ends_with_slash (Url.pathname (p_baseUrl p))) then
      {| Url.origin := Url.origin (p_baseUrl p);
         Url.pathname := Url.pathname (p_baseUrl p) ++ "/";
         Url.search := Url.search (p_baseUrl p) |}
    else p_baseUrl p in
  {| apiAuth := p_apiAuth p;
     apiUrl := Url.resolve "addons/" baseUrl;
     validationCheckInterval := or_default (p_validationCheckInterval p) 1000;
     validationCheckTimeout := or_default (p_validationCheckTimeout p) 300000;
     approvalCheckInterval := or_default (p_approvalCheckInterval p) 1000;
     approvalCheckTimeout := or_default (p_approvalCheckTimeout p) 900000;
     downloadDir := or_default (p_downloadDir p) (cwd env);
     userAgentString := p_userAgentString p |}.

(** [nodeFetch], up to the point where the request is on the wire: the
    result is the time the response arrives and what it will be. *)
Definition nodeFetch_send (req : Request) : M (Z * Js.outcome Response) :=
  fun w =>
    let (latency, result) := network env (calls w) req in
    (Js.Returned (clock w + Z.max 0 latency, result),
     {| clock := clock w;
        effects := effects w ++ [Sent (clock w) req];
        calls := S (calls w) |}).

(** Awaiting a response that is on the wire. *)
Definition await_response (x : Z * Js.outcome Response) : M Response :=
  fun w => (snd x, resume_at (fst x) w).

Definition is_string (b : Body) : bool :=
  match b with JsonString _ => true | _ => false end.

(** [fetch], up to the call of [nodeFetch].  An omitted [method] is
    [None]. *)
Definition fetch_send (this : Client) (url : Url.t) (method : option string)
    (body : Body) : M (Z * Js.outcome Response) :=
  log_info ("Fetching URL: " ++ Url.href url) [] ;;;
  t <- now ;;
  authorization <- lift (getAuthHeader (apiAuth this) t) ;;
  let headers := [("Authorization", authorization);
                  ("Accept", "application/json");
                  ("User-Agent", userAgentString this)] in
  let headers := if is_string body
                 then (headers ++ [("Content-Type", "application/json")])%list
                 else headers in
  nodeFetch_send {| url := url; method := or_default method "GET";
                    headers := headers; body := body |}.

Definition fetch (this : Client) (url : Url.t) (method : option string)
    (body : Body) : M Response :=
  x <- fetch_send this url method body ;;
  await_response x.

(** [`${errorMsg}: ${response.statusText || response.status}.`] *)
Definition status_error (errorMsg : string) (response : Response) : Js.error :=
  Js.Error (errorMsg ++ ": "
            ++ Js.to_string (Js.or_else (Js.Str (statusText response))
                                        (Js.Num (status response)))
            ++ ".").

(** [fetchJson] after [await this.fetch(...)]. *)
Definition fetchJson_resume (errorMsg : string) (response : Response)
  : M Js.value :=
  if (status response <? 200) || (status response >=? 500) then
    throw (status_error errorMsg response)
  else
    data <- lift (json response) ;;
    if negb (ok response) then
      log_info "Server Response:" [data] ;;;
      throw (status_error errorMsg response)
    else ret data.

Definition fetchJson (this : Client) (url : Url.t) (method : option string)
    (body : Body) (errorMsg : option string) : M Js.value :=
  response <- fetch this url method body ;;
  fetchJson_resume (or_default errorMsg "Bad Request") response.

(** *** The event loop of [waitRetry] *)

Definition TIMEOUT_MAX : Z := 2147483647.

(** [setTimeout(callback, after)]: Node replaces a delay outside
    [1, TIMEOUT_MAX] by 1 millisecond. *)
Definition timer_delay (after : Z) : Z :=
  if (1 <=? after) && (after <=? TIMEOUT_MAX) then after else 1.

(** The state of one call of [waitRetry].  A timer handle is the time at
    which the timer is due while it is pending, and [None] once it has fired
    or was cleared ([clearTimeout] of a fired handle does nothing).
    [in_flight] is the request [pollStatus] is awaiting, [promise] the
    settled value of the returned promise. *)
Record Loop := {
  world : World;
  abortTimeout : option Z;
  checkTimeout : option Z;
  in_flight : option (Z * Js.outcome Response);
  promise : option (Js.outcome Js.value)
}.

Definition with_world (w : World) (s : Loop) : Loop :=
  {| world := w; abortTimeout := abortTimeout s; checkTimeout := checkTimeout s;
     in_flight := in_flight s; promise := promise s |}.

Definition clearTimeout_abort (s : Loop) : Loop :=
  {| world := world s; abortTimeout := None; checkTimeout := checkTimeout s;
     in_flight := in_flight s; promise := promise s |}.

Definition clearTimeout_check (s : Loop) : Loop :=
  {| world := world s; abortTimeout := abortTimeout s; checkTimeout := None;
     in_flight := in_flight s; promise := promise s |}.

Definition set_checkTimeout (after : Z) (s : Loop) : Loop :=
  {| world := world s; abortTimeout := abortTimeout s;
     checkTimeout := Some (clock (world s) + timer_delay after);
     in_flight := in_flight s; promise := promise s |}.

Definition set_in_flight (x : option (Z * Js.outcome Response)) (s : Loop) : Loop :=
  {| world := world s; abortTimeout := abortTimeout s;
     checkTimeout := checkTimeout s; in_flight := x; promise := promise s |}.

(** [resolve] and [reject] settle the promise once; later calls do
    nothing. *)
Definition settle (r : Js.outcome Js.value) (s : Loop) : Loop :=
  match promise s with
  | Some _ => s
  | None => {| world := world s; abortTimeout := abortTimeout s;
               checkTimeout := checkTimeout s; in_flight := in_flight s;
               promise := Some r |}
  end.

Definition resolve (v : Js.value) : Loop -> Loop := settle (Js.Returned v).
Definition reject (e : Js.error) : Loop -> Loop := settle (Js.Threw e).

Inductive Event := AbortTimer | CheckTimer | ResponseArrived.

(** Nothing pending is overdue: the clock is before the abort timer, a
    request in flight is answered now or later, the poll timer is due
    later. *)
Definition on_time (s : Loop) : Prop :=
  (forall T, abortTimeout s = Some T -> clock (world s) < T)
  /\ (forall x, in_flight s = Some x -> clock (world s) <= fst x)
  /\ (forall c, checkTimeout s = Some c -> clock (world s) < c).

(** A bound on the turns until the abort timer has run, or was cleared. *)
Definition turns_left (s : Loop) : Z :=
  match abortTimeout s with
  | None => 0
  | Some T =>
      match in_flight s, checkTimeout s with
      | Some x, _ => if fst x <? T then 2 * (T - fst x) + 1 else 1
      | None, Some c => if c <? T then 2 * (T - c) + 2 else 1
      | None, None => 1
      end
  end.

Section WaitRetry.

Variable this : Client.
Variable successFunc : Js.value -> M Js.value.
Variable checkUrl : Url.t.
Variables checkInterval abortInterval : Z.
Variable context : string.

(** The callback of the abort timer. *)
Definition abort_callback (s : Loop) : Loop :=
  reject (Js.Error (context ++ ": timeout.")) (clearTimeout_check s).

(** The [catch] block of [pollStatus]. *)
Definition pollStatus_catch (err : Js.error) (s : Loop) : Loop :=
  reject err (clearTimeout_abort s).

(** [pollStatus] up to the point where its request is on the wire. *)
Definition pollStatus (s : Loop) : Loop :=
  match fetch_send this checkUrl (Some "GET") NoBody (world s) with
  | (Js.Returned x, w) => set_in_flight (Some x) (with_world w s)
  | (Js.Threw err, w) => pollStatus_catch err (with_world w s)
  | (Js.Pending, w) => with_world w s
  end.

(** What one poll yields once its response [x] is there: the rest of
    [fetchJson], then [successFunc]. *)
Definition poll_result (x : Z * Js.outcome Response) : M Js.value :=
  response <- await_response x ;;
  responseData <- fetchJson_resume "Getting details failed." response ;;
  successFunc responseData.

(** [pollStatus] from the arrival of the response on. *)
Definition pollStatus_resume (x : Z * Js.outcome Response) (s : Loop) : Loop :=
  match poll_result x (world s) with
  | (Js.Returned success, w) =>
      if Js.truthy success then resolve success (clearTimeout_abort (with_world w s))
      else set_checkTimeout checkInterval (with_world w s)
  | (Js.Threw err, w) => pollStatus_catch err (with_world w s)
  | (Js.Pending, w) => with_world w s
  end.

(** One turn of the event loop: the handler of [ev], if [ev] is pending. *)
Definition fire (ev : Event) (s : Loop) : option Loop :=
  match ev with
  | AbortTimer =>
      match abortTimeout s with
      | Some t => Some (abort_callback
                          (with_world (resume_at t (world s)) (clearTimeout_abort s)))
      | None => None
      end
  | CheckTimer =>
      match checkTimeout s with
      | Some t => Some (pollStatus
                          (with_world (resume_at t (world s)) (clearTimeout_check s)))
      | None => None
      end
  | ResponseArrived =>
      match in_flight s with
      | Some x => Some (pollStatus_resume x (set_in_flight None s))
      | None => None
      end
  end.

(** When a pending event is due. *)
Definition due (s : Loop) (ev : Event) : option Z :=
  match ev with
  | AbortTimer => abortTimeout s
  | CheckTimer => checkTimeout s
  | ResponseArrived => option_map fst (in_flight s)
  end.

Definition earlier (s : Loop) (best : option Event) (ev : Event) : option Event :=
  match due s ev, best with
  | None, _ => best
  | Some _, None => Some ev
  | Some t, Some b =>
      match due s b with
      | Some tb => if t <? tb then Some ev else best
      | None => Some ev
      end
  end.

(** The event that runs next: the one due first; a timer runs before a
    response due at the same time, and the abort timer, which was set
    first, before the poll timer. *)
Definition next_event (s : Loop) : option Event :=
  fold_left (earlier s) [AbortTimer; CheckTimer; ResponseArrived] None.

Definition turn (s : Loop) : option Loop :=
  match next_event s with
  | Some ev => fire ev s
  | None => None
  end.

(** The loop runs until nothing is pending. *)
Fixpoint run (fuel : nat) (s : Loop) : Loop :=
  match fuel with
  | O => s
  | S n => match turn s with
           | Some s' => run n s'
           | None => s
           end
  end.

(** The loop up to the turn that settles the promise. *)
Fixpoint run_until_settled (fuel : nat) (s : Loop) : Loop :=
  match promise s, fuel with
  | Some _, _ => s
  | None, O => s
  | None, S n => match turn s with
                 | Some s' => run_until_settled n s'
                 | None => s
                 end
  end.

(** The executor of the promise: set the abort timer, call
    [pollStatus]. *)
Definition waitRetry_start (w : World) : Loop :=
  pollStatus {| world := w;
                abortTimeout := Some (clock w + timer_delay abortInterval);
                checkTimeout := None;
                in_flight := None;
                promise := None |}.

(** Nothing is pending: the loop has nothing left to run. *)
Definition quiescent (s : Loop) : Prop :=
  abortTimeout s = None /\ checkTimeout s = None /\ in_flight s = None.

(** At most one of the poll timer and a request is pending; the abort timer
    is pending exactly while the promise is; a resolved promise leaves
    nothing pending. *)
Definition loop_invariant (s : Loop) : Prop :=
  (in_flight s = None \/ checkTimeout s = None)
  /\ (abortTimeout s = None <-> promise s <> None)
  /\ (forall v, promise s = Some (Js.Returned v) -> quiescent s).

(** The states one call can be in, in whatever order pending events run. *)
Inductive reachable (w : World) : Loop -> Prop :=
| reachable_start : reachable w (waitRetry_start w)
| reachable_fire ev s s' :
    reachable w s -> fire ev s = Some s' -> reachable w s'.

(** Turns that suffice to settle: between two polls at least one
    millisecond passes, and the abort timer is due after
    [timer_delay abortInterval]. *)
Definition waitRetry_fuel : nat := 2 * Z.to_nat (timer_delay abortInterval) + 2.

(** [await this.waitRetry(...)]: the caller resumes with the settled value
    of the promise, in the world of the turn that settled it.  What the
    loop does after that turn is what [run] does from there. *)
Definition waitRetry : M Js.value :=
  fun w =>
    let s := run_until_settled waitRetry_fuel (waitRetry_start w) in
    (match promise s with Some r => r | None => Js.Pending end, world s).

End WaitRetry.

(** *** The methods of the client *)

(** The predicate [waitForValidation] polls with. *)
Definition validation_successFunc (detailResponseData : Js.value) : M Js.value :=
  processed <- lift (Js.get detailResponseData "processed") ;;
  if negb (Js.truthy processed) then ret Js.Null
  else
    validation <- lift (Js.get detailResponseData "validation") ;;
    log_info "Validation results:" [validation] ;;;
    valid <- lift (Js.get detailResponseData "valid") ;;
    if Js.truthy valid then lift (Js.get detailResponseData "uuid")
    else
      log_info "Validation failed." [] ;;;
      url <- lift (Js.get detailResponseData "url") ;;
      throw (Js.Error
               ("Validation failed, open the following URL for more information: "
                ++ Js.to_string url)).

Definition waitForValidation (this : Client) (uuid : Js.value) : M Js.value :=
  log_info "Waiting for Validation..." [] ;;;
  waitRetry this validation_successFunc
    (Url.resolve ("upload/" ++ Js.to_string uuid ++ "/") (apiUrl this))
    (validationCheckInterval this)
    (validationCheckTimeout this)
    "Validation".

(** The form is complete, with the file made of the package, before the
    request is built. *)
Definition doUploadSubmit (this : Client) (xpiPath channel : string) : M Js.value :=
  let url := Url.resolve "upload/" (apiUrl this) in
  lift (fileFromSync env xpiPath) ;;;
  let formData := [("channel", Field channel); ("upload", FileFromSync xpiPath)] in
  r <- fetchJson this url (Some "POST") (Form formData) None ;;
  uuid <- lift (Js.destructure r "uuid") ;;
  waitForValidation this uuid.

(** [{ ...metaDataJson, version: { upload: uuid, ...metaDataJson.version } }] *)
Definition jsonData (uuid metaDataJson : Js.value) : Js.outcome Js.value :=
  match Js.get metaDataJson "version" with
  | Js.Returned version =>
      Js.Returned
        (Js.Obj (Js.set "version"
                   (Js.Obj (Js.spread version [("upload", uuid)]))
                   (Js.spread metaDataJson [])))
  | Js.Threw e => Js.Threw e
  | Js.Pending => Js.Pending
  end.

Definition doNewAddonSubmit (this : Client) (uuid metaDataJson : Js.value)
  : M Js.value :=
  let url := Url.resolve "addon/" (apiUrl this) in
  jsonData <- lift (jsonData uuid metaDataJson) ;;
  fetchJson this url (Some "POST") (JsonString jsonData) None.

Definition doNewAddonOrVersionSubmit (this : Client)
    (addonId uuid metaDataJson : Js.value) : M Response :=
  let url := Url.resolve ("addon/" ++ Js.to_string addonId ++ "/") (apiUrl this) in
  jsonData <- lift (jsonData uuid metaDataJson) ;;
  fetch this url (Some "PUT") (JsonString jsonData).

(** The predicate [waitForApproval] polls with. *)
Definition approval_successFunc (detailResponseData : Js.value) : M Js.value :=
  file <- lift (Js.destructure detailResponseData "file") ;;
  if Js.truthy file then
    status <- lift (Js.get file "status") ;;
    match status with
    | Js.Str s => if String.eqb s "public" then lift (Js.get file "url")
                  else ret Js.Null
    | _ => ret Js.Null
    end
  else ret Js.Null.

Definition waitForApproval (this : Client) (addonId versionId : Js.value)
  : M Js.value :=
  log_info "Waiting for Approval..." [] ;;;
  waitRetry this approval_successFunc
    (Url.resolve ("addon/" ++ Js.to_string addonId ++ "/versions/"
                  ++ Js.to_string versionId ++ "/") (apiUrl this))
    (approvalCheckInterval this)
    (approvalCheckTimeout this)
    "Approval".

Record SignResult := { id : Js.value; downloadedFiles : list string }.

(** [promisify(pipeline)(contents, createWriteStream(destPath))] *)
Definition saveToFile (contents destPath : string) : M unit :=
  emit (Piped destPath contents) ;;;
  lift (pipeline env contents destPath).

Definition downloadSignedFile (this : Client) (fileUrl : Url.t)
    (addonId : Js.value) : M SignResult :=
  let filename := Url.pop (Url.split "/" (Url.pathname fileUrl)) in
  let dest := downloadDir this ++ "/" ++ filename in
  try_catch
    (response <- fetch this fileUrl None NoBody ;;
     match ok response, stream response with
     | true, Some contents => saveToFile contents dest
     | _, _ => throw (Js.Error ("response status was "
                                ++ Js.to_string (Js.Num (status response))))
     end)
    (fun error =>
       log_info ("Download of signed xpi failed: "
                 ++ Js.error_to_string error ++ ".") [] ;;;
       throw (Js.Error ("Downloading " ++ filename ++ " failed"))) ;;;
  ret {| id := addonId; downloadedFiles := [filename] |}.

Definition newline : string := String (ascii_of_nat 10) EmptyString.
Definition dquote : string := String (ascii_of_nat 34) EmptyString.

(** [id.toString()] *)
Definition toString (v : Js.value) : Js.outcome string :=
  match v with
  | Js.Undefined | Js.Null =>
      Js.Threw (Js.TypeError ("Cannot read properties of " ++ Js.to_string v
                              ++ " (reading 'toString')"))
  | _ => Js.Returned (Js.to_string v)
  end.

Definition saveIdToFile (filePath : string) (id : Js.value) : M unit :=
  text <- lift (toString id) ;;
  let contents :=
    Js.join newline
      ["# This file was created by https://github.com/mozilla/web-ext";
       "# Your auto-generated extension ID for addons.mozilla.org is:";
       text] in
  emit (WroteFile filePath contents) ;;;
  lift (writeFile env filePath contents) ;;;
  log_debug ("Saved auto-generated ID " ++ Js.to_string id ++ " to " ++ filePath).

Definition versionObject (channel : string) : string :=
  if String.eqb channel "listed" then "current_version"
  else "latest_unlisted_version".

Definition postNewAddon (this : Client) (xpiPath channel savedIdPath : string)
    (metaDataJson : Js.value)
    (saveIdToFileFunc : option (string -> Js.value -> M unit)) : M SignResult :=
  let saveIdToFileFunc := or_default saveIdToFileFunc saveIdToFile in
  uploadUuid <- doUploadSubmit this xpiPath channel ;;
  r <- doNewAddonSubmit this uploadUuid metaDataJson ;;
  addonId <- lift (Js.destructure r "guid") ;;
  version <- lift (Js.destructure r (versionObject channel)) ;;
  newVersionId <- lift (Js.destructure version "id") ;;
  saveIdToFileFunc savedIdPath addonId ;;;
  log_info ("Generated extension ID: " ++ Js.to_string addonId ++ ".") [] ;;;
  log_info "You must add the following to your manifest:" [] ;;;
  log_info (dquote ++ "browser_specific_settings" ++ dquote ++ ": {"
            ++ dquote ++ "gecko" ++ dquote ++ ": {" ++ dquote ++ "id" ++ dquote
            ++ ": " ++ dquote ++ Js.to_string addonId ++ dquote ++ "}}") [] ;;;
  approved <- waitForApproval this addonId newVersionId ;;
  fileUrl <- lift (Url.parse (Js.to_string approved)) ;;
  downloadSignedFile this fileUrl addonId.

Definition putVersion (this : Client) (xpiPath channel : string)
    (addonId metaDataJson : Js.value) : M SignResult :=
  uploadUuid <- doUploadSubmit this xpiPath channel ;;
  doNewAddonOrVersionSubmit this addonId uploadUuid metaDataJson ;;;
  let url := Url.resolve ("addon/" ++ Js.to_string addonId
                          ++ "/versions/?filter=all_with_unlisted")
                         (apiUrl this) in
  r <- fetchJson this url None NoBody None ;;
  results <- lift (Js.destructure r "results") ;;
  entry <- lift (Js.first results) ;;
  newVersionId <- lift (Js.destructure entry "id") ;;
  approved <- waitForApproval this addonId newVersionId ;;
  fileUrl <- lift (Url.parse (Js.to_string approved)) ;;
  downloadSignedFile this fileUrl addonId.

(** ** signAddon *)

Record signAddonParams := {
  s_apiKey : string;
  s_apiSecret : string;
  s_amoBaseUrl : string;
  s_timeout : option Z;
  s_id : option string;
  s_xpiPath : string;
  s_downloadDir : option string;
  s_channel : string;
  s_savedIdPath : string;
  s_metaDataJson : option Js.value;
  s_userAgentString : string;
  s_ApiAuthClass : option (string -> string -> ApiAuth)
}.

(** The client that [signAddon] constructs. *)
Definition signAddon_client (p : signAddonParams) (baseUrl : Url.t) : Client :=
  let ApiAuthClass :=
    or_default (s_ApiAuthClass p)
      (fun apiKey apiSecret =>
         JwtApiAuth_as_ApiAuth (JwtApiAuth_new apiKey apiSecret None)) in
  Client_new
    {| p_apiAuth := ApiAuthClass (s_apiKey p) (s_apiSecret p);
       p_baseUrl := baseUrl;
       p_validationCheckInterval := None;
       p_validationCheckTimeout := s_timeout p;
       p_approvalCheckInterval := None;
       p_approvalCheckTimeout := s_timeout p;
       p_downloadDir := s_downloadDir p;
       p_userAgentString := s_userAgentString p |}.

Definition signAddon (p : signAddonParams) : M SignResult :=
  let metaDataJson := or_default (s_metaDataJson p) (Js.Obj []) in
  try_catch
    (isFile <- lift (stat_isFile env (s_xpiPath p)) ;;
     if negb isFile then throw (Js.Error ("not a file: " ++ s_xpiPath p))
     else ret tt)
    (fun statError =>
       throw (Js.Error ("error with " ++ s_xpiPath p ++ ": "
                        ++ Js.error_to_string statError))) ;;;
  baseUrl <- try_catch (lift (Url.parse (s_amoBaseUrl p)))
               (fun _ => throw (Js.Error ("Invalid AMO API base URL: "
                                          ++ s_amoBaseUrl p))) ;;
  let client := signAddon_client p baseUrl in
  match s_id p with
  | None =>
      postNewAddon client (s_xpiPath p) (s_channel p) (s_savedIdPath p)
        metaDataJson None
  | Some id =>
      putVersion client (s_xpiPath p) (s_channel p) (Js.Str id) metaDataJson
  end.

End WithEnv.

(** ** Observations and scenarios *)

(** The requests that went out, oldest first. *)
Fixpoint sent (es : list Effect) : list Request :=
  match es with
  | [] => []
  | Sent _ req :: rest => req :: sent rest
  | _ :: rest => sent rest
  end.

(** [w'] is [w] after some more effects: what happened stays in place. *)
Definition extends (w w' : World) : Prop :=
  exists es, effects w' = (effects w ++ es)%list.

Definition appends {A} (m : M A) : Prop := forall w, extends w (snd (m w)).

(** When they went out. *)
Fixpoint sent_at (es : list Effect) : list Z :=
  match es with
  | [] => []
  | Sent t _ :: rest => t :: sent_at rest
  | _ :: rest => sent_at rest
  end.

(** The request [fetch] builds once it has the Authorization header. *)
Definition request_with (this : Client) (url : Url.t) (method : option string)
    (body : Body) (authorization : string) : Request :=
  {| url := url;
     method := or_default method "GET";
     headers :=
       [("Authorization", authorization);
        ("Accept", "application/json");
        ("User-Agent", userAgentString this)]
       ++ (if is_string body then [("Content-Type", "application/json")] else []);
     body := body |}.

(** [obj.k] of a value that is not null: the property, or undefined. *)
Definition field (v : Js.value) (k : string) : Js.value :=
  match Js.lookup k (Js.own_props v) with
  | Some x => x
  | None => Js.Undefined
  end.

(** The text [saveIdToFile] writes: two comment lines, then the id. *)
Definition id_file_text (id : Js.value) : string :=
  Js.join newline
    ["# This file was created by https://github.com/mozilla/web-ext";
     "# Your auto-generated extension ID for addons.mozilla.org is:";
     Js.to_string id].

(** The world after some more effects. *)
Definition and_then (w : World) (es : list Effect) : World :=
  {| clock := clock w; effects := effects w ++ es; calls := calls w |}.

(** [response.statusText || response.status], printed. *)
Definition status_text (response : Response) : string :=
  if String.eqb (statusText response) EmptyString
  then Js.string_of_Z (status response)
  else statusText response.

(** [file && file.status === 'public'] on the answer of the version's
    detail. *)
Definition published (detailResponseData : Js.value) : bool :=
  let file := field detailResponseData "file" in
  Js.truthy file
  && match field file "status" with
     | Js.Str s => String.eqb s "public"
     | _ => false
     end.

(** The base path as the constructor leaves it: with a slash at its end. *)
Definition with_slash (pathname : string) : string :=
  if Url.ends_with_slash pathname then pathname else pathname ++ "/".

(** Every effect that [m] adds satisfies [P]. *)
Definition only (P : Effect -> Prop) {A} (m : M A) : Prop :=
  forall w, exists es,
    effects (snd (m w)) = (effects w ++ es)%list /\ Forall P es.

(** A request is authorised when it is the request [fetch] builds with a
    header that was produced at the very time it was sent. *)
Definition authorised (this : Client) (e : Effect) : Prop :=
  match e with
  | Sent t req =>
      exists authorization,
        getAuthHeader (apiAuth this) t = Js.Returned authorization
        /\ req = request_with this (url req) (Some (method req)) (body req)
                   authorization
  | _ => True
  end.

(** What a poll may do: log, and GET the check URL. *)
Definition polls_only (checkUrl : Url.t) (e : Effect) : Prop :=
  match e with
  | Info _ _ | Debug _ => True
  | Sent _ req => url req = checkUrl /\ method req = "GET" /\ body req = NoBody
  | WroteFile _ _ | Piped _ _ => False
  end.

Definition logs_only (e : Effect) : Prop :=
  match e with
  | Info _ _ | Debug _ => True
  | _ => False
  end.

(** What the workflow may write: the id file, on the create path only,
    and a stream to the path made of the download directory, a slash and a
    file name that holds no slash. *)
Definition files_only (downloadDir : string) (create : bool)
    (savedIdPath : string) (e : Effect) : Prop :=
  match e with
  | WroteFile path _ => create = true /\ path = savedIdPath
  | Piped dest _ =>
      exists filename,
        dest = downloadDir ++ "/" ++ filename
        /\ Url.split "/" filename = [filename]
  | _ => True
  end.

(** A request carries a token of its own when its first header is
    [Authorization: JWT <token>] for a token that was signed, at the time
    the request was sent, to expire [ttl] seconds later. *)
Definition freshly_signed (env : Env) (key secret : string) (ttl : Z)
    (e : Effect) : Prop :=
  match e with
  | Sent t req =>
      exists token,
        sign_HS256 env key (t / 1000) (t / 1000 + ttl) secret
        = Js.Returned token
        /\ List.hd_error (headers req) = Some ("Authorization", "JWT " ++ token)
  | _ => True
  end.

(** The request in flight, if any, is answered by the network. *)
Definition from_network (env : Env) (s : Loop) : Prop :=
  forall x, in_flight s = Some x ->
            exists n req, snd x = snd (network env n req).

(** A call whose only way out is the abort timer due at [T]: the promise is
    pending or rejected with the timeout error, and rejected at [T] or
    later. *)
Definition timing_out (env : Env) (context : string) (T : Z) (s : Loop) : Prop :=
  (promise s = None
   \/ promise s = Some (Js.Threw (Js.Error (context ++ ": timeout."))))
  /\ from_network env s
  /\ (forall t, abortTimeout s = Some t -> t = T)
  /\ (promise s <> None -> T <= clock (world s)).

(** Times that are at least [d] apart, in order. *)
Fixpoint spaced (d : Z) (l : list Z) : Prop :=
  match l with
  | a :: (b :: _) as rest => a + d <= b /\ spaced d rest
  | _ => True
  end.

(** The requests of one call, which started in [w], are paced by [d]: they
    were sent at least [d] apart, not before the call and not after now, and
    a pending poll timer is due [d] or more after the last of them. *)
Definition paced (w : World) (d : Z) (s : Loop) : Prop :=
  clock w <= clock (world s)
  /\ exists es,
      effects (world s) = (effects w ++ es)%list
      /\ spaced d (sent_at es)
      /\ (forall t, In t (sent_at es) -> clock w <= t <= clock (world s))
      /\ (forall c, checkTimeout s = Some c ->
                    forall t, In t (sent_at es) -> t + d <= c).

Module Scenario.

Definition json_response (status : Z) (ok : bool) (data : Js.value) : Response :=
  {| status := status; statusText := "OK"; ok := ok;
     stream := Some "bytes"; json := Js.Returned data |}.

(** A server that answers the n-th request with the n-th entry of a script
    (latency and result), and with [fallback] after the script ends. *)
Definition server (script : list (Z * Js.outcome Response))
    (fallback : Z * Js.outcome Response) : Env :=
  {| network := fun n _ => nth n script fallback;
     stat_isFile := fun _ => Js.Returned true;
     fileFromSync := fun _ => Js.Returned tt;
     writeFile := fun _ _ => Js.Returned tt;
     pipeline := fun _ _ => Js.Returned tt;
     sign_HS256 := fun _ _ _ _ => Js.Returned "token";
     cwd := "/home/user" |}.

Definition start : World := {| clock := 0; effects := []; calls := 0 |}.

Definition amo : Url.t :=
  {| Url.origin := "https://amo.example";
     Url.pathname := "/api/v5/";
     Url.search := EmptyString |}.

Definition client (env : Env) (timeout : option Z) : Client :=
  Client_new env
    {| p_apiAuth := JwtApiAuth_as_ApiAuth env (JwtApiAuth_new "key" "secret" None);
       p_baseUrl := amo;
       p_validationCheckInterval := None;
       p_validationCheckTimeout := timeout;
       p_approvalCheckInterval := None;
       p_approvalCheckTimeout := timeout;
       p_downloadDir := Some "/dl";
       p_userAgentString := "web-ext/7" |}.

Definition forbidden : Response :=
  {| status := 403; statusText := "Forbidden"; ok := false;
     stream := Some "{}";
     json := Js.Returned (Js.Obj [("detail", Js.Str "denied")]) |}.

Definition not_found : Response :=
  {| status := 404; statusText := "Not Found"; ok := false;
     stream := Some "<html>";
     json := Js.Threw {| Js.name := "SyntaxError";
                         Js.message := "Unexpected token < in JSON at position 0" |} |}.

Definition ok_html : Response :=
  {| status := 200; statusText := "OK"; ok := true;
     stream := Some "<html>";
     json := Js.Threw {| Js.name := "SyntaxError";
                         Js.message := "Unexpected token < in JSON at position 0" |} |}.

Definition params (timeout : option Z) (id : option string) : signAddonParams :=
  {| s_apiKey := "key"; s_apiSecret := "secret";
     s_amoBaseUrl := "https://amo.example/api/v5";
     s_timeout := timeout; s_id := id; s_xpiPath := "addon.xpi";
     s_downloadDir := Some "/dl"; s_channel := "listed";
     s_savedIdPath := ".web-extension-id"; s_metaDataJson := None;
     s_userAgentString := "web-ext/7"; s_ApiAuthClass := None |}.

(** The answers of a submission that goes through: upload, two validation
    polls, the record, two approval polls, the signed file. *)
Definition create_script : list (Z * Js.outcome Response) :=
  [(30, Js.Returned (json_response 201 true (Js.Obj [("uuid", Js.Str "u1")])));
   (30, Js.Returned (json_response 200 true
                       (Js.Obj [("processed", Js.Bool false)])));
   (30, Js.Returned (json_response 200 true
                       (Js.Obj [("processed", Js.Bool true);
                                ("valid", Js.Bool true);
                                ("uuid", Js.Str "u1")])));
   (30, Js.Returned (json_response 201 true
                       (Js.Obj [("guid", Js.Str "new@addon");
                                ("current_version", Js.Obj [("id", Js.Num 7)]);
                                ("latest_unlisted_version",
                                 Js.Obj [("id", Js.Num 8)])])));
   (30, Js.Returned (json_response 200 true
                       (Js.Obj [("file", Js.Obj [("status", Js.Str "pending")])])));
   (30, Js.Returned (json_response 200 true
                       (Js.Obj [("file",
                                 Js.Obj [("status", Js.Str "public");
                                         ("url", Js.Str "https://x/y/signed.xpi")])])));
   (30, Js.Returned (json_response 200 true Js.Null))].

Definition update_script : list (Z * Js.outcome Response) :=
  [(30, Js.Returned (json_response 201 true (Js.Obj [("uuid", Js.Str "u1")])));
   (30, Js.Returned (json_response 200 true
                       (Js.Obj [("processed", Js.Bool true);
                                ("valid", Js.Bool true);
                                ("uuid", Js.Str "u1")])));
   (30, Js.Returned (json_response 200 true (Js.Obj [])));
   (30, Js.Returned (json_response 200 true
                       (Js.Obj [("results", Js.Arr [Js.Obj [("id", Js.Num 12)];
                                                    Js.Obj [("id", Js.Num 11)]])])));
   (30, Js.Returned (json_response 200 true
                       (Js.Obj [("file",
                                 Js.Obj [("status", Js.Str "public");
                                         ("url", Js.Str "https://x/y/signed.xpi")])])));
   (30, Js.Returned (json_response 200 true Js.Null))].

Definition not_processed : Response :=
  json_response 200 true (Js.Obj [("processed", Js.Bool false)]).

Definition rejected : Response :=
  json_response 200 true
    (Js.Obj [("processed", Js.Bool true); ("valid", Js.Bool false);
             ("url", Js.Str "https://amo.example/upload/u1")]).

Definition validated : Response :=
  json_response 200 true
    (Js.Obj [("processed", Js.Bool true); ("valid", Js.Bool true);
             ("uuid", Js.Str "u1")]).

(** A server that needs 50 ms for its first answer and 5 ms for the later
    ones, and never finishes processing the upload. *)
Definition slow_server : Env :=
  server [(50, Js.Returned not_processed)] (5, Js.Returned not_processed).

(** A version whose file is public but has an empty url at first. *)
Definition empty_url_script : list (Z * Js.outcome Response) :=
  [(30, Js.Returned (json_response 200 true
                       (Js.Obj [("file", Js.Obj [("status", Js.Str "public");
                                                 ("url", Js.Str EmptyString)])])));
   (30, Js.Returned (json_response 200 true
                       (Js.Obj [("file",
                                 Js.Obj [("status", Js.Str "public");
                                         ("url", Js.Str "https://x/y/signed.xpi")])])))].

Definition status_url (env : Env) : Url.t :=
  Url.resolve "upload/u1/" (apiUrl (client env None)).

Definition parsed_amo : Url.t :=
  {| Url.origin := "https://amo.example";
     Url.pathname := "/api/v5";
     Url.search := EmptyString |}.

(** Metadata that names an upload of its own. *)
Definition metadata_with_upload : Js.value :=
  Js.Obj [("version", Js.Obj [("license", Js.Str "MPL-2.0");
                              ("upload", Js.Str "other-upload")])].

(** An environment whose signer rejects the secret. *)
Definition unsigned (env : Env) : Env :=
  {| network := network env;
     stat_isFile := stat_isFile env;
     fileFromSync := fileFromSync env;
     writeFile := writeFile env;
     pipeline := pipeline env;
     sign_HS256 := fun _ _ _ _ =>
                     Js.Threw (Js.Error "secret must be a non-empty string");
     cwd := cwd env |}.

(** An environment in which the package is a directory. *)
Definition directory (env : Env) : Env :=
  {| network := network env;
     stat_isFile := fun _ => Js.Returned false;
     fileFromSync := fileFromSync env;
     writeFile := writeFile env;
     pipeline := pipeline env;
     sign_HS256 := sign_HS256 env;
     cwd := cwd env |}.

(** An environment whose disk is full. *)
Definition read_only (env : Env) : Env :=
  {| network := network env;
     stat_isFile := stat_isFile env;
     fileFromSync := fileFromSync env;
     writeFile := fun _ _ => Js.Threw (Js.Error "ENOSPC: no space left on device");
     pipeline := pipeline env;
     sign_HS256 := sign_HS256 env;
     cwd := cwd env |}.

(** A record created on the listed channel only. *)
Definition listed_only_script : list (Z * Js.outcome Response) :=
  [(30, Js.Returned (json_response 201 true (Js.Obj [("uuid", Js.Str "u1")])));
   (30, Js.Returned validated);
   (30, Js.Returned (json_response 201 true
                       (Js.Obj [("guid", Js.Str "new@addon");
                                ("current_version", Js.Obj [("id", Js.Num 7)]);
                                ("latest_unlisted_version", Js.Null)])))].

(** An update that the server refuses, and a record without versions. *)
Definition refused_update_script : list (Z * Js.outcome Response) :=
  [(30, Js.Returned (json_response 201 true (Js.Obj [("uuid", Js.Str "u1")])));
   (30, Js.Returned validated);
   (30, Js.Returned {| status := 500; statusText := "Internal Server Error";
                       ok := false; stream := None;
                       json := Js.Threw (Js.Error "not json") |});
   (30, Js.Returned (json_response 200 true (Js.Obj [("results", Js.Arr [])])))].

(** An environment in which the package has gone. *)
Definition missing (env : Env) : Env :=
  {| network := network env;
     stat_isFile := stat_isFile env;
     fileFromSync := fun path =>
                       Js.Threw (Js.Error ("ENOENT: no such file or directory, stat '"
                                           ++ path ++ "'"));
     writeFile := writeFile env;
     pipeline := pipeline env;
     sign_HS256 := sign_HS256 env;
     cwd := cwd env |}.

Definition unavailable : Response :=
  {| status := 503; statusText := "Service Unavailable"; ok := false;
     stream := None; json := Js.Threw (Js.Error "not json") |}.

End Scenario.

(** * Properties *)

(** ** Objects *)

Lemma lookup_app k ps qs :
  Js.lookup k (ps ++ qs) =
  match Js.lookup k qs with Some x => Some x | None => Js.lookup k ps end.
Proof.
  induction ps as [|[k' v] ps IH]; simpl.
  - destruct (Js.lookup k qs); reflexivity.
  - rewrite IH. destruct (Js.lookup k qs); reflexivity.
Qed.

Lemma lookup_update_absent k k0 v ps :
  Js.lookup k ps = None ->
  Js.lookup k
    (List.map (fun kv => if String.eqb k0 (fst kv) then (fst kv, v) else kv) ps)
  = None.
Proof.
  induction ps as [|[k' v'] ps IH]; simpl; intros H; [reflexivity|].
  destruct (Js.lookup k ps) eqn:E; [discriminate|].
  rewrite IH by reflexivity.
  destruct (String.eqb k0 k'); simpl; destruct (String.eqb k k'); congruence.
Qed.

Lemma lookup_update_same k v ps :
  Js.has k ps = true ->
  Js.lookup k
    (List.map (fun kv => if String.eqb k (fst kv) then (fst kv, v) else kv) ps)
  = Some v.
Proof.
  unfold Js.has.
  induction ps as [|[k' v'] ps IH]; simpl; intros H; [discriminate|].
  destruct (Js.lookup k ps) eqn:E.
  - rewrite IH by reflexivity. destruct (String.eqb k k'); reflexivity.
  - rewrite lookup_update_absent by assumption.
    destruct (String.eqb k k') eqn:K; [|discriminate].
    simpl. rewrite K. reflexivity.
Qed.

Lemma lookup_update_other k k0 v ps :
  k <> k0 ->
  Js.lookup k
    (List.map (fun kv => if String.eqb k0 (fst kv) then (fst kv, v) else kv) ps)
  = Js.lookup k ps.
Proof.
  intros N. induction ps as [|[k' v'] ps IH]; simpl; [reflexivity|].
  rewrite IH. destruct (Js.lookup k ps);
    [destruct (String.eqb k0 k'); reflexivity|].
  destruct (String.eqb k0 k') eqn:K0; simpl; [|reflexivity].
  destruct (String.eqb k k') eqn:K; [|reflexivity].
  apply String.eqb_eq in K0, K. congruence.
Qed.

Lemma lookup_set_same k v ps : Js.lookup k (Js.set k v ps) = Some v.
Proof.
  unfold Js.set. destruct (Js.has k ps) eqn:H.
  - apply lookup_update_same, H.
  - rewrite lookup_app. simpl. rewrite String.eqb_refl. reflexivity.
Qed.

Lemma lookup_set_other k k0 v ps :
  k <> k0 -> Js.lookup k (Js.set k0 v ps) = Js.lookup k ps.
Proof.
  intros N. unfold Js.set. destruct (Js.has k0 ps).
  - apply lookup_update_other, N.
  - rewrite lookup_app. simpl.
    destruct (String.eqb k k0) eqn:K; [|reflexivity].
    apply String.eqb_eq in K. contradiction.
Qed.

Lemma lookup_fold_set k l target :
  Js.lookup k (fold_left (fun acc kv => Js.set (fst kv) (snd kv) acc) l target) =
  match Js.lookup k l with Some x => Some x | None => Js.lookup k target end.
Proof.
  revert target. induction l as [|[k' v] l IH]; intros target; simpl.
  - reflexivity.
  - rewrite IH. destruct (Js.lookup k l); [reflexivity|].
    destruct (String.eqb k k') eqn:K.
    + apply String.eqb_eq in K. subst. apply lookup_set_same.
    + apply lookup_set_other. intros ->. rewrite String.eqb_refl in K. discriminate.
Qed.

(** A spread copies every own property of its source over the target. *)
Lemma lookup_spread k v target :
  Js.lookup k (Js.spread v target) =
  match Js.lookup k (Js.own_props v) with
  | Some x => Some x
  | None => Js.lookup k target
  end.
Proof. apply lookup_fold_set. Qed.

(** ** The HTTP gateway *)

Lemma sent_app es es' : sent (es ++ es') = (sent es ++ sent es')%list.
Proof.
  induction es as [|e es IH]; simpl; [reflexivity|].
  destruct e; simpl; rewrite IH; reflexivity.
Qed.

Section Gateway.

Variable env : Env.
Variable this : Client.

(** What [fetch] does before it awaits: one log line, then the request. *)
Lemma fetch_send_run url method body w authorization :
  getAuthHeader (apiAuth this) (clock w) = Js.Returned authorization ->
  fetch_send env this url method body w =
  (Js.Returned
     (clock w + Z.max 0 (fst (network env (calls w)
                                (request_with this url method body authorization))),
      snd (network env (calls w)
             (request_with this url method body authorization))),
   {| clock := clock w;
      effects := effects w
                 ++ [Info ("Fetching URL: " ++ Url.href url) [];
                     Sent (clock w)
                       (request_with this url method body authorization)];
      calls := S (calls w) |}).
Proof.
  intros H.
  unfold fetch_send, bind, log_info, emit, now, lift, nodeFetch_send, request_with.
  simpl. rewrite H.
  destruct (is_string body); simpl;
    match goal with
    | |- context [network env ?n ?r] => destruct (network env n r)
    end; simpl; rewrite <- app_assoc; reflexivity.
Qed.

(** Without an Authorization header nothing is sent. *)
Lemma fetch_send_no_header url method body w e :
  getAuthHeader (apiAuth this) (clock w) = Js.Threw e ->
  fetch_send env this url method body w =
  (Js.Threw e,
   {| clock := clock w;
      effects := effects w ++ [Info ("Fetching URL: " ++ Url.href url) []];
      calls := calls w |}).
Proof.
  intros H. unfold fetch_send, bind, log_info, emit, now, lift. simpl.
  rewrite H. reflexivity.
Qed.

Lemma fetchJson_resume_sent errorMsg response w :
  sent (effects (snd (fetchJson_resume errorMsg response w))) = sent (effects w).
Proof.
  unfold fetchJson_resume.
  destruct ((status response <? 200) || (status response >=? 500)); [reflexivity|].
  unfold bind, lift, throw, log_info, emit, ret.
  destruct (json response); simpl; try reflexivity.
  destruct (ok response); simpl; [reflexivity|].
  rewrite sent_app. simpl. apply app_nil_r.
Qed.

(** [fetch] sends exactly one request, the one it builds. *)
Lemma fetch_sent url method body w authorization :
  getAuthHeader (apiAuth this) (clock w) = Js.Returned authorization ->
  sent (effects (snd (fetch env this url method body w))) =
  (sent (effects w) ++ [request_with this url method body authorization])%list.
Proof.
  intros H. unfold fetch, bind. rewrite (fetch_send_run _ _ _ _ _ H).
  unfold await_response. simpl. rewrite sent_app. reflexivity.
Qed.

(** So does [fetchJson], whatever the answer. *)
Lemma fetchJson_sent url method body errorMsg w authorization :
  getAuthHeader (apiAuth this) (clock w) = Js.Returned authorization ->
  sent (effects (snd (fetchJson env this url method body errorMsg w))) =
  (sent (effects w) ++ [request_with this url method body authorization])%list.
Proof.
  intros H. unfold fetchJson, bind.
  pose proof (fetch_sent url method body w authorization H) as F.
  destruct (fetch env this url method body w) as [[response|e|] w1]; simpl in *;
    try exact F.
  rewrite fetchJson_resume_sent. exact F.
Qed.

Lemma fetch_send_returned url method body w x w' :
  fetch_send env this url method body w = (Js.Returned x, w') ->
  exists authorization,
    getAuthHeader (apiAuth this) (clock w) = Js.Returned authorization.
Proof.
  unfold fetch_send, bind, log_info, emit, now, lift. simpl.
  destruct (getAuthHeader (apiAuth this) (clock w)); try discriminate.
  intros _. eexists. reflexivity.
Qed.

Lemma fetch_returned_sent url method body w response w' :
  fetch env this url method body w = (Js.Returned response, w') ->
  exists authorization,
    sent (effects w')
    = (sent (effects w) ++ [request_with this url method body authorization])%list.
Proof.
  intros H.
  assert (exists a, getAuthHeader (apiAuth this) (clock w) = Js.Returned a)
    as [a A].
  { unfold fetch, bind in H.
    destruct (fetch_send env this url method body w) as [[x| |] w1] eqn:F;
      try discriminate.
    eapply fetch_send_returned, F. }
  exists a. rewrite <- (fetch_sent url method body w a A), H. reflexivity.
Qed.

Lemma fetchJson_returned_sent url method body errorMsg w r w' :
  fetchJson env this url method body errorMsg w = (Js.Returned r, w') ->
  exists authorization,
    sent (effects w')
    = (sent (effects w) ++ [request_with this url method body authorization])%list.
Proof.
  intros H.
  assert (exists a, getAuthHeader (apiAuth this) (clock w) = Js.Returned a)
    as [a A].
  { unfold fetchJson, fetch, bind in H.
    destruct (fetch_send env this url method body w) as [[x| |] w1] eqn:F;
      try discriminate.
    eapply fetch_send_returned, F. }
  exists a. rewrite <- (fetchJson_sent url method body errorMsg w a A), H.
  reflexivity.
Qed.

End Gateway.

Lemma status_error_message errorMsg response :
  status_error errorMsg response
  = Js.Error (errorMsg ++ ": " ++ status_text response ++ ".").
Proof.
  unfold status_error, status_text, Js.or_else. simpl.
  destruct (String.eqb (statusText response) EmptyString); reflexivity.
Qed.

(** C2, as amended: once the HTTP layer has produced a response, [fetchJson]
    raises the error [errorMsg: <status text, or the numeric status when the
    text is empty>.] when the status is below 200 or at least 500, and when
    the status is in [200, 500), the body parses and the response is not ok;
    it returns the parsed body when the status is in [200, 500), the body
    parses and the response is ok; and when the status is in [200, 500) and
    the body does not parse, the parser's error is what it raises, ok or
    not. *)
Theorem fetchJson_classifies_response env this url method body errorMsg w
    response w1 :
  fetch env this url method body w = (Js.Returned response, w1) ->
  let failure :=
    Js.Error (or_default errorMsg "Bad Request" ++ ": "
              ++ status_text response ++ ".") in
  let result := fetchJson env this url method body errorMsg w in
  (status response < 200 \/ status response >= 500 ->
   result = (Js.Threw failure, w1))
  /\ (200 <= status response < 500 ->
      match json response with
      | Js.Returned data =>
          if ok response then result = (Js.Returned data, w1)
          else result = (Js.Threw failure,
                         and_then w1 [Info "Server Response:" [data]])
      | Js.Threw e => result = (Js.Threw e, w1)
      | Js.Pending => result = (Js.Pending, w1)
      end).
Proof.
  intros F failure result. subst result failure.
  rewrite <- status_error_message.
  unfold fetchJson, bind. rewrite F. unfold fetchJson_resume. split.
  - intros H.
    replace ((status response <? 200) || (status response >=? 500)) with true;
      [reflexivity|].
    symmetry. apply orb_true_iff. destruct H; [left|right]; lia.
  - intros H.
    replace ((status response <? 200) || (status response >=? 500)) with false
      by (symmetry; apply orb_false_iff; split; lia).
    unfold bind, lift, ret, throw, log_info, emit.
    destruct (json response); try reflexivity.
    destruct (ok response); reflexivity.
Qed.

Lemma fetchJson_classifies_response_witness :
  let env := Scenario.server [(20, Js.Returned Scenario.forbidden)]
               (0, Js.Pending) in
  let this := Scenario.client env None in
  let url := Url.resolve "upload/" (apiUrl this) in
  exists w1,
    fst (fetch env this url (Some "POST") NoBody Scenario.start)
      = Js.Returned Scenario.forbidden
    /\ fetchJson env this url (Some "POST") NoBody (Some "Upload failed")
         Scenario.start
       = (Js.Threw (Js.Error "Upload failed: Forbidden."), w1).
Proof.
  intros env this url.
  pose proof (fetchJson_classifies_response env this url (Some "POST") NoBody
                (Some "Upload failed") Scenario.start Scenario.forbidden
                _ eq_refl) as [_ H].
  specialize (H ltac:(simpl; lia)). simpl in H.
  eexists. split; [reflexivity | exact H].
Defined.

(** C2, counterexample: a response with status 200 that is marked ok, and
    whose body is not JSON, makes [fetchJson] raise, and a 404 response
    whose body is not JSON raises the parser's error, which mentions neither
    the error context nor the status text. *)
Lemma fetchJson_raises_parse_error :
  let parse_error := {| Js.name := "SyntaxError";
                        Js.message := "Unexpected token < in JSON at position 0" |} in
  let served r := Scenario.server [(20, Js.Returned r)] (0, Js.Pending) in
  let call r :=
    fst (fetchJson (served r) (Scenario.client (served r) None)
           (Url.resolve "upload/" Scenario.amo) (Some "POST") NoBody
           (Some "Upload failed") Scenario.start) in
  (status Scenario.ok_html = 200 /\ ok Scenario.ok_html = true
   /\ call Scenario.ok_html = Js.Threw parse_error)
  /\ (status Scenario.not_found = 404 /\ ok Scenario.not_found = false
      /\ statusText Scenario.not_found = "Not Found"
      /\ call Scenario.not_found = Js.Threw parse_error
      /\ call Scenario.not_found <> Js.Threw (Js.Error "Upload failed: Not Found.")).
Proof.
  repeat split. discriminate.
Qed.

(** ** The validation predicate *)

Lemma get_field d k :
  d <> Js.Null -> d <> Js.Undefined -> Js.get d k = Js.Returned (field d k).
Proof. intros N U. destruct d; try reflexivity; contradiction. Qed.




(** ** The submitted metadata *)

(** The object literal of both submissions, for a metadata object. *)
Lemma jsonData_object uuid props :
  jsonData uuid (Js.Obj props)
  = Js.Returned
      (Js.Obj (Js.set "version"
                 (Js.Obj (Js.spread (field (Js.Obj props) "version")
                            [("upload", uuid)]))
                 (Js.spread (Js.Obj props) []))).
Proof. reflexivity. Qed.

(** C8, as amended: for every metadata object and every validated uuid, the
    create submission and the update submission send the same JSON body: the
    metadata with its [version] replaced by an object that has the
    properties of the metadata's own [version] and the property [upload].
    [version.upload] is the uuid when the metadata's [version] has no
    [upload] property of its own, and is the metadata's [version.upload]
    when it has one. *)
Theorem submissions_send_merged_metadata env this props uuid addonId w
    authorization :
  getAuthHeader (apiAuth this) (clock w) = Js.Returned authorization ->
  let metaDataJson := Js.Obj props in
  let version := Js.own_props (field metaDataJson "version") in
  exists sent_body sent_version,
    sent (effects (snd (doNewAddonSubmit env this uuid metaDataJson w)))
    = (sent (effects w)
       ++ [request_with this (Url.resolve "addon/" (apiUrl this)) (Some "POST")
             (JsonString (Js.Obj sent_body)) authorization])%list
    /\ sent (effects (snd (doNewAddonOrVersionSubmit env this addonId uuid
                            metaDataJson w)))
       = (sent (effects w)
          ++ [request_with this
                (Url.resolve ("addon/" ++ Js.to_string addonId ++ "/")
                   (apiUrl this))
                (Some "PUT") (JsonString (Js.Obj sent_body)) authorization])%list
    /\ Js.lookup "version" sent_body = Some (Js.Obj sent_version)
    /\ (forall k, k <> "version" -> Js.lookup k sent_body = Js.lookup k props)
    /\ (forall k, k <> "upload" ->
                  Js.lookup k sent_version = Js.lookup k version)
    /\ (Js.has "upload" version = false ->
        Js.lookup "upload" sent_version = Some uuid)
    /\ (forall x, Js.lookup "upload" version = Some x ->
                  Js.lookup "upload" sent_version = Some x).
Proof.
  intros A metaDataJson version. subst metaDataJson version.
  eexists. eexists.
  split; [|split].
  - unfold doNewAddonSubmit, bind, lift. rewrite jsonData_object.
    apply fetchJson_sent. exact A.
  - unfold doNewAddonOrVersionSubmit, bind, lift. rewrite jsonData_object.
    apply fetch_sent. exact A.
  - split; [apply lookup_set_same|].
    split.
    { intros k K. rewrite lookup_set_other by exact K.
      rewrite lookup_spread. simpl. destruct (Js.lookup k props); reflexivity. }
    split.
    { intros k K. rewrite lookup_spread.
      destruct (Js.lookup k (Js.own_props (field (Js.Obj props) "version")));
        [reflexivity|].
      simpl. destruct (String.eqb k "upload") eqn:E; [|reflexivity].
      apply String.eqb_eq in E. contradiction. }
    split.
    { unfold Js.has. intros H. rewrite lookup_spread.
      destruct (Js.lookup "upload"
                  (Js.own_props (field (Js.Obj props) "version")));
        [discriminate|reflexivity]. }
    { intros x H. rewrite lookup_spread, H. reflexivity. }
Qed.

Lemma submissions_send_merged_metadata_witness :
  let env := Scenario.server [] (0, Js.Pending) in
  let this := Scenario.client env None in
  let metaDataJson :=
    Js.Obj [("summary", Js.Str "An add-on");
            ("version", Js.Obj [("license", Js.Str "MPL-2.0")])] in
  exists sent_body sent_version,
    sent (effects (snd (doNewAddonSubmit env this (Js.Str "u1") metaDataJson
                          Scenario.start)))
    = [request_with this (Url.resolve "addon/" (apiUrl this)) (Some "POST")
         (JsonString (Js.Obj sent_body)) "JWT token"]
    /\ Js.lookup "version" sent_body = Some (Js.Obj sent_version)
    /\ Js.lookup "summary" sent_body = Some (Js.Str "An add-on")
    /\ Js.lookup "upload" sent_version = Some (Js.Str "u1").
Proof.
  intros env this metaDataJson.
  destruct (submissions_send_merged_metadata env this
              [("summary", Js.Str "An add-on");
               ("version", Js.Obj [("license", Js.Str "MPL-2.0")])]
              (Js.Str "u1") (Js.Str "an-addon") Scenario.start "JWT token"
              eq_refl) as (sent_body & sent_version & H1 & _ & H3 & H4 & _ & H6 & _).
  exists sent_body, sent_version.
  split; [exact H1|]. split; [exact H3|]. split.
  - rewrite H4 by discriminate. reflexivity.
  - apply H6. reflexivity.
Defined.

(** C8, counterexample: metadata whose [version] names an upload of its own.
    Both submissions send that upload, not the validated uuid. *)
Lemma metadata_upload_replaces_uuid :
  let env := Scenario.server [] (0, Js.Pending) in
  let this := Scenario.client env None in
  let uuid := Js.Str "u1" in
  let sent_body :=
    Js.Obj [("version", Js.Obj [("upload", Js.Str "other-upload");
                                ("license", Js.Str "MPL-2.0")])] in
  List.map body
    (sent (effects (snd (doNewAddonSubmit env this uuid
                           Scenario.metadata_with_upload Scenario.start))))
  = [JsonString sent_body]
  /\ List.map body
       (sent (effects (snd (doNewAddonOrVersionSubmit env this
                              (Js.Str "an-addon") uuid
                              Scenario.metadata_with_upload Scenario.start))))
     = [JsonString sent_body]
  /\ field (field sent_body "version") "upload" = Js.Str "other-upload"
  /\ field (field sent_body "version") "upload" <> uuid.
Proof.
  repeat split. discriminate.
Qed.

(** ** The download *)

Lemma split_nonempty c s : Url.split c s <> [].
Proof.
  destruct s as [|a s]; simpl; [discriminate|].
  destruct (Ascii.eqb a c); [discriminate|].
  destruct (Url.split c s); discriminate.
Qed.

Lemma split_app c a b :
  Url.split c (a ++ String c b) = (Url.split c a ++ Url.split c b)%list.
Proof.
  induction a as [|x a IH]; simpl.
  - rewrite Ascii.eqb_refl. reflexivity.
  - destruct (Ascii.eqb x c); [rewrite IH; reflexivity|].
    rewrite IH. pose proof (split_nonempty c a) as N.
    destruct (Url.split c a); [contradiction|reflexivity].
Qed.

Lemma last_app_nonempty {A} (l l' : list A) d :
  l' <> [] -> List.last (l ++ l') d = List.last l' d.
Proof.
  intros N. induction l as [|x l IH]; simpl; [reflexivity|].
  rewrite IH. destruct (l ++ l')%list eqn:E; [|reflexivity].
  apply app_eq_nil in E. destruct E. contradiction.
Qed.

(** No piece of [s.split(c)] holds the separator. *)
Lemma split_pieces c s x : In x (Url.split c s) -> Url.split c x = [x].
Proof.
  revert x. induction s as [|a s IH]; intros x; simpl.
  - intros [<-|[]]. reflexivity.
  - destruct (Ascii.eqb a c) eqn:E.
    + intros [<-|H]; [reflexivity|apply IH, H].
    + pose proof (split_nonempty c s) as N.
      destruct (Url.split c s) as [|y ys]; [contradiction|].
      intros [<-|H].
      * simpl. rewrite E. rewrite (IH y (or_introl eq_refl)). reflexivity.
      * apply IH. right. exact H.
Qed.

Lemma split_pop s :
  Url.split "/" (Url.pop (Url.split "/" s)) = [Url.pop (Url.split "/" s)].
Proof.
  apply (split_pieces "/" s). unfold Url.pop.
  pose proof (split_nonempty "/" s) as N.
  destruct (exists_last N) as (l & x & ->).
  rewrite last_last. apply in_or_app. right. left. reflexivity.
Qed.

(** [pathname.split('/').pop()] is the last segment of the path. *)
Lemma pop_split_last_segment dir name :
  Url.split "/" name = [name] ->
  Url.pop (Url.split "/" (dir ++ "/" ++ name)) = name.
Proof.
  intros H. unfold Url.pop. simpl. rewrite split_app.
  rewrite last_app_nonempty by apply split_nonempty.
  rewrite H. reflexivity.
Qed.

(** C9: [downloadSignedFile] names the file after the last segment of the
    path of the signed URL and pipes the body to [downloadDir/filename];
    when that succeeds it returns the record id with that one file name; when
    the request fails, the response is not ok or has no body, or the pipe
    fails, it logs the error in full and throws exactly
    [Downloading <filename> failed]. *)
Theorem downloadSignedFile_result env this fileUrl addonId w :
  let filename := Url.pop (Url.split "/" (Url.pathname fileUrl)) in
  let dest := downloadDir this ++ "/" ++ filename in
  let result := downloadSignedFile env this fileUrl addonId w in
  let failure : Js.outcome SignResult :=
    Js.Threw (Js.Error ("Downloading " ++ filename ++ " failed")) in
  let logged e :=
    Info ("Download of signed xpi failed: " ++ Js.error_to_string e ++ ".") [] in
  (forall dir name,
      Url.pathname fileUrl = dir ++ "/" ++ name ->
      Url.split "/" name = [name] -> filename = name)
  /\ match fetch env this fileUrl None NoBody w with
     | (Js.Returned response, w1) =>
         match ok response, stream response with
         | true, Some contents =>
             match pipeline env contents dest with
             | Js.Returned _ =>
                 result = (Js.Returned {| id := addonId;
                                          downloadedFiles := [filename] |},
                           and_then w1 [Piped dest contents])
             | Js.Threw e =>
                 result = (failure, and_then w1 [Piped dest contents; logged e])
             | Js.Pending =>
                 result = (Js.Pending, and_then w1 [Piped dest contents])
             end
         | _, _ =>
             result = (failure,
                       and_then w1
                         [logged (Js.Error ("response status was "
                                            ++ Js.string_of_Z (status response)))])
         end
     | (Js.Threw e, w1) => result = (failure, and_then w1 [logged e])
     | (Js.Pending, w1) => result = (Js.Pending, w1)
     end.
Proof.
  intros filename dest result failure logged. split.
  - intros dir name P S. subst filename. rewrite P.
    apply pop_split_last_segment, S.
  - subst result failure. unfold downloadSignedFile, bind, try_catch.
    fold filename. fold dest.
    destruct (fetch env this fileUrl None NoBody w) as [[response|e|] w1];
      try reflexivity.
    unfold saveToFile, bind, emit, lift, throw, log_info, ret, and_then.
    destruct (ok response); [|reflexivity].
    destruct (stream response) as [contents|]; [|reflexivity].
    simpl. destruct (pipeline env contents dest) as [[]|e|]; simpl;
      try reflexivity.
    rewrite <- app_assoc. reflexivity.
Qed.

Lemma downloadSignedFile_result_witness :
  let env := Scenario.server
               [(40, Js.Returned (Scenario.json_response 200 true Js.Null))]
               (0, Js.Pending) in
  let fileUrl := {| Url.origin := "https://amo.example";
                    Url.pathname := "/downloads/file/42/foo.xpi";
                    Url.search := EmptyString |} in
  Url.pop (Url.split "/" (Url.pathname fileUrl)) = "foo.xpi"
  /\ fst (downloadSignedFile env (Scenario.client env None) fileUrl
            (Js.Str "an-addon") Scenario.start)
     = Js.Returned {| id := Js.Str "an-addon"; downloadedFiles := ["foo.xpi"] |}.
Proof.
  intros env fileUrl.
  destruct (downloadSignedFile_result env (Scenario.client env None) fileUrl
              (Js.Str "an-addon") Scenario.start) as [L R].
  split.
  - apply (L "/downloads/file/42" "foo.xpi"); reflexivity.
  - simpl in R. rewrite R. reflexivity.
Defined.

(** ** signAddon *)

(** Once the package is a file and the base URL parses, [signAddon] is the
    create workflow or the update workflow of the client it constructs. *)
Lemma signAddon_run env p w baseUrl :
  stat_isFile env (s_xpiPath p) = Js.Returned true ->
  Url.parse (s_amoBaseUrl p) = Js.Returned baseUrl ->
  signAddon env p w =
  match s_id p with
  | None =>
      postNewAddon env (signAddon_client env p baseUrl) (s_xpiPath p)
        (s_channel p) (s_savedIdPath p)
        (or_default (s_metaDataJson p) (Js.Obj [])) None w
  | Some id =>
      putVersion env (signAddon_client env p baseUrl) (s_xpiPath p)
        (s_channel p) (Js.Str id)
        (or_default (s_metaDataJson p) (Js.Obj [])) w
  end.
Proof.
  intros S U. unfold signAddon, bind, try_catch, lift, ret.
  rewrite S, U. simpl. destruct (s_id p); reflexivity.
Qed.



(** ** Effects only accumulate *)

Lemma extends_refl w : extends w w.
Proof. exists []. symmetry. apply app_nil_r. Qed.

Lemma extends_trans w1 w2 w3 : extends w1 w2 -> extends w2 w3 -> extends w1 w3.
Proof.
  intros [es1 E1] [es2 E2]. exists (es1 ++ es2)%list.
  rewrite E2, E1, app_assoc. reflexivity.
Qed.

Lemma appends_ret {A} (a : A) : appends (ret a).
Proof. intros w. apply extends_refl. Qed.

Lemma appends_throw {A} e : appends (@throw A e).
Proof. intros w. apply extends_refl. Qed.

Lemma appends_lift {A} (o : Js.outcome A) : appends (lift o).
Proof. intros w. apply extends_refl. Qed.

Lemma appends_emit e : appends (emit e).
Proof. intros w. exists [e]. reflexivity. Qed.

Lemma appends_bind {A B} (m : M A) (k : A -> M B) :
  appends m -> (forall a, appends (k a)) -> appends (bind m k).
Proof.
  intros Hm Hk w. unfold bind. specialize (Hm w).
  destruct (m w) as [[a|e|] w1]; simpl in *; try exact Hm.
  eapply extends_trans; [exact Hm|apply Hk].
Qed.

Lemma appends_try_catch {A} (m : M A) (h : Js.error -> M A) :
  appends m -> (forall e, appends (h e)) -> appends (try_catch m h).
Proof.
  intros Hm Hh w. unfold try_catch. specialize (Hm w).
  destruct (m w) as [[a|e|] w1]; simpl in *; try exact Hm.
  eapply extends_trans; [exact Hm|apply Hh].
Qed.

Ltac appends :=
  repeat match goal with
         | |- appends (bind _ _) => apply appends_bind; [|intro]
         | |- appends (try_catch _ _) => apply appends_try_catch; [|intro]
         | |- appends (ret _) => apply appends_ret
         | |- appends (throw _) => apply appends_throw
         | |- appends (lift _) => apply appends_lift
         | |- appends (emit _) => apply appends_emit
         | |- appends (log_info _ _) => apply appends_emit
         | |- appends (log_debug _) => apply appends_emit
         end.

Section Accumulating.

Variable env : Env.
Variable this : Client.

Lemma appends_fetch_send url method body :
  appends (fetch_send env this url method body).
Proof.
  unfold fetch_send. appends.
  - intros w. apply extends_refl.
  - intros w. unfold nodeFetch_send.
    match goal with
    | |- context [network env ?n ?r] => destruct (network env n r)
    end. simpl. eexists. reflexivity.
Qed.

Lemma appends_await_response x : appends (await_response x).
Proof. intros w. exists []. simpl. symmetry. apply app_nil_r. Qed.

Lemma appends_fetch url method body : appends (fetch env this url method body).
Proof.
  unfold fetch. appends; [apply appends_fetch_send|apply appends_await_response].
Qed.

Lemma appends_fetchJson_resume errorMsg response :
  appends (fetchJson_resume errorMsg response).
Proof.
  unfold fetchJson_resume.
  destruct ((status response <? 200) || (status response >=? 500)); appends.
  destruct (ok response); simpl; appends.
Qed.

Lemma appends_fetchJson url method body errorMsg :
  appends (fetchJson env this url method body errorMsg).
Proof.
  unfold fetchJson. appends;
    [apply appends_fetch|apply appends_fetchJson_resume].
Qed.

Lemma appends_validation_successFunc d : appends (validation_successFunc d).
Proof.
  unfold validation_successFunc. appends.
  destruct (negb (Js.truthy a)); appends.
  destruct (Js.truthy a2); appends.
Qed.

Lemma appends_approval_successFunc d : appends (approval_successFunc d).
Proof.
  unfold approval_successFunc. appends.
  destruct (Js.truthy a); appends.
  destruct a0; appends. destruct (String.eqb s "public"); appends.
Qed.

Section Loop.

Variable successFunc : Js.value -> M Js.value.
Variable checkUrl : Url.t.
Variables checkInterval abortInterval : Z.
Variable context : string.
Hypothesis appends_successFunc : forall d, appends (successFunc d).

Lemma appends_poll_result x : appends (poll_result successFunc x).
Proof.
  unfold poll_result. appends;
    [apply appends_await_response|apply appends_fetchJson_resume
     |apply appends_successFunc].
Qed.

Lemma fire_extends ev s s' :
  fire env this successFunc checkUrl checkInterval context ev s = Some s' ->
  extends (world s) (world s').
Proof.
  intros F. destruct ev; simpl in F.
  - destruct (abortTimeout s) as [t|]; [|discriminate]. injection F as <-.
    unfold abort_callback, reject, settle, clearTimeout_check,
      clearTimeout_abort, with_world. simpl.
    destruct (promise s); exists []; simpl; symmetry; apply app_nil_r.
  - destruct (checkTimeout s) as [t|]; [|discriminate]. injection F as <-.
    unfold pollStatus. cbn [world with_world].
    pose proof (appends_fetch_send checkUrl (Some "GET") NoBody
                  (resume_at t (world s))) as E.
    destruct (fetch_send env this checkUrl (Some "GET") NoBody
                (resume_at t (world s))) as [[x|e|] w1];
      unfold pollStatus_catch, reject, settle, clearTimeout_abort,
        set_in_flight, with_world; simpl in *;
      try destruct (promise s); exact E.
  - destruct (in_flight s) as [x|]; [|discriminate]. injection F as <-.
    unfold pollStatus_resume. cbn [world set_in_flight].
    pose proof (appends_poll_result x (world s)) as E.
    destruct (poll_result successFunc x (world s)) as [[v|e|] w1];
      [destruct (Js.truthy v)| |];
      unfold pollStatus_catch, resolve, reject, settle, clearTimeout_abort,
        set_in_flight, set_checkTimeout, with_world; simpl in *;
      try destruct (promise s); exact E.
Qed.

Lemma run_until_settled_extends n s :
  extends (world s)
    (world (run_until_settled env this successFunc checkUrl checkInterval
              context n s)).
Proof.
  revert s. induction n as [|n IH]; intros s; simpl.
  - destruct (promise s); apply extends_refl.
  - destruct (promise s); [apply extends_refl|].
    unfold turn. destruct (next_event s) as [ev|]; [|apply extends_refl].
    destruct (fire env this successFunc checkUrl checkInterval context ev s)
      as [s'|] eqn:F; [|apply extends_refl].
    eapply extends_trans; [eapply fire_extends, F|apply IH].
Qed.

Lemma appends_waitRetry :
  appends (waitRetry env this successFunc checkUrl checkInterval abortInterval
             context).
Proof.
  intros w. unfold waitRetry. simpl.
  eapply extends_trans; [|apply run_until_settled_extends].
  unfold waitRetry_start, pollStatus. cbn [world].
  pose proof (appends_fetch_send checkUrl (Some "GET") NoBody w) as E.
  destruct (fetch_send env this checkUrl (Some "GET") NoBody w)
    as [[x|e|] w1]; exact E.
Qed.

End Loop.

Lemma appends_waitForApproval addonId versionId :
  appends (waitForApproval env this addonId versionId).
Proof.
  unfold waitForApproval. appends.
  apply appends_waitRetry, appends_approval_successFunc.
Qed.

Lemma appends_downloadSignedFile fileUrl addonId :
  appends (downloadSignedFile env this fileUrl addonId).
Proof.
  unfold downloadSignedFile, saveToFile. appends.
  - apply appends_fetch.
  - destruct (ok a); appends. destruct (stream a); appends.
Qed.

(** What follows the creation or the update of the record: approval
    polling, then the download. *)
Lemma appends_approve_and_download addonId versionId :
  appends (approved <- waitForApproval env this addonId versionId ;;
           fileUrl <- lift (Url.parse (Js.to_string approved)) ;;
           downloadSignedFile env this fileUrl addonId).
Proof.
  appends; [apply appends_waitForApproval|apply appends_downloadSignedFile].
Qed.

End Accumulating.

(** ** Resolving references *)

Lemma concat_split c s :
  String.concat (String c EmptyString) (Url.split c s) = s.
Proof.
  induction s as [|a s IH]; simpl; [reflexivity|].
  destruct (Ascii.eqb a c) eqn:E.
  - apply Ascii.eqb_eq in E. subst a.
    pose proof (split_nonempty c s) as N.
    destruct (Url.split c s) as [|x xs] eqn:S; [contradiction|].
    simpl in *. rewrite IH. reflexivity.
  - pose proof (split_nonempty c s) as N.
    destruct (Url.split c s) as [|x xs] eqn:S; [contradiction|].
    simpl in *. destruct xs; simpl in *; rewrite <- IH; reflexivity.
Qed.

Lemma ends_with_slash_split p :
  Url.ends_with_slash p = true -> exists q, p = q ++ "/".
Proof.
  induction p as [|a p IH]; simpl; [discriminate|].
  destruct p as [|b p].
  - intros E. apply Ascii.eqb_eq in E. subst a. exists EmptyString. reflexivity.
  - intros E. destruct (IH E) as [q Q]. exists (String a q). simpl.
    rewrite <- Q. reflexivity.
Qed.

Lemma append_assoc (a b c : string) : (a ++ b) ++ c = a ++ b ++ c.
Proof. induction a as [|x a IH]; simpl; [reflexivity|rewrite IH; reflexivity]. Qed.

Lemma concat_app sep (l l' : list string) :
  l <> [] -> l' <> [] ->
  String.concat sep (l ++ l') = String.concat sep l ++ sep ++ String.concat sep l'.
Proof.
  intros N N'. induction l as [|x l IH]; [contradiction|].
  destruct l as [|y l].
  - simpl. destruct l'; [contradiction|reflexivity].
  - change (String.concat sep ((x :: y :: l) ++ l'))
      with (x ++ sep ++ String.concat sep ((y :: l) ++ l')).
    rewrite IH by discriminate.
    change (String.concat sep (x :: y :: l))
      with (x ++ sep ++ String.concat sep (y :: l)).
    rewrite !append_assoc. reflexivity.
Qed.

(** A relative path is resolved in the directory of the base. *)
Lemma resolve_in_directory rel segs query o q s0 :
  Url.reference_of rel = Url.PathRelative segs query ->
  Url.resolve rel {| Url.origin := o; Url.pathname := q ++ "/";
                     Url.search := s0 |}
  = {| Url.origin := o;
       Url.pathname := String.concat "/" (Url.walk (Url.split "/" q) segs);
       Url.search := query |}.
Proof.
  intros R. unfold Url.resolve. rewrite R. cbn [Url.origin Url.pathname].
  change (q ++ "/") with (q ++ String "/" EmptyString).
  rewrite split_app. cbn [Url.split]. rewrite removelast_last. reflexivity.
Qed.

Lemma concat_in_directory q l :
  l <> [] ->
  String.concat "/" (Url.split "/" q ++ l) = q ++ "/" ++ String.concat "/" l.
Proof.
  intros N. rewrite concat_app by (apply split_nonempty || exact N).
  change "/" with (String "/"%char EmptyString) at 1.
  rewrite concat_split. reflexivity.
Qed.

Lemma resolve_addons o q s0 :
  Url.resolve "addons/" {| Url.origin := o; Url.pathname := q ++ "/";
                           Url.search := s0 |}
  = {| Url.origin := o; Url.pathname := (q ++ "/") ++ "addons/";
       Url.search := EmptyString |}.
Proof.
  rewrite (resolve_in_directory "addons/" ["addons"; EmptyString]
             EmptyString o q s0 eq_refl).
  change (Url.walk (Url.split "/" q) ["addons"; EmptyString])
    with ((Url.split "/" q ++ ["addons"]) ++ [EmptyString])%list.
  rewrite <- app_assoc. rewrite concat_in_directory by discriminate.
  rewrite append_assoc. reflexivity.
Qed.

(** The API root of the client that [signAddon] constructs. *)
Lemma signAddon_client_apiUrl env p baseUrl :
  apiUrl (signAddon_client env p baseUrl)
  = {| Url.origin := Url.origin baseUrl;
       Url.pathname := (with_slash (Url.pathname baseUrl) ++ "addons") ++ "/";
       Url.search := EmptyString |}.
Proof.
  rewrite append_assoc. change ("addons" ++ "/") with "addons/".
  unfold signAddon_client, Client_new, with_slash.
  cbn [apiUrl p_baseUrl].
  destruct (Url.ends_with_slash (Url.pathname baseUrl)) eqn:E; cbn [negb].
  - destruct (ends_with_slash_split _ E) as [q Q].
    destruct baseUrl as [o pn s0]. cbn [Url.pathname Url.origin] in *.
    subst pn. apply resolve_addons.
  - apply resolve_addons.
Qed.

Lemma all_app p s t : Url.all p (s ++ t) = Url.all p s && Url.all p t.
Proof.
  induction s as [|c s IH]; simpl; [reflexivity|].
  rewrite IH. apply andb_assoc.
Qed.

Lemma all_impl (p q : ascii -> bool) s :
  (forall c, p c = true -> q c = true) ->
  Url.all p s = true -> Url.all q s = true.
Proof.
  intros I. induction s as [|c s IH]; simpl; [reflexivity|].
  intros H. apply andb_true_iff in H. destruct H as [H1 H2].
  rewrite (I c H1), (IH H2). reflexivity.
Qed.

(** What a plain character is not. *)
Lemma plain_character c :
  Url.plain c = true ->
  Url.one_of [9; 10; 13]%nat c = false
  /\ Url.one_of [35]%nat c = false
  /\ Url.one_of [63]%nat c = false
  /\ Url.forward c = c
  /\ Ascii.eqb c "/" = false
  /\ Ascii.eqb c "%" = false.
Proof.
  destruct c as [b0 b1 b2 b3 b4 b5 b6 b7].
  destruct b0, b1, b2, b3, b4, b5, b6, b7; vm_compute;
    intros H; try discriminate H; repeat split.
Qed.

Lemma remove_app p s t :
  Url.remove p (s ++ t) = Url.remove p s ++ Url.remove p t.
Proof.
  induction s as [|c s IH]; simpl; [reflexivity|].
  rewrite IH. destruct (p c); reflexivity.
Qed.

Lemma remove_none p s :
  Url.all (fun c => negb (p c)) s = true -> Url.remove p s = s.
Proof.
  induction s as [|c s IH]; simpl; [reflexivity|].
  intros H. apply andb_true_iff in H. destruct H as [H1 H2].
  apply negb_true_iff in H1. rewrite H1, (IH H2). reflexivity.
Qed.

Lemma drop_trailing_app p s t :
  t <> EmptyString -> Url.drop_trailing p t = t ->
  Url.drop_trailing p (s ++ t) = s ++ t.
Proof.
  intros N T. induction s as [|c s IH]; [exact T|].
  simpl. rewrite IH. destruct (s ++ t) eqn:E; [|reflexivity].
  destruct s; simpl in E; [contradiction|discriminate].
Qed.

Lemma span_until_app stop s t :
  Url.all (fun c => negb (stop c)) s = true ->
  Url.span_until stop (s ++ t)
  = (s ++ fst (Url.span_until stop t), snd (Url.span_until stop t)).
Proof.
  induction s as [|c s IH]; simpl.
  - intros _. destruct (Url.span_until stop t); reflexivity.
  - intros H. apply andb_true_iff in H. destruct H as [H1 H2].
    apply negb_true_iff in H1. rewrite H1, (IH H2). reflexivity.
Qed.

Lemma map_chars_app f s t :
  Url.map_chars f (s ++ t) = Url.map_chars f s ++ Url.map_chars f t.
Proof.
  induction s as [|c s IH]; simpl; [reflexivity|rewrite IH; reflexivity].
Qed.

Lemma map_chars_fixed f s :
  Url.all (fun c => Ascii.eqb (f c) c) s = true -> Url.map_chars f s = s.
Proof.
  induction s as [|c s IH]; simpl; [reflexivity|].
  intros H. apply andb_true_iff in H. destruct H as [H1 H2].
  apply Ascii.eqb_eq in H1. rewrite H1, (IH H2). reflexivity.
Qed.

Lemma split_none c s :
  Url.all (fun a => negb (Ascii.eqb a c)) s = true -> Url.split c s = [s].
Proof.
  induction s as [|a s IH]; simpl; [reflexivity|].
  intros H. apply andb_true_iff in H. destruct H as [H1 H2].
  apply negb_true_iff in H1. rewrite H1, (IH H2). reflexivity.
Qed.

Section Segment.

Variable id : string.
Hypothesis id_segment : Url.segment id = true.

Lemma segment_plain : Url.all Url.plain id = true.
Proof.
  unfold Url.segment in id_segment.
  apply andb_true_iff in id_segment. destruct id_segment as [H _].
  apply andb_true_iff in H. apply H.
Qed.

Lemma segment_without (p : ascii -> bool) :
  (forall c, Url.plain c = true -> p c = false) ->
  Url.all (fun c => negb (p c)) id = true.
Proof.
  intros H. apply (all_impl Url.plain); [|exact segment_plain].
  intros c P. rewrite (H c P). reflexivity.
Qed.

(** A segment is not a dot segment, however it is spelled. *)
Lemma segment_no_dots : Url.double_dot id = false /\ Url.single_dot id = false.
Proof.
  pose proof segment_plain as P.
  unfold Url.segment in id_segment.
  apply andb_true_iff in id_segment. destruct id_segment as [H D2].
  apply andb_true_iff in H. destruct H as [_ D1].
  apply negb_true_iff in D1, D2.
  assert (N : forall lit, Url.all Url.plain lit = false ->
                          String.eqb id lit = false).
  { intros lit L. destruct (String.eqb id lit) eqn:E; [|reflexivity].
    apply String.eqb_eq in E. subst lit. congruence. }
  unfold Url.double_dot, Url.single_dot, existsb.
  rewrite D1, D2, !N by reflexivity. split; reflexivity.
Qed.

Lemma clean_reference a b :
  Url.drop_leading (Url.between 0 32) (a ++ id ++ b) = a ++ id ++ b ->
  b <> EmptyString -> Url.drop_trailing (Url.between 0 32) b = b ->
  Url.remove (Url.one_of [9; 10; 13]%nat) a = a ->
  Url.remove (Url.one_of [9; 10; 13]%nat) b = b ->
  Url.clean (a ++ id ++ b) = a ++ id ++ b.
Proof.
  intros L N T A B. unfold Url.clean. rewrite L.
  rewrite <- (append_assoc a id b).
  rewrite drop_trailing_app by assumption.
  rewrite !remove_app, A, B, remove_none; [reflexivity|].
  apply segment_without. intros c P. apply (plain_character c P).
Qed.

(** The reference of the record: three segments and no query. *)
Lemma reference_of_record :
  Url.reference_of ("addon/" ++ id ++ "/")
  = Url.PathRelative ["addon"; id; EmptyString] EmptyString.
Proof.
  unfold Url.reference_of.
  rewrite (clean_reference "addon/" "/") by (reflexivity || discriminate).
  assert (H : Url.span_until (Url.one_of [35]%nat) ("addon/" ++ id ++ "/")
              = ("addon/" ++ id ++ "/", EmptyString)).
  { rewrite <- (append_assoc "addon/" id "/"), span_until_app.
    - rewrite append_assoc. reflexivity.
    - rewrite all_app. apply andb_true_iff. split; [reflexivity|].
      apply segment_without. intros c P. apply (plain_character c P). }
  rewrite H. clear H.
  assert (H : Url.span_until (Url.one_of [63]%nat) ("addon/" ++ id ++ "/")
              = ("addon/" ++ id ++ "/", EmptyString)).
  { rewrite <- (append_assoc "addon/" id "/"), span_until_app.
    - rewrite append_assoc. reflexivity.
    - rewrite all_app. apply andb_true_iff. split; [reflexivity|].
      apply segment_without. intros c P. apply (plain_character c P). }
  rewrite H. clear H.
  change ("addon/" ++ id ++ "/") with (String "a" ("ddon/" ++ id ++ "/")).
  cbv beta iota. change (Url.is_slash "a") with false. cbv iota.
  change (String "a" ("ddon/" ++ id ++ "/")) with ("addon/" ++ id ++ "/").
  unfold Url.segments.
  rewrite <- (append_assoc "addon/" id "/"), map_chars_app.
  rewrite (map_chars_app _ "addon/" id), (map_chars_fixed _ id).
  2: { apply (all_impl Url.plain); [|exact segment_plain].
       intros c P. apply Ascii.eqb_eq, (plain_character c P). }
  change (Url.map_chars Url.forward "addon/")
    with ("addon" ++ String "/" EmptyString).
  change (Url.map_chars Url.forward "/") with (String "/" EmptyString).
  rewrite split_app.
  change (("addon" ++ String "/" EmptyString) ++ id)
    with ("addon" ++ String "/" id).
  rewrite split_app.
  rewrite (split_none "/" id).
  2: { apply segment_without. intros c P. apply (plain_character c P). }
  reflexivity.
Qed.

(** The reference of the version listing: four segments and the filter. *)
Lemma reference_of_listing :
  Url.reference_of ("addon/" ++ id ++ "/versions/?filter=all_with_unlisted")
  = Url.PathRelative ["addon"; id; "versions"; EmptyString]
      "?filter=all_with_unlisted".
Proof.
  unfold Url.reference_of.
  rewrite (clean_reference "addon/" "/versions/?filter=all_with_unlisted")
    by (reflexivity || discriminate).
  assert (H : Url.span_until (Url.one_of [35]%nat)
                ("addon/" ++ id ++ "/versions/?filter=all_with_unlisted")
              = ("addon/" ++ id ++ "/versions/?filter=all_with_unlisted",
                 EmptyString)).
  { rewrite <- (append_assoc "addon/" id), span_until_app.
    - rewrite append_assoc. reflexivity.
    - rewrite all_app. apply andb_true_iff. split; [reflexivity|].
      apply segment_without. intros c P. apply (plain_character c P). }
  rewrite H. clear H.
  assert (H : Url.span_until (Url.one_of [63]%nat)
                ("addon/" ++ id ++ "/versions/?filter=all_with_unlisted")
              = ("addon/" ++ id ++ "/versions/", "?filter=all_with_unlisted")).
  { rewrite <- (append_assoc "addon/" id), span_until_app.
    - rewrite append_assoc. reflexivity.
    - rewrite all_app. apply andb_true_iff. split; [reflexivity|].
      apply segment_without. intros c P. apply (plain_character c P). }
  rewrite H. clear H.
  change ("addon/" ++ id ++ "/versions/")
    with (String "a" ("ddon/" ++ id ++ "/versions/")).
  cbv beta iota. change (Url.is_slash "a") with false. cbv iota.
  change (String "a" ("ddon/" ++ id ++ "/versions/"))
    with ("addon/" ++ id ++ "/versions/").
  unfold Url.segments.
  rewrite <- (append_assoc "addon/" id), map_chars_app.
  rewrite (map_chars_app _ "addon/" id), (map_chars_fixed _ id).
  2: { apply (all_impl Url.plain); [|exact segment_plain].
       intros c P. apply Ascii.eqb_eq, (plain_character c P). }
  change (Url.map_chars Url.forward "addon/")
    with ("addon" ++ String "/" EmptyString).
  change (Url.map_chars Url.forward "/versions/")
    with (String "/" ("versions" ++ String "/" EmptyString)).
  rewrite split_app.
  change (("addon" ++ String "/" EmptyString) ++ id)
    with ("addon" ++ String "/" id).
  rewrite split_app.
  rewrite (split_none "/" id).
  2: { apply segment_without. intros c P. apply (plain_character c P). }
  reflexivity.
Qed.

(** Resolved in a directory, the two references are the directory followed
    by [addon/], the id percent-encoded, and the rest. *)
Lemma resolve_record o q s0 :
  Url.resolve ("addon/" ++ id ++ "/")
    {| Url.origin := o; Url.pathname := q ++ "/"; Url.search := s0 |}
  = {| Url.origin := o;
       Url.pathname := q ++ "/addon/" ++ Url.percent_encode Url.path_set id
                       ++ "/";
       Url.search := EmptyString |}.
Proof.
  rewrite (resolve_in_directory _ _ _ o q s0 reference_of_record).
  destruct segment_no_dots as [D2 D1].
  assert (W : Url.walk (Url.split "/" q) ["addon"; id; EmptyString]
              = (Url.split "/" q
                 ++ ["addon"; Url.percent_encode Url.path_set id;
                     EmptyString])%list).
  { cbn [Url.walk]. rewrite D2, D1.
    change (Url.double_dot "addon") with false.
    change (Url.single_dot "addon") with false.
    change (Url.double_dot EmptyString) with false.
    change (Url.single_dot EmptyString) with false.
    change (Url.percent_encode Url.path_set "addon") with "addon".
    change (Url.percent_encode Url.path_set EmptyString) with EmptyString.
    cbv iota. rewrite <- !app_assoc. reflexivity. }
  rewrite W, concat_in_directory by discriminate. reflexivity.
Qed.

Lemma resolve_listing o q s0 :
  Url.resolve ("addon/" ++ id ++ "/versions/?filter=all_with_unlisted")
    {| Url.origin := o; Url.pathname := q ++ "/"; Url.search := s0 |}
  = {| Url.origin := o;
       Url.pathname := q ++ "/addon/" ++ Url.percent_encode Url.path_set id
                       ++ "/versions/";
       Url.search := "?filter=all_with_unlisted" |}.
Proof.
  rewrite (resolve_in_directory _ _ _ o q s0 reference_of_listing).
  destruct segment_no_dots as [D2 D1].
  assert (W : Url.walk (Url.split "/" q)
                ["addon"; id; "versions"; EmptyString]
              = (Url.split "/" q
                 ++ ["addon"; Url.percent_encode Url.path_set id;
                     "versions"; EmptyString])%list).
  { cbn [Url.walk]. rewrite D2, D1.
    change (Url.double_dot "addon") with false.
    change (Url.single_dot "addon") with false.
    change (Url.double_dot "versions") with false.
    change (Url.single_dot "versions") with false.
    change (Url.double_dot EmptyString) with false.
    change (Url.single_dot EmptyString) with false.
    change (Url.percent_encode Url.path_set "addon") with "addon".
    change (Url.percent_encode Url.path_set "versions") with "versions".
    change (Url.percent_encode Url.path_set EmptyString) with EmptyString.
    cbv iota. rewrite <- !app_assoc. reflexivity. }
  rewrite W, concat_in_directory by discriminate. reflexivity.
Qed.

End Segment.

(** ** The create path and the update path *)

Lemma saveIdToFile_run env filePath id w :
  id <> Js.Null -> id <> Js.Undefined ->
  writeFile env filePath (id_file_text id) = Js.Returned tt ->
  saveIdToFile env filePath id w
  = (Js.Returned tt,
     and_then w [WroteFile filePath (id_file_text id);
                 Debug ("Saved auto-generated ID " ++ Js.to_string id
                        ++ " to " ++ filePath)]).
Proof.
  intros N U W. unfold saveIdToFile, bind, lift, emit, log_debug, and_then.
  assert (T : toString id = Js.Returned (Js.to_string id))
    by (destruct id; try reflexivity; contradiction).
  rewrite T. fold (id_file_text id). cbv beta iota. rewrite W.
  unfold emit. cbn [effects clock calls]. rewrite <- app_assoc. reflexivity.
Qed.

Lemma doNewAddonSubmit_sent env this uuid metaDataJson w r w' :
  doNewAddonSubmit env this uuid metaDataJson w = (Js.Returned r, w') ->
  exists data authorization,
    jsonData uuid metaDataJson = Js.Returned data
    /\ sent (effects w')
       = (sent (effects w)
          ++ [request_with this (Url.resolve "addon/" (apiUrl this))
                (Some "POST") (JsonString data) authorization])%list.
Proof.
  unfold doNewAddonSubmit, bind, lift.
  destruct (jsonData uuid metaDataJson) as [data| |]; try discriminate.
  intros H. apply fetchJson_returned_sent in H. destruct H as [a H].
  exists data, a. split; [reflexivity|exact H].
Qed.

Lemma doNewAddonOrVersionSubmit_sent env this addonId uuid metaDataJson w
    response w' :
  doNewAddonOrVersionSubmit env this addonId uuid metaDataJson w
  = (Js.Returned response, w') ->
  exists data authorization,
    jsonData uuid metaDataJson = Js.Returned data
    /\ sent (effects w')
       = (sent (effects w)
          ++ [request_with this
                (Url.resolve ("addon/" ++ Js.to_string addonId ++ "/")
                   (apiUrl this))
                (Some "PUT") (JsonString data) authorization])%list.
Proof.
  unfold doNewAddonOrVersionSubmit, bind, lift.
  destruct (jsonData uuid metaDataJson) as [data| |]; try discriminate.
  intros H. apply fetch_returned_sent in H. destruct H as [a H].
  exists data, a. split; [reflexivity|exact H].
Qed.


(** What both submissions send for metadata [m]: the properties of [m]
    with a [version] of its own. *)
Lemma jsonData_merged uuid m data :
  jsonData uuid m = Js.Returned data ->
  let version := Js.own_props (field m "version") in
  exists sent_body sent_version,
    data = Js.Obj sent_body
    /\ Js.lookup "version" sent_body = Some (Js.Obj sent_version)
    /\ (forall k, k <> "version" ->
                  Js.lookup k sent_body = Js.lookup k (Js.own_props m))
    /\ (forall k, k <> "upload" ->
                  Js.lookup k sent_version = Js.lookup k version)
    /\ (Js.has "upload" version = false ->
        Js.lookup "upload" sent_version = Some uuid)
    /\ (forall x, Js.lookup "upload" version = Some x ->
                  Js.lookup "upload" sent_version = Some x).
Proof.
  intros J version. subst version. unfold jsonData in J.
  assert (G : Js.get m "version" = Js.Returned (field m "version")).
  { destruct m; try discriminate J; reflexivity. }
  rewrite G in J. injection J as <-.
  eexists. eexists. split; [reflexivity|].
  split; [apply lookup_set_same|].
  split.
  { intros k K. rewrite lookup_set_other by exact K.
    rewrite lookup_spread. simpl.
    destruct (Js.lookup k (Js.own_props m)); reflexivity. }
  split.
  { intros k K. rewrite lookup_spread.
    destruct (Js.lookup k (Js.own_props (field m "version"))); [reflexivity|].
    simpl. destruct (String.eqb k "upload") eqn:E; [|reflexivity].
    apply String.eqb_eq in E. contradiction. }
  split.
  { unfold Js.has. intros H. rewrite lookup_spread.
    destruct (Js.lookup "upload" (Js.own_props (field m "version")));
      [discriminate|reflexivity]. }
  { intros x H. rewrite lookup_spread, H. reflexivity. }
Qed.





(** ** The polling loop *)

Section Polling.

Variable env : Env.
Variable this : Client.
Variable successFunc : Js.value -> M Js.value.
Variable checkUrl : Url.t.
Variables checkInterval abortInterval : Z.
Variable context : string.

#[local] Abbreviation fires :=
  (fire env this successFunc checkUrl checkInterval context).
#[local] Abbreviation reached :=
  (reachable env this successFunc checkUrl checkInterval abortInterval context).
#[local] Abbreviation poll := (pollStatus env this checkUrl).
#[local] Abbreviation yields := (poll_result successFunc).

Ltac loop_unfold :=
  unfold pollStatus, pollStatus_resume, pollStatus_catch,
    abort_callback, resolve, reject, settle, set_in_flight, set_checkTimeout,
    clearTimeout_abort, clearTimeout_check, with_world, quiescent in *.

Ltac loop_solve :=
  repeat match goal with
         | |- _ /\ _ => split
         | |- _ <-> _ => split
         | |- forall _, _ => intro
         | H : _ /\ _ |- _ => destruct H
         | H : Some _ = None |- _ => discriminate H
         | H : None = Some _ |- _ => discriminate H
         | H : Some _ = Some _ |- _ => injection H as H; try subst
         | H : ?a <> ?a |- _ => contradiction H; reflexivity
         | |- Some _ <> None => discriminate
         | |- None = None => reflexivity
         | |- None = None \/ _ => left; reflexivity
         | |- _ \/ None = None => right; reflexivity
         end; simpl in *; try congruence; auto.

Lemma pollStatus_invariant s :
  in_flight s = None -> checkTimeout s = None ->
  (forall v, promise s <> Some (Js.Returned v)) ->
  loop_invariant s -> loop_invariant (poll s).
Proof.
  intros F C R (I1 & I2 & I3). unfold loop_invariant in *. loop_unfold.
  destruct (fetch_send env this checkUrl (Some "GET") NoBody (world s))
    as [[x|e|] w]; simpl; destruct (promise s) eqn:P; simpl; loop_solve.
  all: try (apply I2; congruence).
  all: try (exfalso; eapply R; reflexivity).
Qed.

Lemma start_invariant w :
  loop_invariant
    (waitRetry_start env this checkUrl abortInterval w).
Proof.
  apply pollStatus_invariant; try reflexivity; try discriminate.
  unfold loop_invariant, quiescent. simpl. loop_solve.
Qed.

Lemma fire_invariant ev s s' :
  loop_invariant s -> fires ev s = Some s' -> loop_invariant s'.
Proof.
  intros I F. destruct ev; simpl in F.
  - destruct (abortTimeout s) as [t|] eqn:A; [|discriminate].
    injection F as <-. destruct I as (I1 & I2 & I3).
    assert (P : promise s = None).
    { destruct (promise s); [|reflexivity].
      destruct I2 as [_ I2]. rewrite I2 in A; discriminate. }
    unfold loop_invariant. loop_unfold. simpl. rewrite P. simpl. loop_solve.
  - destruct (checkTimeout s) as [t|] eqn:C; [|discriminate].
    injection F as <-. destruct I as (I1 & I2 & I3).
    apply pollStatus_invariant; simpl; auto.
    + destruct I1; congruence.
    + intros v P. apply I3 in P. destruct P as (_ & P & _). congruence.
    + unfold loop_invariant, quiescent. simpl.
      split; [right; reflexivity|]. split; [exact I2|].
      intros v P. apply I3 in P. destruct P as (_ & P & _). congruence.
  - destruct (in_flight s) as [x|] eqn:X; [|discriminate].
    injection F as <-. destruct I as (I1 & I2 & I3).
    assert (C : checkTimeout s = None) by (destruct I1; congruence).
    assert (R : forall v, promise s <> Some (Js.Returned v)).
    { intros v P. apply I3 in P. destruct P as (_ & _ & P). congruence. }
    unfold loop_invariant. loop_unfold. simpl.
    destruct (yields x (world s)) as [[v|e|] w]; simpl;
      [destruct (Js.truthy v)| |]; simpl;
      destruct (promise s) eqn:P; simpl; loop_solve.
    all: try (apply I2; congruence).
    all: try (exfalso; eapply R; reflexivity).
Qed.

Lemma reachable_invariant w s : reached w s -> loop_invariant s.
Proof.
  induction 1 as [|ev s s' _ IH F]; [apply start_invariant|].
  eapply fire_invariant; eassumption.
Qed.

(** When nothing is pending, no event can run: the state is final. *)
Lemma quiescent_final s : quiescent s -> forall ev, fires ev s = None.
Proof.
  intros (A & C & X) ev. destruct ev; simpl; rewrite ?A, ?C, ?X; reflexivity.
Qed.

(** The [catch] block rejects a pending promise and leaves nothing
    pending. *)
Lemma pollStatus_catch_final err s :
  checkTimeout s = None -> in_flight s = None ->
  quiescent (pollStatus_catch err s)
  /\ (promise s = None -> promise (pollStatus_catch err s) = Some (Js.Threw err))
  /\ world (pollStatus_catch err s) = world s.
Proof.
  intros C X. loop_unfold. destruct (promise s); simpl; repeat split; auto;
    discriminate.
Qed.


(** A settled promise keeps its value, whatever runs later. *)
Lemma promise_settles_once ev s s' r :
  fires ev s = Some s' -> promise s = Some r -> promise s' = Some r.
Proof.
  intros F P. destruct ev; simpl in F.
  - destruct (abortTimeout s); [|discriminate]. injection F as <-.
    loop_unfold. simpl. rewrite P. simpl. congruence.
  - destruct (checkTimeout s); [|discriminate]. injection F as <-.
    loop_unfold. simpl.
    destruct (fetch_send env this checkUrl (Some "GET") NoBody
                (resume_at z (world s))) as [[x|e|] w1];
      simpl; rewrite ?P; simpl; congruence.
  - destruct (in_flight s) as [x|]; [|discriminate]. injection F as <-.
    unfold pollStatus_resume. cbn [world set_in_flight].
    destruct (yields x (world s)) as [[v|e|] w1];
      [destruct (Js.truthy v)| |]; loop_unfold; simpl; rewrite ?P; simpl;
      congruence.
Qed.

(** A delay that Node accepts is kept as it is. *)
Lemma timer_delay_in_range after :
  1 <= after <= TIMEOUT_MAX -> timer_delay after = after.
Proof.
  intros H. unfold timer_delay.
  replace ((1 <=? after) && (after <=? TIMEOUT_MAX)) with true; [reflexivity|].
  symmetry. apply andb_true_iff. split; apply Z.leb_le; lia.
Qed.

(** The abort timer does not stop a poll whose request is in flight: the
    promise is rejected with the timeout error, the request stays in flight,
    and when its answer is not a success the poll timer is set again. *)
Lemma abort_leaves_request_in_flight w s T x :
  reached w s -> abortTimeout s = Some T -> in_flight s = Some x ->
  let timeout := Js.Threw (Js.Error (context ++ ": timeout.")) in
  exists s1,
    fires AbortTimer s = Some s1
    /\ promise s1 = Some timeout
    /\ in_flight s1 = Some x
    /\ forall v w',
        yields x (world s1) = (Js.Returned v, w') -> Js.truthy v = false ->
        exists s2,
          fires ResponseArrived s1 = Some s2
          /\ promise s2 = Some timeout
          /\ checkTimeout s2 = Some (clock w' + timer_delay checkInterval).
Proof.
  intros R A X timeout. destruct (reachable_invariant w s R) as (_ & I2 & _).
  assert (P : promise s = None).
  { destruct (promise s) eqn:P; [|reflexivity].
    destruct I2 as [_ I2]. rewrite I2 in A; discriminate. }
  simpl. rewrite A. eexists. split; [reflexivity|].
  loop_unfold. simpl. rewrite P. simpl.
  split; [reflexivity|]. split; [exact X|].
  intros v w' Y F. rewrite X. eexists. split; [reflexivity|].
  unfold pollStatus_resume. simpl. loop_unfold. rewrite Y, F. simpl. auto.
Qed.

(** A poll that starts sends its request at once and awaits the answer. *)
Lemma pollStatus_sends s authorization :
  getAuthHeader (apiAuth this) (clock (world s)) = Js.Returned authorization ->
  let req := request_with this checkUrl (Some "GET") NoBody authorization in
  poll s
  = set_in_flight
      (Some (clock (world s) + Z.max 0 (fst (network env (calls (world s)) req)),
             snd (network env (calls (world s)) req)))
      (with_world
         {| clock := clock (world s);
            effects := effects (world s)
                       ++ [Info ("Fetching URL: " ++ Url.href checkUrl) [];
                           Sent (clock (world s)) req];
            calls := S (calls (world s)) |} s).
Proof.
  intros A req. unfold pollStatus.
  rewrite (fetch_send_run env this checkUrl (Some "GET") NoBody (world s)
             authorization A).
  reflexivity.
Qed.


End Polling.




(** C1, the defect: the abort timer fires at 20 ms while the first request,
    answered after 50 ms, is in flight.  The promise is rejected with the
    timeout error, and yet the answer, which is not a success, sets the poll
    timer, and requests go out at 60, 75, 90 and 105 ms. *)
Lemma waitRetry_polls_after_timeout :
  let env := Scenario.slow_server in
  let this := Scenario.client env None in
  let url := Scenario.status_url env in
  let state n :=
    run env this validation_successFunc url 10 "Validation" n
      (waitRetry_start env this url 20 Scenario.start) in
  waitRetry env this validation_successFunc url 10 20 "Validation" Scenario.start
  = (Js.Threw (Js.Error "Validation: timeout."), world (state 1%nat))
  /\ clock (world (state 1%nat)) = 20
  /\ sent_at (effects (world (state 1%nat))) = [0]
  /\ option_map fst (in_flight (state 1%nat)) = Some 50
  /\ checkTimeout (state 2%nat) = Some 60
  /\ promise (state 9%nat) = Some (Js.Threw (Js.Error "Validation: timeout."))
  /\ sent_at (effects (world (state 9%nat))) = [0; 60; 75; 90; 105].
Proof.
  intros env this url state. repeat split; vm_compute; reflexivity.
Qed.

(** ** The loop settles *)

Section Settling.

Variable env : Env.
Variable this : Client.
Variable successFunc : Js.value -> M Js.value.
Variable checkUrl : Url.t.
Variables checkInterval abortInterval : Z.
Variable context : string.

(** The predicate takes no time. *)
Hypothesis successFunc_clock :
  forall d w, clock (snd (successFunc d w)) = clock w.

#[local] Abbreviation turns :=
  (turn env this successFunc checkUrl checkInterval context).

Lemma timer_delay_positive after : 1 <= timer_delay after.
Proof.
  unfold timer_delay.
  destruct ((1 <=? after) && (after <=? TIMEOUT_MAX)) eqn:E; [|lia].
  apply andb_true_iff in E. lia.
Qed.

Lemma fetchJson_resume_clock errorMsg response w :
  clock (snd (fetchJson_resume errorMsg response w)) = clock w.
Proof.
  unfold fetchJson_resume, bind, lift, throw, ret, log_info, emit.
  destruct ((status response <? 200) || (status response >=? 500));
    [reflexivity|].
  destruct (json response); simpl; try reflexivity.
  destruct (ok response); reflexivity.
Qed.

Lemma poll_result_clock x w :
  clock (snd (poll_result successFunc x w)) = Z.max (clock w) (fst x).
Proof.
  unfold poll_result, bind, await_response. destruct x as [t [r|e|]]; simpl;
    try reflexivity.
  pose proof (fetchJson_resume_clock "Getting details failed." r (resume_at t w)) as F.
  destruct (fetchJson_resume "Getting details failed." r (resume_at t w))
    as [[d|e|] w1]; simpl in *; try exact F.
  rewrite successFunc_clock. exact F.
Qed.

Lemma fetch_send_clock url method body w :
  clock (snd (fetch_send env this url method body w)) = clock w.
Proof.
  unfold fetch_send, bind, log_info, emit, now, lift, nodeFetch_send. simpl.
  destruct (getAuthHeader (apiAuth this) (clock w)); simpl; try reflexivity.
  match goal with
  | |- context [network env ?n ?r] => destruct (network env n r)
  end. reflexivity.
Qed.

Lemma fetch_send_arrival url method body w x w' :
  fetch_send env this url method body w = (Js.Returned x, w') ->
  clock w <= fst x.
Proof.
  unfold fetch_send, bind, log_info, emit, now, lift, nodeFetch_send. simpl.
  destruct (getAuthHeader (apiAuth this) (clock w)); simpl; try discriminate.
  match goal with
  | |- context [network env ?n ?r] => destruct (network env n r)
  end.
  intros H. injection H as <- _. simpl. lia.
Qed.

Lemma next_event_cases s T :
  abortTimeout s = Some T ->
  in_flight s = None \/ checkTimeout s = None ->
  next_event s
  = match in_flight s, checkTimeout s with
    | Some x, _ => if fst x <? T then Some ResponseArrived else Some AbortTimer
    | None, Some c => if c <? T then Some CheckTimer else Some AbortTimer
    | None, None => Some AbortTimer
    end.
Proof.
  intros A I. unfold next_event, earlier, due. simpl. rewrite A.
  destruct (in_flight s) as [x|], (checkTimeout s) as [c|]; simpl;
    try (destruct I; discriminate); rewrite ?A; simpl.
  - destruct (fst x <? T); reflexivity.
  - destruct (c <? T); reflexivity.
  - reflexivity.
Qed.

Lemma turn_progress s :
  loop_invariant s -> on_time s -> promise s = None ->
  exists s',
    turns s = Some s'
    /\ on_time s'
    /\ (promise s' <> None \/ turns_left s' < turns_left s).
Proof.
  intros (I1 & I2 & I3) (O1 & O2 & O3) P.
  destruct (abortTimeout s) as [T|] eqn:A;
    [|exfalso; apply I2; [reflexivity|exact P]].
  specialize (O1 T eq_refl).
  unfold turn. rewrite (next_event_cases s T A I1).
  destruct (in_flight s) as [x|] eqn:X.
  - assert (C : checkTimeout s = None) by (destruct I1; congruence).
    specialize (O2 x eq_refl).
    destruct (fst x <? T) eqn:L.
    + pose proof L as Lb. apply Z.ltb_lt in L. simpl. rewrite X. eexists. split; [reflexivity|].
      unfold pollStatus_resume. cbn [world set_in_flight].
      pose proof (poll_result_clock x (world s)) as K.
      destruct (poll_result successFunc x (world s)) as [[v|e|] w1];
        simpl in K.
      * destruct (Js.truthy v).
        { unfold resolve, settle, clearTimeout_abort, with_world, set_in_flight.
          simpl. rewrite P. simpl. split; [|left; discriminate].
          unfold on_time. simpl. rewrite C.
          repeat split; intros; discriminate. }
        { unfold set_checkTimeout, with_world, set_in_flight. simpl.
          pose proof (timer_delay_positive checkInterval) as D.
          split.
          - unfold on_time. simpl. rewrite A.
            repeat split; intros ? E; try discriminate;
              injection E as <-; lia.
          - right. unfold turns_left. cbn [world abortTimeout checkTimeout in_flight promise clock]. rewrite A, X, Lb.
            destruct (clock w1 + timer_delay checkInterval <? T); lia. }
      * unfold pollStatus_catch, reject, settle, clearTimeout_abort, with_world,
          set_in_flight. simpl. rewrite P. simpl. split; [|left; discriminate].
        unfold on_time. simpl. rewrite C. repeat split; intros; discriminate.
      * unfold with_world, set_in_flight. simpl. split.
        { unfold on_time. simpl. rewrite A, C.
          repeat split; intros ? E; try discriminate. injection E as <-. lia. }
        { right. unfold turns_left. cbn [world abortTimeout checkTimeout in_flight promise clock]. rewrite A, C, X, Lb. lia. }
    + simpl. rewrite A. eexists. split; [reflexivity|].
      unfold abort_callback, reject, settle, clearTimeout_check, clearTimeout_abort,
        with_world. simpl. rewrite P. simpl. split; [|left; discriminate].
      unfold on_time. simpl. rewrite X. apply Z.ltb_ge in L.
      repeat split; intros ? E; try discriminate. injection E as <-. simpl. lia.
  - destruct (checkTimeout s) as [c|] eqn:C.
    + specialize (O3 c eq_refl). destruct (c <? T) eqn:L.
      * pose proof L as Lb. apply Z.ltb_lt in L. simpl. rewrite C. eexists. split; [reflexivity|].
        unfold pollStatus. cbn [world with_world].
        pose proof (fetch_send_clock checkUrl (Some "GET") NoBody
                      (resume_at c (world s))) as K.
        pose proof (fetch_send_arrival checkUrl (Some "GET") NoBody
                      (resume_at c (world s))) as V.
        destruct (fetch_send env this checkUrl (Some "GET") NoBody
                    (resume_at c (world s))) as [[x|e|] w1]; simpl in K.
        { specialize (V x w1 eq_refl). simpl in V.
          unfold set_in_flight, with_world, clearTimeout_check. simpl. split.
          - unfold on_time. simpl. rewrite A.
            repeat split; intros ? E; try discriminate;
              injection E as <-; lia.
          - right. unfold turns_left. cbn [world abortTimeout checkTimeout in_flight promise clock]. rewrite A, X, C, Lb.
            destruct (fst x <? T); lia. }
        { unfold pollStatus_catch, reject, settle, clearTimeout_abort, with_world,
            clearTimeout_check. simpl. rewrite P. simpl.
          split; [|left; discriminate].
          unfold on_time. simpl. rewrite X.
          repeat split; intros; discriminate. }
        { unfold with_world, clearTimeout_check. simpl. split.
          - unfold on_time. simpl. rewrite A, X.
            repeat split; intros ? E; try discriminate. injection E as <-. lia.
          - right. unfold turns_left. cbn [world abortTimeout checkTimeout in_flight promise clock]. rewrite A, X, C, Lb. lia. }
      * simpl. rewrite A. eexists. split; [reflexivity|].
        unfold abort_callback, reject, settle, clearTimeout_check,
          clearTimeout_abort, with_world. simpl. rewrite P. simpl.
        split; [|left; discriminate].
        unfold on_time. simpl. rewrite X.
        repeat split; intros; discriminate.
    + simpl. rewrite A. eexists. split; [reflexivity|].
      unfold abort_callback, reject, settle, clearTimeout_check,
        clearTimeout_abort, with_world. simpl. rewrite P. simpl.
      split; [|left; discriminate].
      unfold on_time. simpl. rewrite X.
      repeat split; intros; discriminate.
Qed.

Lemma turn_fires s s' :
  turns s = Some s' ->
  exists ev, fire env this successFunc checkUrl checkInterval context ev s = Some s'.
Proof.
  unfold turn. destruct (next_event s) as [ev|]; [|discriminate].
  intros F. exists ev. exact F.
Qed.

Lemma run_until_settled_done n s :
  promise s <> None ->
  run_until_settled env this successFunc checkUrl checkInterval context n s = s.
Proof.
  intros P. destruct n; simpl; destruct (promise s); congruence.
Qed.

Lemma settles_within n s :
  loop_invariant s -> on_time s ->
  turns_left s <= Z.of_nat n ->
  promise (run_until_settled env this successFunc checkUrl checkInterval context
             n s) <> None.
Proof.
  revert s. induction n as [|n IH]; intros s I O B.
  - simpl. destruct (promise s) eqn:P; [rewrite P; discriminate|].
    exfalso. destruct (turn_progress s I O P) as (s' & _ & _ & [Q|Q]).
    + destruct I as (_ & I2 & _). unfold turns_left in B.
      destruct (abortTimeout s) as [T|] eqn:A;
        [|apply I2; [reflexivity|exact P]].
      destruct (in_flight s) as [x|]; [destruct (fst x <? T) eqn:L|];
        try (apply Z.ltb_lt in L); try lia.
      destruct (checkTimeout s) as [c|]; [destruct (c <? T) eqn:L|];
        try (apply Z.ltb_lt in L); lia.
    + assert (0 <= turns_left s').
      { unfold turns_left. destruct (abortTimeout s') as [T|]; [|lia].
        destruct (in_flight s') as [x|]; [destruct (fst x <? T) eqn:L|];
          try (apply Z.ltb_lt in L); try lia.
        destruct (checkTimeout s') as [c|]; [destruct (c <? T) eqn:L|];
          try (apply Z.ltb_lt in L); lia. }
      simpl in B. lia.
  - simpl. destruct (promise s) eqn:P; [rewrite P; discriminate|].
    destruct (turn_progress s I O P) as (s' & F & O' & Q). rewrite F.
    destruct (turn_fires s s' F) as [ev E].
    destruct Q as [Q|Q].
    + rewrite run_until_settled_done by exact Q. exact Q.
    + apply IH; [eapply fire_invariant; eassumption|exact O'|lia].
Qed.

Lemma fire_settles_properly ev s s' :
  fire env this successFunc checkUrl checkInterval context ev s = Some s' ->
  promise s <> Some Js.Pending -> promise s' <> Some Js.Pending.
Proof.
  intros F P. destruct ev; simpl in F.
  - destruct (abortTimeout s); [|discriminate]. injection F as <-.
    unfold abort_callback, reject, settle, clearTimeout_check,
      clearTimeout_abort, with_world. simpl.
    destruct (promise s); simpl; congruence.
  - destruct (checkTimeout s); [|discriminate]. injection F as <-.
    unfold pollStatus, pollStatus_catch, reject, settle, clearTimeout_check,
      clearTimeout_abort, with_world, set_in_flight. simpl.
    destruct (fetch_send env this checkUrl (Some "GET") NoBody
                (resume_at z (world s))) as [[x|e|] w1]; simpl;
      destruct (promise s); simpl; congruence.
  - destruct (in_flight s) as [x|]; [|discriminate]. injection F as <-.
    unfold pollStatus_resume, pollStatus_catch, resolve, reject, settle,
      clearTimeout_abort, with_world, set_in_flight, set_checkTimeout.
    cbn [world promise].
    destruct (poll_result successFunc x (world s)) as [[v|e|] w1]; simpl;
      [destruct (Js.truthy v)| |]; simpl;
      destruct (promise s); simpl; congruence.
Qed.

Lemma run_settles_properly n s :
  promise s <> Some Js.Pending ->
  promise (run_until_settled env this successFunc checkUrl checkInterval context
             n s) <> Some Js.Pending.
Proof.
  revert s. induction n as [|n IH]; intros s P; simpl.
  - destruct (promise s) eqn:Q; rewrite ?Q; congruence.
  - destruct (promise s) eqn:Q; [rewrite Q; congruence|].
    destruct (turns s) as [s'|] eqn:F; [|rewrite Q; discriminate].
    apply IH. destruct (turn_fires s s' F) as [ev E].
    eapply fire_settles_properly; [exact E|congruence].
Qed.

(** The fuel of [waitRetry] is enough: with a predicate that takes no time,
    [await waitRetry(...)] ends with a value or with an error, whatever the
    server does. *)
Theorem waitRetry_settles w :
  fst (waitRetry env this successFunc checkUrl checkInterval abortInterval
         context w) <> Js.Pending.
Proof.
  unfold waitRetry. simpl.
  set (s0 := waitRetry_start env this checkUrl abortInterval w).
  assert (I : loop_invariant s0) by apply start_invariant.
  pose proof (timer_delay_positive abortInterval) as D.
  assert (O : on_time s0 /\ turns_left s0 <= Z.of_nat (waitRetry_fuel abortInterval)).
  { subst s0. unfold waitRetry_start, pollStatus. cbn [world].
    pose proof (fetch_send_clock checkUrl (Some "GET") NoBody w) as K.
    pose proof (fetch_send_arrival checkUrl (Some "GET") NoBody w) as V.
    unfold waitRetry_fuel.
    destruct (fetch_send env this checkUrl (Some "GET") NoBody w)
      as [[x|e|] w1]; simpl in K.
    - specialize (V x w1 eq_refl). split.
      + unfold on_time, set_in_flight, with_world. simpl.
        repeat split; intros ? E; try discriminate; injection E as <-; lia.
      + unfold turns_left, set_in_flight, with_world.
        cbn [world abortTimeout checkTimeout in_flight promise clock].
        destruct (fst x <? clock w + timer_delay abortInterval); lia.
    - split.
      + unfold on_time, pollStatus_catch, reject, settle. simpl.
        repeat split; intros; discriminate.
      + unfold turns_left, pollStatus_catch, reject, settle. simpl. lia.
    - split.
      + unfold on_time, with_world. simpl.
        repeat split; intros ? E; try discriminate; injection E as <-; lia.
      + unfold turns_left, with_world. simpl. lia. }
  destruct O as [O B].
  pose proof (settles_within _ s0 I O B) as S.
  pose proof (run_settles_properly (waitRetry_fuel abortInterval) s0) as N.
  destruct (promise (run_until_settled env this successFunc checkUrl
                       checkInterval context (waitRetry_fuel abortInterval) s0))
    as [[v|e|]|]; try discriminate; try congruence.
  exfalso. apply N; [|reflexivity].
  subst s0. unfold waitRetry_start, pollStatus, pollStatus_catch, reject, settle.
  destruct (fetch_send env this checkUrl (Some "GET") NoBody _)
    as [[x|e|] w1]; simpl; discriminate.
Qed.

End Settling.

Lemma validation_successFunc_clock d w :
  clock (snd (validation_successFunc d w)) = clock w.
Proof.
  unfold validation_successFunc, bind, lift, ret, throw, log_info, emit.
  destruct (Js.get d "processed") as [processed| |]; try reflexivity.
  destruct (Js.truthy processed); [|reflexivity]. simpl.
  destruct (Js.get d "validation") as [validation| |]; try reflexivity. simpl.
  destruct (Js.get d "valid") as [valid| |]; try reflexivity.
  destruct (Js.truthy valid); simpl.
  - destruct (Js.get d "uuid"); reflexivity.
  - destruct (Js.get d "url"); reflexivity.
Qed.

Lemma approval_successFunc_clock d w :
  clock (snd (approval_successFunc d w)) = clock w.
Proof.
  unfold approval_successFunc, bind, lift, ret.
  destruct (Js.destructure d "file") as [file| |]; try reflexivity.
  destruct (Js.truthy file); [|reflexivity].
  destruct (Js.get file "status") as [status| |]; try reflexivity.
  destruct status; try reflexivity.
  destruct (String.eqb s "public"); [|reflexivity].
  destruct (Js.get file "url"); reflexivity.
Qed.

(** Both polling stages of the workflow end. *)
Corollary waitForValidation_settles env this uuid w :
  fst (waitForValidation env this uuid w) <> Js.Pending.
Proof.
  unfold waitForValidation, bind, log_info, emit.
  apply waitRetry_settles, validation_successFunc_clock.
Qed.

Corollary waitForApproval_settles env this addonId versionId w :
  fst (waitForApproval env this addonId versionId w) <> Js.Pending.
Proof.
  unfold waitForApproval, bind, log_info, emit.
  apply waitRetry_settles, approval_successFunc_clock.
Qed.

(** * Further properties of the client *)

(** ** The approval predicate *)

(** The predicate of [waitForApproval] never throws on an answer that is
    not null and logs nothing: it returns [file.url] when the answer has a
    file whose status is the string [public], and null, which keeps the poll
    going, for every other answer, a missing file or another status
    included. *)
Theorem approval_successFunc_cases d w :
  d <> Js.Null -> d <> Js.Undefined ->
  approval_successFunc d w
  = (Js.Returned (if published d then field (field d "file") "url"
                  else Js.Null), w).
Proof.
  intros N U. unfold approval_successFunc, published, bind, lift, ret.
  assert (D : Js.destructure d "file" = Js.Returned (field d "file"))
    by (destruct d; try reflexivity; contradiction).
  rewrite D. destruct (Js.truthy (field d "file")) eqn:T; [|reflexivity].
  assert (F : forall k, Js.get (field d "file") k
                        = Js.Returned (field (field d "file") k)).
  { intros k. destruct (field d "file"); try reflexivity; discriminate. }
  rewrite !F. simpl.
  destruct (field (field d "file") "status"); try reflexivity.
  destruct (String.eqb s "public"); reflexivity.
Qed.

Lemma approval_successFunc_cases_witness :
  approval_successFunc
    (Js.Obj [("file", Js.Obj [("status", Js.Str "unreviewed");
                              ("url", Js.Str "https://x/y/signed.xpi")])])
    Scenario.start
  = (Js.Returned Js.Null, Scenario.start)
  /\ approval_successFunc
       (Js.Obj [("file", Js.Obj [("status", Js.Str "public");
                                 ("url", Js.Str "https://x/y/signed.xpi")])])
       Scenario.start
     = (Js.Returned (Js.Str "https://x/y/signed.xpi"), Scenario.start).
Proof.
  split.
  - apply (approval_successFunc_cases
             (Js.Obj [("file", Js.Obj [("status", Js.Str "unreviewed");
                                       ("url", Js.Str "https://x/y/signed.xpi")])])
             Scenario.start); discriminate.
  - apply (approval_successFunc_cases
             (Js.Obj [("file", Js.Obj [("status", Js.Str "public");
                                       ("url", Js.Str "https://x/y/signed.xpi")])])
             Scenario.start); discriminate.
Defined.

(** ** The constructor *)


(** ** Requests without credentials *)

(** When the Authorization header cannot be produced, [fetch] and
    [fetchJson] fail with the error of the signer after logging the URL:
    no request reaches the network. *)
Theorem fetch_needs_auth_header env this url method body errorMsg w e :
  getAuthHeader (apiAuth this) (clock w) = Js.Threw e ->
  let logged := and_then w [Info ("Fetching URL: " ++ Url.href url) []] in
  fetch env this url method body w = (Js.Threw e, logged)
  /\ fetchJson env this url method body errorMsg w = (Js.Threw e, logged)
  /\ sent (effects logged) = sent (effects w)
  /\ calls logged = calls w.
Proof.
  intros A logged. subst logged.
  assert (F : fetch env this url method body w
              = (Js.Threw e,
                 and_then w [Info ("Fetching URL: " ++ Url.href url) []])).
  { unfold fetch, bind. rewrite (fetch_send_no_header env this _ _ _ _ _ A).
    reflexivity. }
  split; [exact F|]. split.
  - unfold fetchJson, bind. rewrite F. reflexivity.
  - split; [|reflexivity]. unfold and_then. simpl. rewrite sent_app. simpl.
    apply app_nil_r.
Qed.

Lemma fetch_needs_auth_header_witness :
  let env := Scenario.unsigned (Scenario.server [] (0, Js.Pending)) in
  let this := Scenario.client env None in
  fetchJson env this (Url.resolve "upload/" (apiUrl this)) (Some "POST") NoBody
    None Scenario.start
  = (Js.Threw (Js.Error "secret must be a non-empty string"),
     and_then Scenario.start
       [Info "Fetching URL: https://amo.example/api/v5/addons/upload/" []]).
Proof.
  intros env this.
  exact (proj1 (proj2 (fetch_needs_auth_header env this
                         (Url.resolve "upload/" (apiUrl this)) (Some "POST")
                         NoBody None Scenario.start
                         (Js.Error "secret must be a non-empty string")
                         eq_refl))).
Defined.

(** ** The checks of signAddon *)

(** [signAddon] does nothing, and fails with [error with <path>: <cause>],
    when the package cannot be inspected; a package that is not a file gives
    the cause [Error: not a file: <path>]. *)
Theorem signAddon_checks_package env p w :
  (forall e,
      stat_isFile env (s_xpiPath p) = Js.Threw e ->
      signAddon env p w
      = (Js.Threw (Js.Error ("error with " ++ s_xpiPath p ++ ": "
                             ++ Js.error_to_string e)), w))
  /\ (stat_isFile env (s_xpiPath p) = Js.Returned false ->
      signAddon env p w
      = (Js.Threw (Js.Error ("error with " ++ s_xpiPath p
                             ++ ": Error: not a file: " ++ s_xpiPath p)), w)).
Proof.
  split.
  - intros e S. unfold signAddon, bind, try_catch, lift, throw. rewrite S.
    reflexivity.
  - intros S. unfold signAddon, bind, try_catch, lift, throw. rewrite S.
    reflexivity.
Qed.

Lemma signAddon_checks_package_witness :
  let env := Scenario.directory (Scenario.server [] (0, Js.Pending)) in
  signAddon env (Scenario.params None None) Scenario.start
  = (Js.Threw (Js.Error "error with addon.xpi: Error: not a file: addon.xpi"),
     Scenario.start).
Proof.
  intros env.
  exact (proj2 (signAddon_checks_package env (Scenario.params None None)
                  Scenario.start) eq_refl).
Defined.

(** [signAddon] does nothing, and fails with
    [Invalid AMO API base URL: <url>], when the base URL is no URL (it has
    no scheme, or it is an http(s) URL without a host or with a port that
    is no number below 65536), whatever the parser's own error says. *)
Theorem signAddon_checks_base_url env p w e :
  stat_isFile env (s_xpiPath p) = Js.Returned true ->
  Url.parse (s_amoBaseUrl p) = Js.Threw e ->
  signAddon env p w
  = (Js.Threw (Js.Error ("Invalid AMO API base URL: " ++ s_amoBaseUrl p)), w).
Proof.
  intros S U. unfold signAddon, bind, try_catch, lift, throw, ret.
  rewrite S, U. reflexivity.
Qed.

Lemma signAddon_checks_base_url_witness :
  let env := Scenario.server [] (0, Js.Pending) in
  let p := {| s_apiKey := "key"; s_apiSecret := "secret";
              s_amoBaseUrl := "addons.mozilla.org/api/v5";
              s_timeout := None; s_id := None; s_xpiPath := "addon.xpi";
              s_downloadDir := None; s_channel := "listed";
              s_savedIdPath := ".web-extension-id"; s_metaDataJson := None;
              s_userAgentString := "web-ext/7"; s_ApiAuthClass := None |} in
  signAddon env p Scenario.start
  = (Js.Threw (Js.Error "Invalid AMO API base URL: addons.mozilla.org/api/v5"),
     Scenario.start).
Proof.
  intros env p.
  exact (signAddon_checks_base_url env p Scenario.start
           (Js.TypeError "Invalid URL") eq_refl eq_refl).
Defined.

(** ** The id file *)





(** ** Failures of the create path *)

(** When the answer to the creation has no version object for the channel
    (null or missing), [postNewAddon] fails with a TypeError in the world
    the POST left: the record id is not saved and approval is not polled. *)
Theorem postNewAddon_needs_version env this xpiPath channel savedIdPath
    metaDataJson save w uploadUuid w1 r w2 :
  doUploadSubmit env this xpiPath channel w = (Js.Returned uploadUuid, w1) ->
  doNewAddonSubmit env this uploadUuid metaDataJson w1 = (Js.Returned r, w2) ->
  r <> Js.Null -> r <> Js.Undefined ->
  field r (versionObject channel) = Js.Null
  \/ field r (versionObject channel) = Js.Undefined ->
  exists e,
    Js.name e = "TypeError"
    /\ postNewAddon env this xpiPath channel savedIdPath metaDataJson save w
       = (Js.Threw e, w2).
Proof.
  intros Up Post N U V. unfold postNewAddon. unfold bind at 1. rewrite Up.
  unfold bind at 1. rewrite Post. unfold bind at 1, lift at 1.
  assert (D : forall k, Js.destructure r k = Js.Returned (field r k))
    by (intros k; destruct r; try reflexivity; contradiction).
  rewrite !D. unfold bind at 1, lift at 1. unfold bind at 1, lift at 1.
  destruct V as [V|V]; rewrite V; eexists; (split; [|reflexivity]); reflexivity.
Qed.

Lemma postNewAddon_needs_version_witness :
  let env := Scenario.server Scenario.listed_only_script (0, Js.Pending) in
  let this := Scenario.client env (Some 5000) in
  let result :=
    postNewAddon env this "addon.xpi" "unlisted" ".web-extension-id"
      (Js.Obj []) None Scenario.start in
  (exists e, Js.name e = "TypeError" /\ fst result = Js.Threw e)
  /\ List.map (fun req => (method req, Url.href (url req)))
       (sent (effects (snd result)))
     = [("POST", "https://amo.example/api/v5/addons/upload/");
        ("GET", "https://amo.example/api/v5/addons/upload/u1/");
        ("POST", "https://amo.example/api/v5/addons/addon/")].
Proof.
  intros env this result.
  pose (up := doUploadSubmit env this "addon.xpi" "unlisted" Scenario.start).
  pose (post := doNewAddonSubmit env this (Js.Str "u1") (Js.Obj []) (snd up)).
  assert (Up : up = (Js.Returned (Js.Str "u1"), snd up))
    by (vm_compute; reflexivity).
  assert (Post : post
                 = (Js.Returned
                      (Js.Obj [("guid", Js.Str "new@addon");
                               ("current_version", Js.Obj [("id", Js.Num 7)]);
                               ("latest_unlisted_version", Js.Null)]),
                    snd post))
    by (vm_compute; reflexivity).
  destruct (postNewAddon_needs_version env this "addon.xpi" "unlisted"
              ".web-extension-id" (Js.Obj []) None Scenario.start _ _ _ _
              Up Post ltac:(discriminate) ltac:(discriminate)
              (or_introl eq_refl)) as (e & T & R).
  split.
  - exists e. split; [exact T|]. subst result. rewrite R. reflexivity.
  - vm_compute. reflexivity.
Defined.

(** When saving the record id fails, with the function the caller gave or
    with [saveIdToFile], [postNewAddon] fails with that error in the world
    the save left: approval is not polled. *)
Theorem postNewAddon_needs_saved_id env this xpiPath channel savedIdPath
    metaDataJson save w uploadUuid w1 r w2 e w3 :
  doUploadSubmit env this xpiPath channel w = (Js.Returned uploadUuid, w1) ->
  doNewAddonSubmit env this uploadUuid metaDataJson w1 = (Js.Returned r, w2) ->
  r <> Js.Null -> r <> Js.Undefined ->
  field r (versionObject channel) <> Js.Null ->
  field r (versionObject channel) <> Js.Undefined ->
  or_default save (saveIdToFile env) savedIdPath (field r "guid") w2
  = (Js.Threw e, w3) ->
  postNewAddon env this xpiPath channel savedIdPath metaDataJson save w
  = (Js.Threw e, w3).
Proof.
  intros Up Post N U V1 V2 S. unfold postNewAddon. unfold bind at 1. rewrite Up.
  unfold bind at 1. rewrite Post. unfold bind at 1, lift at 1.
  assert (D : forall v k, v <> Js.Null -> v <> Js.Undefined ->
                          Js.destructure v k = Js.Returned (field v k))
    by (intros v k ? ?; destruct v; try reflexivity; contradiction).
  rewrite (D r "guid" N U). unfold bind at 1, lift at 1.
  rewrite (D r _ N U). unfold bind at 1, lift at 1.
  rewrite (D _ "id" V1 V2). unfold bind at 1. rewrite S. reflexivity.
Qed.

Lemma postNewAddon_needs_saved_id_witness :
  let env := Scenario.read_only
               (Scenario.server Scenario.create_script (0, Js.Pending)) in
  let this := Scenario.client env (Some 5000) in
  let result :=
    postNewAddon env this "addon.xpi" "listed" ".web-extension-id"
      (Js.Obj []) None Scenario.start in
  fst result = Js.Threw (Js.Error "ENOSPC: no space left on device")
  /\ List.map (fun req => (method req, Url.href (url req)))
       (sent (effects (snd result)))
     = [("POST", "https://amo.example/api/v5/addons/upload/");
        ("GET", "https://amo.example/api/v5/addons/upload/u1/");
        ("GET", "https://amo.example/api/v5/addons/upload/u1/");
        ("POST", "https://amo.example/api/v5/addons/addon/")].
Proof.
  intros env this result.
  pose (up := doUploadSubmit env this "addon.xpi" "listed" Scenario.start).
  pose (post := doNewAddonSubmit env this (Js.Str "u1") (Js.Obj []) (snd up)).
  pose (r := Js.Obj [("guid", Js.Str "new@addon");
                     ("current_version", Js.Obj [("id", Js.Num 7)]);
                     ("latest_unlisted_version", Js.Obj [("id", Js.Num 8)])]).
  pose (save := saveIdToFile env ".web-extension-id" (field r "guid") (snd post)).
  assert (Up : up = (Js.Returned (Js.Str "u1"), snd up))
    by (vm_compute; reflexivity).
  assert (Post : post = (Js.Returned r, snd post))
    by (vm_compute; reflexivity).
  assert (Save : save = (Js.Threw (Js.Error "ENOSPC: no space left on device"),
                         snd save))
    by (vm_compute; reflexivity).
  pose proof (postNewAddon_needs_saved_id env this "addon.xpi" "listed"
                ".web-extension-id" (Js.Obj []) None Scenario.start _ _ _ _ _ _
                Up Post ltac:(discriminate) ltac:(discriminate)
                ltac:(discriminate) ltac:(discriminate) Save) as R.
  subst result. rewrite R. split; [reflexivity|]. vm_compute. reflexivity.
Defined.

(** ** The update path does not look at the answer to the PUT *)

Lemma bind_extends {A B} (m : M A) (k : A -> M B) w :
  (forall a, appends (k a)) -> extends (snd (m w)) (snd (bind m k w)).
Proof.
  intros K. unfold bind. destruct (m w) as [[a|e|] w1]; simpl;
    try apply extends_refl. apply K.
Qed.

Lemma extends_sent w w' :
  extends w w' ->
  exists rest, sent (effects w') = (sent (effects w) ++ rest)%list.
Proof.
  intros [es E]. exists (sent es). rewrite E. apply sent_app.
Qed.

Lemma appends_select_version env this addonId r :
  appends (results <- lift (Js.destructure r "results") ;;
           entry <- lift (Js.first results) ;;
           newVersionId <- lift (Js.destructure entry "id") ;;
           approved <- waitForApproval env this addonId newVersionId ;;
           fileUrl <- lift (Url.parse (Js.to_string approved)) ;;
           downloadSignedFile env this fileUrl addonId).
Proof.
  appends; [apply appends_waitForApproval|apply appends_downloadSignedFile].
Qed.

(** Whatever the server answers to the PUT of an update, an error status
    included, [putVersion] goes on: its next request is the GET of the
    version listing. *)
Theorem putVersion_ignores_put_status env this xpiPath channel addonId props w
    uploadUuid w1 authorization :
  doUploadSubmit env this xpiPath channel w = (Js.Returned uploadUuid, w1) ->
  getAuthHeader (apiAuth this) (clock w1) = Js.Returned authorization ->
  exists data,
    jsonData uploadUuid (Js.Obj props) = Js.Returned data
    /\ let put :=
         request_with this
           (Url.resolve ("addon/" ++ Js.to_string addonId ++ "/") (apiUrl this))
           (Some "PUT") (JsonString data) authorization in
       let listing :=
         Url.resolve ("addon/" ++ Js.to_string addonId
                      ++ "/versions/?filter=all_with_unlisted") (apiUrl this) in
       forall response w2 authorization',
         doNewAddonOrVersionSubmit env this addonId uploadUuid (Js.Obj props) w1
         = (Js.Returned response, w2) ->
         getAuthHeader (apiAuth this) (clock w2) = Js.Returned authorization' ->
         snd (network env (calls w1) put) = Js.Returned response
         /\ exists rest,
             sent (effects (snd (putVersion env this xpiPath channel addonId
                                   (Js.Obj props) w)))
             = (sent (effects w1)
                ++ [put; request_with this listing None NoBody authorization']
                ++ rest)%list.
Proof.
  intros Up A. eexists. split; [apply jsonData_object|].
  intros put listing response w2 a' Put A'. split.
  - unfold doNewAddonOrVersionSubmit, bind, lift in Put.
    rewrite jsonData_object in Put. unfold fetch, bind in Put.
    erewrite fetch_send_run in Put by exact A.
    unfold await_response in Put. simpl in Put. injection Put as P _.
    exact P.
  - unfold putVersion. unfold bind at 1. rewrite Up.
    unfold bind at 1. rewrite Put.
    fold listing.
    match goal with
    | |- context [bind (fetchJson env this listing None NoBody None) ?k w2] =>
        destruct (extends_sent _ _
                    (bind_extends (fetchJson env this listing None NoBody None)
                       k w2 (appends_select_version env this addonId)))
          as [rest R]
    end.
    exists rest. rewrite R.
    rewrite (fetchJson_sent env this listing None NoBody None w2 a' A').
    assert (P : sent (effects w2) = (sent (effects w1) ++ [put])%list).
    { unfold doNewAddonOrVersionSubmit, bind, lift in Put.
      rewrite jsonData_object in Put.
      match type of Put with
      | fetch _ _ ?u ?m ?b _ = _ =>
          pose proof (fetch_sent env this u m b w1 authorization A) as F
      end.
      rewrite Put in F. exact F. }
    rewrite P. rewrite <- !app_assoc. reflexivity.
Qed.

Lemma putVersion_ignores_put_status_witness :
  let env := Scenario.server Scenario.refused_update_script (0, Js.Pending) in
  let this := Scenario.client env (Some 5000) in
  let result :=
    putVersion env this "addon.xpi" "listed" (Js.Str "my@addon") (Js.Obj [])
      Scenario.start in
  exists rest,
    List.map (fun req => (method req, Url.href (url req)))
      (sent (effects (snd result)))
    = ([("POST", "https://amo.example/api/v5/addons/upload/");
        ("GET", "https://amo.example/api/v5/addons/upload/u1/");
        ("PUT", "https://amo.example/api/v5/addons/addon/my@addon/");
        ("GET", "https://amo.example/api/v5/addons/addon/my@addon/versions/?filter=all_with_unlisted")]
       ++ rest)%list.
Proof.
  intros env this result.
  pose (up := doUploadSubmit env this "addon.xpi" "listed" Scenario.start).
  assert (Up : up = (Js.Returned (Js.Str "u1"), snd up))
    by (vm_compute; reflexivity).
  destruct (putVersion_ignores_put_status env this "addon.xpi" "listed"
              (Js.Str "my@addon") [] Scenario.start (Js.Str "u1") (snd up)
              "JWT token" Up eq_refl) as (data & J & H).
  pose (put := doNewAddonOrVersionSubmit env this (Js.Str "my@addon")
                 (Js.Str "u1") (Js.Obj []) (snd up)).
  assert (Put : put
                = (Js.Returned
                     {| status := 500; statusText := "Internal Server Error";
                        ok := false; stream := None;
                        json := Js.Threw (Js.Error "not json") |}, snd put))
    by (vm_compute; reflexivity).
  destruct (H _ _ "JWT token" Put eq_refl) as (_ & rest & R).
  exists (List.map (fun req => (method req, Url.href (url req))) rest).
  subst result. rewrite R, !map_app, app_assoc. f_equal.
Defined.

(** When the version listing of the record is empty, or is no list at all,
    [putVersion] fails with a TypeError in the world the listing left:
    approval is not polled and nothing is downloaded. *)
Theorem putVersion_needs_a_version env this xpiPath channel addonId
    metaDataJson w uploadUuid w1 response w2 r w3 :
  doUploadSubmit env this xpiPath channel w = (Js.Returned uploadUuid, w1) ->
  doNewAddonOrVersionSubmit env this addonId uploadUuid metaDataJson w1
  = (Js.Returned response, w2) ->
  fetchJson env this
    (Url.resolve ("addon/" ++ Js.to_string addonId
                  ++ "/versions/?filter=all_with_unlisted") (apiUrl this))
    None NoBody None w2 = (Js.Returned r, w3) ->
  r <> Js.Null -> r <> Js.Undefined ->
  match field r "results" with
  | Js.Arr (_ :: _) | Js.Str (String _ _) => False
  | _ => True
  end ->
  exists e,
    Js.name e = "TypeError"
    /\ putVersion env this xpiPath channel addonId metaDataJson w
       = (Js.Threw e, w3).
Proof.
  intros Up Put Get N U E. unfold putVersion. unfold bind at 1. rewrite Up.
  unfold bind at 1. rewrite Put. unfold bind at 1. rewrite Get.
  unfold bind at 1, lift at 1.
  assert (D : Js.destructure r "results" = Js.Returned (field r "results"))
    by (destruct r; try reflexivity; contradiction).
  rewrite D. unfold bind at 1, lift at 1.
  destruct (field r "results") as [| |b|n|s|l|ps]; simpl;
    try (eexists; split; [|reflexivity]; reflexivity).
  - destruct s; [|contradiction]. simpl.
    eexists; split; [|reflexivity]; reflexivity.
  - destruct l; [|contradiction]. simpl.
    eexists; split; [|reflexivity]; reflexivity.
Qed.

Lemma putVersion_needs_a_version_witness :
  let env := Scenario.server Scenario.refused_update_script (0, Js.Pending) in
  let this := Scenario.client env (Some 5000) in
  let result :=
    putVersion env this "addon.xpi" "listed" (Js.Str "my@addon") (Js.Obj [])
      Scenario.start in
  (exists e, Js.name e = "TypeError" /\ fst result = Js.Threw e)
  /\ List.length (sent (effects (snd result))) = 4%nat.
Proof.
  intros env this result.
  pose (up := doUploadSubmit env this "addon.xpi" "listed" Scenario.start).
  pose (put := doNewAddonOrVersionSubmit env this (Js.Str "my@addon")
                 (Js.Str "u1") (Js.Obj []) (snd up)).
  pose (get := fetchJson env this
                 (Url.resolve "addon/my@addon/versions/?filter=all_with_unlisted"
                    (apiUrl this)) None NoBody None (snd put)).
  assert (Up : up = (Js.Returned (Js.Str "u1"), snd up))
    by (vm_compute; reflexivity).
  assert (Put : put
                = (Js.Returned
                     {| status := 500; statusText := "Internal Server Error";
                        ok := false; stream := None;
                        json := Js.Threw (Js.Error "not json") |}, snd put))
    by (vm_compute; reflexivity).
  assert (Get : get = (Js.Returned (Js.Obj [("results", Js.Arr [])]), snd get))
    by (vm_compute; reflexivity).
  destruct (putVersion_needs_a_version env this "addon.xpi" "listed"
              (Js.Str "my@addon") (Js.Obj []) Scenario.start _ _ _ _ _ _
              Up Put Get ltac:(discriminate) ltac:(discriminate) I)
    as (e & T & R).
  split.
  - exists e. split; [exact T|]. subst result. rewrite R. reflexivity.
  - vm_compute. reflexivity.
Defined.

(** ** A refused upload *)

(** [doUploadSubmit] fails with the error of the file system, before
    anything is logged or sent, when no file can be made of the package.
    When the file is there and the server answers the upload with a status
    below 200 or of 500 and more, it fails with
    [Bad Request: <status text>.]: the multipart POST, which carries no
    Content-Type header of the client's, is the only request, and
    validation is not polled. *)
Theorem doUploadSubmit_refused env this xpiPath channel w :
  (forall e,
      fileFromSync env xpiPath = Js.Threw e ->
      doUploadSubmit env this xpiPath channel w = (Js.Threw e, w))
  /\ (forall authorization response,
        fileFromSync env xpiPath = Js.Returned tt ->
        getAuthHeader (apiAuth this) (clock w) = Js.Returned authorization ->
        let upload :=
          {| url := Url.resolve "upload/" (apiUrl this);
             method := "POST";
             headers := [("Authorization", authorization);
                         ("Accept", "application/json");
                         ("User-Agent", userAgentString this)];
             body := Form [("channel", Field channel);
                           ("upload", FileFromSync xpiPath)] |} in
        snd (network env (calls w) upload) = Js.Returned response ->
        status response < 200 \/ status response >= 500 ->
        fst (doUploadSubmit env this xpiPath channel w)
        = Js.Threw (Js.Error ("Bad Request: " ++ status_text response ++ "."))
        /\ sent (effects (snd (doUploadSubmit env this xpiPath channel w)))
           = (sent (effects w) ++ [upload])%list).
Proof.
  split.
  - intros e F. unfold doUploadSubmit, bind, lift. rewrite F. reflexivity.
  - intros authorization response File A upload Net S.
    set (m := fetchJson env this (Url.resolve "upload/" (apiUrl this))
                (Some "POST")
                (Form [("channel", Field channel);
                       ("upload", FileFromSync xpiPath)])
                None).
    assert (D : doUploadSubmit env this xpiPath channel w
                = (r <- m ;;
                   uuid <- lift (Js.destructure r "uuid") ;;
                   waitForValidation env this uuid) w).
    { unfold doUploadSubmit. unfold bind at 1, lift at 1. rewrite File.
      reflexivity. }
    rewrite D. clear D.
    assert (F : fst (m w)
                = Js.Threw (Js.Error ("Bad Request: " ++ status_text response
                                      ++ "."))).
    { subst m. unfold fetchJson, fetch, bind.
      erewrite fetch_send_run by exact A.
      change (request_with this (Url.resolve "upload/" (apiUrl this))
                (Some "POST")
                (Form [("channel", Field channel);
                       ("upload", FileFromSync xpiPath)])
                authorization) with upload.
      unfold await_response. cbn [fst snd]. rewrite Net.
      unfold fetchJson_resume.
      replace ((status response <? 200) || (status response >=? 500)) with true.
      - rewrite status_error_message. reflexivity.
      - symmetry. apply orb_true_iff. destruct S; [left|right]; lia. }
    pose proof (fetchJson_sent env this (Url.resolve "upload/" (apiUrl this))
                  (Some "POST")
                  (Form [("channel", Field channel);
                         ("upload", FileFromSync xpiPath)])
                  None w authorization A) as Q.
    fold m in Q. unfold bind. destruct (m w) as [[r|e|] w1]; simpl in *;
      try discriminate.
    split; [exact F|exact Q].
Qed.

Lemma doUploadSubmit_refused_witness :
  let env := Scenario.server [(30, Js.Returned Scenario.unavailable)]
               (0, Js.Pending) in
  let this := Scenario.client env None in
  let result := doUploadSubmit env this "addon.xpi" "listed" Scenario.start in
  doUploadSubmit (Scenario.missing env) this "addon.xpi" "listed" Scenario.start
  = (Js.Threw (Js.Error "ENOENT: no such file or directory, stat 'addon.xpi'"),
     Scenario.start)
  /\ fst result = Js.Threw (Js.Error "Bad Request: Service Unavailable.")
  /\ List.map (fun req => (method req, Url.href (url req), List.map fst (headers req)))
       (sent (effects (snd result)))
     = [("POST", "https://amo.example/api/v5/addons/upload/",
         ["Authorization"; "Accept"; "User-Agent"])].
Proof.
  intros env this result. split.
  - exact (proj1 (doUploadSubmit_refused (Scenario.missing env) this "addon.xpi"
                    "listed" Scenario.start) _ eq_refl).
  - destruct (proj2 (doUploadSubmit_refused env this "addon.xpi" "listed"
                       Scenario.start)
                "JWT token" Scenario.unavailable eq_refl eq_refl eq_refl
                ltac:(right; simpl; lia)) as [F Q].
    subst result. split; [exact F|]. rewrite Q. reflexivity.
Defined.

(** ** What the effects of the workflow are *)

Lemma only_weaken (P Q : Effect -> Prop) {A} (m : M A) :
  (forall e, P e -> Q e) -> only P m -> only Q m.
Proof.
  intros PQ H w. destruct (H w) as (es & E & F). exists es.
  split; [exact E|]. eapply Forall_impl; eassumption.
Qed.

Lemma only_and (P Q : Effect -> Prop) {A} (m : M A) :
  only P m -> only Q m -> only (fun e => P e /\ Q e) m.
Proof.
  intros HP HQ w. destruct (HP w) as (es & E & F).
  destruct (HQ w) as (es' & E' & F'). exists es. split; [exact E|].
  rewrite E in E'. apply app_inv_head in E'. subst es'.
  apply Forall_forall. intros e I. split.
  - exact (proj1 (Forall_forall P es) F e I).
  - exact (proj1 (Forall_forall Q es) F' e I).
Qed.

Section Only.

Variable P : Effect -> Prop.

Lemma only_same {A} (m : M A) :
  (forall w, effects (snd (m w)) = effects w) -> only P m.
Proof.
  intros H w. exists []. rewrite H, app_nil_r. split; [reflexivity|constructor].
Qed.

Lemma only_emit e : P e -> only P (emit e).
Proof. intros H w. exists [e]. split; [reflexivity|]. repeat constructor. exact H. Qed.

Lemma only_bind {A B} (m : M A) (k : A -> M B) :
  only P m -> (forall a, only P (k a)) -> only P (bind m k).
Proof.
  intros Hm Hk w. unfold bind. destruct (Hm w) as (es & E & F).
  destruct (m w) as [[a|e|] w1]; simpl in *;
    try (exists es; split; assumption).
  destruct (Hk a w1) as (es' & E' & F'). exists (es ++ es')%list.
  rewrite E', E, app_assoc. split; [reflexivity|]. apply Forall_app. split; assumption.
Qed.

Lemma only_try_catch {A} (m : M A) (h : Js.error -> M A) :
  only P m -> (forall e, only P (h e)) -> only P (try_catch m h).
Proof.
  intros Hm Hh w. unfold try_catch. destruct (Hm w) as (es & E & F).
  destruct (m w) as [[a|e|] w1]; simpl in *;
    try (exists es; split; assumption).
  destruct (Hh e w1) as (es' & E' & F'). exists (es ++ es')%list.
  rewrite E', E, app_assoc. split; [reflexivity|]. apply Forall_app. split; assumption.
Qed.

End Only.

Ltac only_steps :=
  repeat match goal with
         | |- only _ (bind _ _) => apply only_bind; [|intro]
         | |- only _ (try_catch _ _) => apply only_try_catch; [|intro]
         | |- only _ (ret _) => apply only_same; reflexivity
         | |- only _ (throw _) => apply only_same; reflexivity
         | |- only _ (lift _) => apply only_same; reflexivity
         | |- only _ now => apply only_same; reflexivity
         | |- only _ (await_response _) => apply only_same; reflexivity
         | |- only _ (emit _) => apply only_emit
         | |- only _ (log_info _ _) => apply only_emit
         | |- only _ (log_debug _) => apply only_emit
         end.

Section OnlyClient.

Variable env : Env.
Variable this : Client.
Variable P : Effect -> Prop.
Hypothesis P_info : forall msg args, P (Info msg args).

(** [fetch] adds its log line and its request, when it has the header. *)
Lemma only_fetch_send url method body :
  (forall t authorization,
      getAuthHeader (apiAuth this) t = Js.Returned authorization ->
      P (Sent t (request_with this url method body authorization))) ->
  only P (fetch_send env this url method body).
Proof.
  intros S w.
  destruct (getAuthHeader (apiAuth this) (clock w)) as [a|e|] eqn:A.
  - rewrite (fetch_send_run env this url method body w a A). simpl.
    eexists. split; [reflexivity|].
    repeat constructor; [apply P_info|apply S, A].
  - rewrite (fetch_send_no_header env this url method body w e A). simpl.
    eexists. split; [reflexivity|]. repeat constructor. apply P_info.
  - unfold fetch_send, bind, log_info, emit, now, lift. simpl. rewrite A. simpl.
    eexists. split; [reflexivity|]. repeat constructor. apply P_info.
Qed.

Lemma only_fetchJson_resume errorMsg response :
  only P (fetchJson_resume errorMsg response).
Proof.
  unfold fetchJson_resume.
  destruct ((status response <? 200) || (status response >=? 500));
    only_steps; auto.
  destruct (ok response); simpl; only_steps; auto.
Qed.

Lemma only_fetch url method body :
  (forall t authorization,
      getAuthHeader (apiAuth this) t = Js.Returned authorization ->
      P (Sent t (request_with this url method body authorization))) ->
  only P (fetch env this url method body).
Proof. intros S. unfold fetch. only_steps. apply only_fetch_send, S. Qed.

Lemma only_fetchJson url method body errorMsg :
  (forall t authorization,
      getAuthHeader (apiAuth this) t = Js.Returned authorization ->
      P (Sent t (request_with this url method body authorization))) ->
  only P (fetchJson env this url method body errorMsg).
Proof.
  intros S. unfold fetchJson. only_steps;
    [apply only_fetch, S|apply only_fetchJson_resume].
Qed.

Lemma only_validation_successFunc d : only P (validation_successFunc d).
Proof.
  unfold validation_successFunc. only_steps; auto.
  destruct (negb (Js.truthy a)); only_steps; auto.
  destruct (Js.truthy a2); only_steps; auto.
Qed.

Lemma only_approval_successFunc d : only P (approval_successFunc d).
Proof.
  unfold approval_successFunc. only_steps.
  destruct (Js.truthy a); only_steps.
  destruct a0; only_steps. destruct (String.eqb s "public"); only_steps.
Qed.

Section OnlyLoop.

Variable successFunc : Js.value -> M Js.value.
Variable checkUrl : Url.t.
Variables checkInterval abortInterval : Z.
Variable context : string.
Hypothesis only_successFunc : forall d, only P (successFunc d).
Hypothesis P_poll :
  forall t authorization,
    getAuthHeader (apiAuth this) t = Js.Returned authorization ->
    P (Sent t (request_with this checkUrl (Some "GET") NoBody authorization)).

Lemma only_poll_result x : only P (poll_result successFunc x).
Proof.
  unfold poll_result. only_steps;
    [apply only_fetchJson_resume|apply only_successFunc].
Qed.

(** One turn of the loop, whichever it is. *)
Lemma fire_only ev s s' :
  fire env this successFunc checkUrl checkInterval context ev s = Some s' ->
  exists es, effects (world s') = (effects (world s) ++ es)%list /\ Forall P es.
Proof.
  intros F. destruct ev; simpl in F.
  - destruct (abortTimeout s) as [t|]; [|discriminate]. injection F as <-.
    unfold abort_callback, reject, settle, clearTimeout_check,
      clearTimeout_abort, with_world. simpl.
    exists []. destruct (promise s); simpl; rewrite app_nil_r;
      (split; [reflexivity|constructor]).
  - destruct (checkTimeout s) as [t|]; [|discriminate]. injection F as <-.
    unfold pollStatus. cbn [world with_world].
    pose proof (only_fetch_send checkUrl (Some "GET") NoBody P_poll
                  (resume_at t (world s))) as E.
    destruct (fetch_send env this checkUrl (Some "GET") NoBody
                (resume_at t (world s))) as [[x|e|] w1];
      unfold pollStatus_catch, reject, settle, clearTimeout_abort,
        set_in_flight, with_world; simpl in *;
      try destruct (promise s); exact E.
  - destruct (in_flight s) as [x|]; [|discriminate]. injection F as <-.
    unfold pollStatus_resume. cbn [world set_in_flight].
    pose proof (only_poll_result x (world s)) as E.
    destruct (poll_result successFunc x (world s)) as [[v|e|] w1];
      [destruct (Js.truthy v)| |];
      unfold pollStatus_catch, resolve, reject, settle, clearTimeout_abort,
        set_in_flight, set_checkTimeout, with_world; simpl in *;
      try destruct (promise s); exact E.
Qed.

Lemma reachable_only w s :
  reachable env this successFunc checkUrl checkInterval abortInterval context
    w s ->
  exists es, effects (world s) = (effects w ++ es)%list /\ Forall P es.
Proof.
  induction 1 as [|ev s s' _ IH F].
  - unfold waitRetry_start, pollStatus. cbn [world].
    pose proof (only_fetch_send checkUrl (Some "GET") NoBody P_poll w) as E.
    destruct (fetch_send env this checkUrl (Some "GET") NoBody w)
      as [[x|e|] w1]; exact E.
  - destruct IH as (es & E & Fa). destruct (fire_only ev s s' F) as (es' & E' & Fa').
    exists (es ++ es')%list. rewrite E', E, app_assoc.
    split; [reflexivity|]. apply Forall_app. split; assumption.
Qed.

Lemma run_until_settled_reachable w n s :
  reachable env this successFunc checkUrl checkInterval abortInterval context
    w s ->
  reachable env this successFunc checkUrl checkInterval abortInterval context
    w (run_until_settled env this successFunc checkUrl checkInterval context
         n s).
Proof.
  revert s. induction n as [|n IH]; intros s R; simpl.
  - destruct (promise s); exact R.
  - destruct (promise s); [exact R|].
    unfold turn. destruct (next_event s) as [ev|]; [|exact R].
    destruct (fire env this successFunc checkUrl checkInterval context ev s)
      as [s'|] eqn:F; [|exact R].
    apply IH. eapply reachable_fire; eassumption.
Qed.

Lemma run_reachable w n s :
  reachable env this successFunc checkUrl checkInterval abortInterval context
    w s ->
  reachable env this successFunc checkUrl checkInterval abortInterval context
    w (run env this successFunc checkUrl checkInterval context n s).
Proof.
  revert s. induction n as [|n IH]; intros s R; simpl; [exact R|].
  unfold turn. destruct (next_event s) as [ev|]; [|exact R].
  destruct (fire env this successFunc checkUrl checkInterval context ev s)
    as [s'|] eqn:F; [|exact R].
  apply IH. eapply reachable_fire; eassumption.
Qed.

Lemma only_waitRetry :
  only P (waitRetry env this successFunc checkUrl checkInterval abortInterval
            context).
Proof.
  intros w. unfold waitRetry. simpl.
  apply reachable_only, run_until_settled_reachable, reachable_start.
Qed.

End OnlyLoop.

End OnlyClient.

Section OnlyWorkflow.

Variable env : Env.
Variable this : Client.
Variable P : Effect -> Prop.
Hypothesis P_info : forall msg args, P (Info msg args).
Hypothesis P_debug : forall msg, P (Debug msg).
Hypothesis P_sent :
  forall url method body t authorization,
    getAuthHeader (apiAuth this) t = Js.Returned authorization ->
    P (Sent t (request_with this url method body authorization)).
Hypothesis P_piped :
  forall filename contents,
    Url.split "/" filename = [filename] ->
    P (Piped (downloadDir this ++ "/" ++ filename) contents).

Lemma only_waitForValidation uuid : only P (waitForValidation env this uuid).
Proof.
  unfold waitForValidation. only_steps; auto.
  apply only_waitRetry; auto.
  intros d. apply only_validation_successFunc; auto.
Qed.

Lemma only_waitForApproval addonId versionId :
  only P (waitForApproval env this addonId versionId).
Proof.
  unfold waitForApproval. only_steps; auto.
  apply only_waitRetry; auto.
  intros d. apply only_approval_successFunc.
Qed.

Lemma only_doUploadSubmit xpiPath channel :
  only P (doUploadSubmit env this xpiPath channel).
Proof.
  unfold doUploadSubmit. only_steps.
  - apply only_fetchJson; auto.
  - apply only_waitForValidation.
Qed.

Lemma only_doNewAddonSubmit uuid metaDataJson :
  only P (doNewAddonSubmit env this uuid metaDataJson).
Proof. unfold doNewAddonSubmit. only_steps. apply only_fetchJson; auto. Qed.

Lemma only_doNewAddonOrVersionSubmit addonId uuid metaDataJson :
  only P (doNewAddonOrVersionSubmit env this addonId uuid metaDataJson).
Proof.
  unfold doNewAddonOrVersionSubmit. only_steps. apply only_fetch; auto.
Qed.

Lemma only_downloadSignedFile fileUrl addonId :
  only P (downloadSignedFile env this fileUrl addonId).
Proof.
  unfold downloadSignedFile, saveToFile. only_steps; auto.
  - apply only_fetch; auto.
  - destruct (ok a); only_steps. destruct (stream a); only_steps.
    apply P_piped, split_pop.
Qed.

Lemma only_saveIdToFile filePath id :
  (forall text, P (WroteFile filePath text)) ->
  only P (saveIdToFile env filePath id).
Proof. intros W. unfold saveIdToFile. only_steps; auto. Qed.

Lemma only_postNewAddon xpiPath channel savedIdPath metaDataJson :
  (forall text, P (WroteFile savedIdPath text)) ->
  only P (postNewAddon env this xpiPath channel savedIdPath metaDataJson None).
Proof.
  intros W. unfold postNewAddon. only_steps; auto.
  - apply only_doUploadSubmit.
  - apply only_doNewAddonSubmit.
  - apply only_saveIdToFile, W.
  - apply only_waitForApproval.
  - apply only_downloadSignedFile.
Qed.

Lemma only_putVersion xpiPath channel addonId metaDataJson :
  only P (putVersion env this xpiPath channel addonId metaDataJson).
Proof.
  unfold putVersion. only_steps; auto.
  - apply only_doUploadSubmit.
  - apply only_doNewAddonOrVersionSubmit.
  - apply only_fetchJson; auto.
  - apply only_waitForApproval.
  - apply only_downloadSignedFile.
Qed.

End OnlyWorkflow.

(** What [signAddon] adds, under a policy that may depend on the client it
    constructs: nothing before the client exists. *)
Lemma signAddon_effects env p (P : Client -> Effect -> Prop) w :
  (forall this msg args, P this (Info msg args)) ->
  (forall this msg, P this (Debug msg)) ->
  (forall this url method body t authorization,
      getAuthHeader (apiAuth this) t = Js.Returned authorization ->
      P this (Sent t (request_with this url method body authorization))) ->
  (forall this filename contents,
      Url.split "/" filename = [filename] ->
      P this (Piped (downloadDir this ++ "/" ++ filename) contents)) ->
  (forall this text, s_id p = None -> P this (WroteFile (s_savedIdPath p) text)) ->
  exists es,
    effects (snd (signAddon env p w)) = (effects w ++ es)%list
    /\ (es = []
        \/ exists baseUrl,
            Url.parse (s_amoBaseUrl p) = Js.Returned baseUrl
            /\ Forall (P (signAddon_client env p baseUrl)) es).
Proof.
  intros PI PD PS PP PW.
  destruct (stat_isFile env (s_xpiPath p)) as [[|]| |] eqn:S;
    try (exists []; unfold signAddon, bind, try_catch, lift, throw, ret;
         rewrite S; simpl; rewrite app_nil_r; split; [reflexivity|left; reflexivity]).
  destruct (Url.parse (s_amoBaseUrl p)) as [baseUrl| |] eqn:U;
    try (exists []; unfold signAddon, bind, try_catch, lift, throw, ret;
         rewrite S, U; simpl; rewrite app_nil_r;
         split; [reflexivity|left; reflexivity]).
  rewrite (signAddon_run env p w baseUrl S U).
  assert (K : forall A (m : M A),
             only (P (signAddon_client env p baseUrl)) m ->
             exists es,
               effects (snd (m w)) = (effects w ++ es)%list
               /\ (es = []
                   \/ exists b,
                       Js.Returned baseUrl = Js.Returned b
                       /\ Forall (P (signAddon_client env p b)) es)).
  { intros A m H. destruct (H w) as (es & E & F). exists es.
    split; [exact E|]. right. exists baseUrl. split; [reflexivity|exact F]. }
  destruct (s_id p) eqn:I.
  - apply K, only_putVersion; auto.
  - apply K, only_postNewAddon; auto.
Qed.

(** Every request of a run of [signAddon] with the default authentication
    carries a token of its own, signed when the request was sent for the
    API key, to expire 300 seconds later: no token is kept from one request
    to the next. *)
Theorem signAddon_signs_each_request env p w :
  s_ApiAuthClass p = None ->
  exists es,
    effects (snd (signAddon env p w)) = (effects w ++ es)%list
    /\ Forall (freshly_signed env (s_apiKey p) (s_apiSecret p) 300) es.
Proof.
  intros D.
  destruct (signAddon_effects env p
              (fun this e =>
                 apiAuth this
                 = JwtApiAuth_as_ApiAuth env
                     (JwtApiAuth_new (s_apiKey p) (s_apiSecret p) None) ->
                 freshly_signed env (s_apiKey p) (s_apiSecret p) 300 e) w)
    as (es & E & [->|(baseUrl & U & F)]); simpl; auto.
  - intros this url method body t a A J. rewrite J in A. simpl in A.
    unfold JwtApiAuth_getAuthHeader, signJWT in A. simpl in A.
    match type of A with
    | context [sign_HS256 ?e ?k ?i ?x ?c] =>
        destruct (sign_HS256 e k i x c) as [token| |] eqn:T
    end; try discriminate.
    injection A as <-. exists token. split; reflexivity.
  - exists []. split; [exact E|constructor].
  - exists es. split; [exact E|]. eapply Forall_impl; [|exact F].
    intros e H. apply H. unfold signAddon_client, Client_new. simpl.
    rewrite D. reflexivity.
Qed.

(** A run of [signAddon] writes in two places at most: the id file at
    [savedIdPath], and only when no record id was given, and a stream to
    the download directory followed by a slash and a file name that holds
    no slash. *)
Theorem signAddon_files env p w :
  exists es,
    effects (snd (signAddon env p w)) = (effects w ++ es)%list
    /\ Forall (files_only (or_default (s_downloadDir p) (cwd env))
                 (match s_id p with None => true | Some _ => false end)
                 (s_savedIdPath p)) es.
Proof.
  destruct (signAddon_effects env p
              (fun this e =>
                 downloadDir this = or_default (s_downloadDir p) (cwd env) ->
                 files_only (or_default (s_downloadDir p) (cwd env))
                   (match s_id p with None => true | Some _ => false end)
                   (s_savedIdPath p) e) w)
    as (es & E & [->|(baseUrl & U & F)]); simpl; auto.
  - intros this filename contents N D. exists filename. rewrite D.
    split; [reflexivity|exact N].
  - intros this text I _. rewrite I. split; reflexivity.
  - exists []. split; [exact E|constructor].
  - exists es. split; [exact E|]. eapply Forall_impl; [|exact F].
    intros e H. apply H. reflexivity.
Qed.

(** Whatever the polling loop does, before and after the promise is
    settled, is a log line or a GET of the check URL without a body, with a
    header produced when it was sent, provided the predicate itself only
    logs. *)
Theorem waitRetry_polls_check_url env this successFunc checkUrl checkInterval
    abortInterval context w s :
  (forall d, only logs_only (successFunc d)) ->
  reachable env this successFunc checkUrl checkInterval abortInterval context
    w s ->
  exists es,
    effects (world s) = (effects w ++ es)%list
    /\ Forall (fun e => polls_only checkUrl e /\ authorised this e) es.
Proof.
  intros L R.
  apply (reachable_only env this
           (fun e => polls_only checkUrl e /\ authorised this e)
           ltac:(intros; split; exact I)
           successFunc checkUrl checkInterval abortInterval context).
  - intros d. eapply only_weaken; [|apply L].
    intros [] H; try contradiction; split; exact I.
  - intros t a A. split; [repeat split|]. exists a. split; [exact A|reflexivity].
  - exact R.
Qed.

Lemma signAddon_signs_each_request_witness :
  let env := Scenario.server Scenario.create_script (0, Js.Pending) in
  let p := Scenario.params (Some 5000) None in
  exists es,
    effects (snd (signAddon env p Scenario.start)) = es
    /\ Forall (freshly_signed env "key" "secret" 300) es.
Proof.
  intros env p.
  destruct (signAddon_signs_each_request env p Scenario.start eq_refl)
    as (es & E & F).
  exists es. split; [exact E|exact F].
Defined.

Lemma waitRetry_polls_check_url_witness :
  let env := Scenario.slow_server in
  let this := Scenario.client env None in
  let url := Scenario.status_url env in
  let s := run env this validation_successFunc url 10 "Validation" 9
             (waitRetry_start env this url 20 Scenario.start) in
  exists es,
    effects (world s) = es
    /\ Forall (fun e => polls_only url e /\ authorised this e) es.
Proof.
  intros env this url s.
  destruct (waitRetry_polls_check_url env this validation_successFunc url 10 20
              "Validation" Scenario.start s) as (es & E & F).
  - intros d. apply only_validation_successFunc. intros; exact I.
  - apply run_reachable, reachable_start.
  - exists es. split; [exact E|exact F].
Defined.

(** ** The deadline of a poll *)

Section Deadline.

Variable env : Env.
Variable this : Client.
Variable successFunc : Js.value -> M Js.value.
Variable checkUrl : Url.t.
Variables checkInterval abortInterval : Z.
Variable context : string.

Hypothesis successFunc_clock :
  forall d w, clock (snd (successFunc d w)) = clock w.

#[local] Abbreviation a_turn :=
  (turn env this successFunc checkUrl checkInterval context).
#[local] Abbreviation settled_run :=
  (run_until_settled env this successFunc checkUrl checkInterval context).

(** A turn of a pending call ends at the abort timer's time at the latest
    and leaves the abort timer as it is unless it settles the promise. *)
Lemma turn_by_deadline s s' T :
  loop_invariant s -> on_time s -> promise s = None ->
  abortTimeout s = Some T -> a_turn s = Some s' ->
  clock (world s') <= T /\ (promise s' = None -> abortTimeout s' = Some T).
Proof.
  intros (I1 & I2 & I3) (O1 & O2 & O3) P A. specialize (O1 T A).
  unfold turn. rewrite (next_event_cases s T A I1).
  destruct (in_flight s) as [x|] eqn:X.
  - assert (C : checkTimeout s = None) by (destruct I1; congruence).
    specialize (O2 x eq_refl).
    destruct (fst x <? T) eqn:L.
    + apply Z.ltb_lt in L. simpl. rewrite X. intros F. injection F as <-.
      unfold pollStatus_resume. cbn [world set_in_flight].
      pose proof (poll_result_clock successFunc successFunc_clock x (world s)) as K.
      destruct (poll_result successFunc x (world s)) as [[v|e|] w1];
        simpl in K; [destruct (Js.truthy v)| |];
        unfold resolve, pollStatus_catch, reject, settle, clearTimeout_abort,
          set_checkTimeout, with_world, set_in_flight; simpl; rewrite ?P; simpl;
        (split; [lia|]); intros Q; try discriminate; exact A.
    + apply Z.ltb_ge in L. simpl. rewrite A. intros F. injection F as <-.
      unfold abort_callback, reject, settle, clearTimeout_check,
        clearTimeout_abort, with_world. simpl. rewrite P. simpl.
      split; [lia|discriminate].
  - destruct (checkTimeout s) as [c|] eqn:C.
    + specialize (O3 c eq_refl). destruct (c <? T) eqn:L.
      * apply Z.ltb_lt in L. simpl. rewrite C. intros F. injection F as <-.
        unfold pollStatus. cbn [world with_world].
        pose proof (fetch_send_clock env this checkUrl (Some "GET") NoBody
                      (resume_at c (world s))) as K.
        destruct (fetch_send env this checkUrl (Some "GET") NoBody
                    (resume_at c (world s))) as [[x|e|] w1]; simpl in K;
          unfold pollStatus_catch, reject, settle, clearTimeout_abort,
            clearTimeout_check, with_world, set_in_flight; simpl;
          rewrite ?P; simpl;
          (split; [lia|]); intros Q; try discriminate; exact A.
      * apply Z.ltb_ge in L. simpl. rewrite A. intros F. injection F as <-.
        unfold abort_callback, reject, settle, clearTimeout_check,
          clearTimeout_abort, with_world. simpl. rewrite P. simpl.
        split; [lia|discriminate].
    + simpl. rewrite A. intros F. injection F as <-.
      unfold abort_callback, reject, settle, clearTimeout_check,
        clearTimeout_abort, with_world. simpl. rewrite P. simpl.
      split; [lia|discriminate].
Qed.

Lemma settled_by_deadline n s T :
  loop_invariant s -> on_time s -> promise s = None ->
  abortTimeout s = Some T ->
  clock (world (settled_run n s)) <= T.
Proof.
  revert s. induction n as [|n IH]; intros s I O P A; simpl; rewrite P.
  - destruct O as (O1 & _). specialize (O1 T A). lia.
  - destruct (turn_progress env this successFunc checkUrl checkInterval context
                successFunc_clock s I O P) as (s' & F & O' & _).
    rewrite F. destruct (turn_by_deadline s s' T I O P A F) as (K & A').
    destruct (promise s') eqn:P'.
    + rewrite run_until_settled_done by congruence. exact K.
    + destruct (turn_fires env this successFunc checkUrl checkInterval context
                  s s' F) as [ev E].
      apply IH; auto. eapply fire_invariant; eassumption.
Qed.

(** Time does not go back. *)
Lemma settled_run_clock n s :
  clock (world s) <= clock (world (settled_run n s)).
Proof.
  revert s. induction n as [|n IH]; intros s; simpl.
  - destruct (promise s); lia.
  - destruct (promise s) eqn:P; [lia|].
    destruct (a_turn s) as [s'|] eqn:F; [|lia].
    etransitivity; [|apply IH].
    unfold turn in F. destruct (next_event s) as [ev|]; [|discriminate].
    destruct ev; simpl in F.
    + destruct (abortTimeout s); [|discriminate]. injection F as <-.
      unfold abort_callback, reject, settle. simpl. rewrite P. simpl. lia.
    + destruct (checkTimeout s); [|discriminate]. injection F as <-.
      unfold pollStatus. cbn [world with_world].
      pose proof (fetch_send_clock env this checkUrl (Some "GET") NoBody
                    (resume_at z (world s))) as C.
      destruct (fetch_send env this checkUrl (Some "GET") NoBody
                  (resume_at z (world s))) as [[x|e|] w1]; simpl in C;
        unfold pollStatus_catch, reject, settle; simpl; rewrite ?P; simpl; lia.
    + destruct (in_flight s) as [x|]; [|discriminate]. injection F as <-.
      unfold pollStatus_resume. cbn [world set_in_flight].
      pose proof (poll_result_clock successFunc successFunc_clock x (world s)) as C.
      destruct (poll_result successFunc x (world s)) as [[v|e|] w1];
        simpl in C; [destruct (Js.truthy v)| |];
        unfold resolve, pollStatus_catch, reject, settle; simpl;
        rewrite ?P; simpl; lia.
Qed.

Lemma waitRetry_clock_bounds w :
  clock w
  <= clock (snd (waitRetry env this successFunc checkUrl checkInterval
                   abortInterval context w))
  <= clock w + timer_delay abortInterval.
Proof.
  unfold waitRetry. simpl.
  set (s0 := waitRetry_start env this checkUrl abortInterval w).
  pose proof (timer_delay_positive abortInterval) as D.
  assert (I : loop_invariant s0) by apply start_invariant.
  assert (K : clock (world s0) = clock w).
  { subst s0. unfold waitRetry_start, pollStatus. cbn [world].
    pose proof (fetch_send_clock env this checkUrl (Some "GET") NoBody w) as K.
    destruct (fetch_send env this checkUrl (Some "GET") NoBody w)
      as [[x|e|] w1]; simpl in K; unfold pollStatus_catch, reject, settle;
      simpl; exact K. }
  split.
  - rewrite <- K. apply settled_run_clock.
  - destruct (promise s0) eqn:P.
    + rewrite run_until_settled_done by congruence. lia.
    + apply settled_by_deadline; auto.
      * subst s0. unfold waitRetry_start, pollStatus in *. cbn [world] in *.
        pose proof (fetch_send_clock env this checkUrl (Some "GET") NoBody w) as C.
        pose proof (fetch_send_arrival env this checkUrl (Some "GET") NoBody w) as V.
        destruct (fetch_send env this checkUrl (Some "GET") NoBody w)
          as [[x|e|] w1]; simpl in C.
        { specialize (V x w1 eq_refl).
          unfold on_time, set_in_flight, with_world. simpl.
          repeat split; intros ? E; try discriminate; injection E as <-; lia. }
        { unfold pollStatus_catch, reject, settle in P. simpl in P. discriminate. }
        { unfold on_time, with_world. simpl.
          repeat split; intros ? E; try discriminate; injection E as <-; lia. }
      * subst s0. unfold waitRetry_start, pollStatus in *. cbn [world] in *.
        destruct (fetch_send env this checkUrl (Some "GET") NoBody w)
          as [[x|e|] w1]; try reflexivity.
        unfold pollStatus_catch, reject, settle in P. simpl in P. discriminate.
Qed.

(** [await waitRetry(...)] gives its result no later than the abort timer
    is due, that is, [abortInterval] ms after the call (1 ms for an
    interval that Node does not accept), whatever the server does. *)
Theorem waitRetry_meets_deadline w :
  clock w
  <= clock (snd (waitRetry env this successFunc checkUrl checkInterval
                   abortInterval context w))
  <= clock w + timer_delay abortInterval.
Proof. exact (waitRetry_clock_bounds w). Qed.

End Deadline.

Lemma waitRetry_meets_deadline_witness :
  let env := Scenario.slow_server in
  let this := Scenario.client env None in
  0 <= clock (snd (waitRetry env this validation_successFunc
                     (Scenario.status_url env) 10 20 "Validation"
                     Scenario.start))
    <= 20.
Proof.
  intros env this.
  exact (waitRetry_meets_deadline env this validation_successFunc
           (Scenario.status_url env) 10 20 "Validation"
           validation_successFunc_clock Scenario.start).
Defined.

(** ** A poll that never succeeds *)

Section TimingOut.

Variable env : Env.
Variable this : Client.
Variable successFunc : Js.value -> M Js.value.
Variable checkUrl : Url.t.
Variables checkInterval abortInterval : Z.
Variable context : string.

Hypothesis successFunc_clock :
  forall d w, clock (snd (successFunc d w)) = clock w.
Hypothesis header_available :
  forall t, exists authorization,
      getAuthHeader (apiAuth this) t = Js.Returned authorization.
Hypothesis never_done :
  forall n req t w, exists v w',
      poll_result successFunc (t, snd (network env n req)) w
      = (Js.Returned v, w')
      /\ Js.truthy v = false.

Lemma fire_timing_out ev s s' T :
  timing_out env context T s ->
  fire env this successFunc checkUrl checkInterval context ev s = Some s' ->
  timing_out env context T s'.
Proof.
  intros (Q1 & Q2 & Q3 & Q4) F. destruct ev; simpl in F.
  - destruct (abortTimeout s) as [t|] eqn:A; [|discriminate]. injection F as <-.
    specialize (Q3 t eq_refl). subst t.
    unfold timing_out, from_network, abort_callback, reject, settle,
      clearTimeout_check, clearTimeout_abort, with_world.
    destruct (promise s) eqn:P; simpl; rewrite ?P; simpl.
    + repeat split; auto; try (intros; discriminate).
      intros _. specialize (Q4 ltac:(discriminate)). lia.
    + repeat split; auto; try (intros; discriminate). intros _. lia.
  - destruct (checkTimeout s) as [t|] eqn:C; [|discriminate]. injection F as <-.
    destruct (header_available (Z.max (clock (world s)) t)) as [a A].
    unfold pollStatus. cbn [world with_world].
    rewrite (fetch_send_run env this checkUrl (Some "GET") NoBody
               (resume_at t (world s)) a A).
    unfold timing_out, from_network, set_in_flight, with_world,
      clearTimeout_check. simpl.
    split; [exact Q1|]. split.
    + intros x E. injection E as <-. simpl. eexists. eexists. reflexivity.
    + split; [exact Q3|]. intros N. specialize (Q4 N). lia.
  - destruct (in_flight s) as [x|] eqn:X; [|discriminate]. injection F as <-.
    destruct (Q2 x X) as (n & req & S).
    destruct (never_done n req (fst x) (world s)) as (v & w' & Y & Tr).
    rewrite <- S in Y. rewrite <- surjective_pairing in Y.
    pose proof (poll_result_clock successFunc successFunc_clock x (world s)) as K.
    unfold pollStatus_resume. cbn [world set_in_flight].
    rewrite Y in *. rewrite Tr. simpl in K.
    unfold timing_out, from_network, set_checkTimeout, set_in_flight,
      with_world. simpl.
    split; [exact Q1|]. split; [intros; discriminate|].
    split; [exact Q3|]. intros N. specialize (Q4 N). lia.
Qed.

Lemma start_timing_out w :
  timing_out env context (clock w + timer_delay abortInterval)
    (waitRetry_start env this checkUrl abortInterval w).
Proof.
  destruct (header_available (clock w)) as [a A].
  unfold waitRetry_start, pollStatus. cbn [world].
  rewrite (fetch_send_run env this checkUrl (Some "GET") NoBody w a A).
  unfold timing_out, from_network, set_in_flight, with_world. simpl.
  split; [left; reflexivity|]. split.
  - intros x E. injection E as <-. simpl. eexists. eexists. reflexivity.
  - split; [intros t E; injection E as <-; reflexivity|].
    intros N. contradiction N. reflexivity.
Qed.

Lemma settled_run_timing_out n s T :
  timing_out env context T s ->
  timing_out env context T
    (run_until_settled env this successFunc checkUrl checkInterval context n s).
Proof.
  revert s. induction n as [|n IH]; intros s Q; simpl.
  - destruct (promise s); exact Q.
  - destruct (promise s); [exact Q|].
    unfold turn. destruct (next_event s) as [ev|]; [|exact Q].
    destruct (fire env this successFunc checkUrl checkInterval context ev s)
      as [s'|] eqn:F; [|exact Q].
    apply IH. eapply fire_timing_out; eassumption.
Qed.

(** Provided the predicate takes no time: when a header is always to be
    had and every answer of the server makes the predicate return a falsy
    value without throwing, [waitRetry] rejects with [<context>: timeout.],
    and the turn that rejects is the one of the abort timer: the clock of
    the loop, which is the due time of the event it runs, stands at the
    time of the call plus the delay of the abort timer. *)
Theorem waitRetry_times_out w :
  fst (waitRetry env this successFunc checkUrl checkInterval abortInterval
         context w)
  = Js.Threw (Js.Error (context ++ ": timeout."))
  /\ clock (snd (waitRetry env this successFunc checkUrl checkInterval
                  abortInterval context w))
     = clock w + timer_delay abortInterval.
Proof.
  pose proof (waitRetry_settles env this successFunc checkUrl checkInterval
                abortInterval context successFunc_clock w) as S.
  pose proof (waitRetry_clock_bounds env this successFunc checkUrl
                checkInterval abortInterval context successFunc_clock w) as D.
  pose proof (settled_run_timing_out (waitRetry_fuel abortInterval) _ _
                (start_timing_out w)) as (Q1 & _ & _ & Q4).
  unfold waitRetry in *. simpl in *.
  destruct (promise
              (run_until_settled env this successFunc checkUrl checkInterval
                 context (waitRetry_fuel abortInterval)
                 (waitRetry_start env this checkUrl abortInterval w)))
    as [r|]; [|contradiction S; reflexivity].
  destruct Q1 as [Q1|Q1]; [discriminate|]. injection Q1 as ->.
  split; [reflexivity|]. specialize (Q4 ltac:(discriminate)). lia.
Qed.

End TimingOut.

Lemma waitRetry_times_out_witness :
  let env := Scenario.slow_server in
  let this := Scenario.client env None in
  let result :=
    waitRetry env this validation_successFunc (Scenario.status_url env) 10 20
      "Validation" Scenario.start in
  fst result = Js.Threw (Js.Error "Validation: timeout.")
  /\ clock (snd result) = 20.
Proof.
  intros env this result.
  apply (waitRetry_times_out env this validation_successFunc
           (Scenario.status_url env) 10 20 "Validation"
           validation_successFunc_clock).
  - intros t. eexists. reflexivity.
  - intros n req t w. destruct n as [|n]; [|destruct n]; simpl;
      eexists; eexists; (split; [reflexivity|reflexivity]).
Defined.

(** ** The pace of the polls *)

Lemma sent_at_app es es' : sent_at (es ++ es') = (sent_at es ++ sent_at es')%list.
Proof.
  induction es as [|e es IH]; simpl; [reflexivity|].
  destruct e; simpl; rewrite IH; reflexivity.
Qed.

Lemma logs_sent_at es : Forall logs_only es -> sent_at es = [].
Proof.
  induction 1 as [|e es H _ IH]; [reflexivity|].
  destruct e; simpl; try contradiction; exact IH.
Qed.

Lemma spaced_snoc d l c :
  spaced d l -> (forall t, In t l -> t + d <= c) -> spaced d (l ++ [c]).
Proof.
  induction l as [|a l IH]; intros S B; simpl; [exact I|].
  destruct l as [|b l].
  - simpl. split; [apply B; left; reflexivity|exact I].
  - destruct S as [S1 S2]. split; [exact S1|].
    apply IH; [exact S2|]. intros t H. apply B. right. exact H.
Qed.

Lemma last_cons (b : Z) l first : List.last (b :: l) first = List.last l b.
Proof.
  revert b first. induction l as [|c l IH]; intros b first; [reflexivity|].
  change (List.last (b :: c :: l) first) with (List.last (c :: l) first).
  rewrite IH. symmetry. apply IH.
Qed.

Lemma spaced_span d l first :
  0 <= d -> spaced d (first :: l) ->
  first + Z.of_nat (List.length l) * d <= List.last l first
  /\ forall t, In t (first :: l) -> t <= List.last l first.
Proof.
  intros D. revert first. induction l as [|b l IH]; intros first S.
  - simpl. split; [lia|]. intros t [<-|[]]. lia.
  - destruct S as [S1 S2]. rewrite last_cons.
    destruct (IH b S2) as [K B]. split.
    + rewrite length_cons, Nat2Z.inj_succ. nia.
    + intros t [<-|H].
      * specialize (B b (or_introl eq_refl)). nia.
      * apply B, H.
Qed.

Section Pace.

Variable env : Env.
Variable this : Client.
Variable successFunc : Js.value -> M Js.value.
Variable checkUrl : Url.t.
Variables checkInterval abortInterval : Z.
Variable context : string.

Hypothesis successFunc_clock :
  forall d w, clock (snd (successFunc d w)) = clock w.
Hypothesis successFunc_logs : forall d, only logs_only (successFunc d).

(** A poll that starts sends one request now, or none. *)
Lemma fetch_send_now url method body w :
  exists es,
    effects (snd (fetch_send env this url method body w))
    = (effects w ++ es)%list
    /\ (sent_at es = [] \/ sent_at es = [clock w]).
Proof.
  destruct (getAuthHeader (apiAuth this) (clock w)) as [a|e|] eqn:A.
  - rewrite (fetch_send_run env this url method body w a A). simpl.
    eexists. split; [reflexivity|]. right. reflexivity.
  - rewrite (fetch_send_no_header env this url method body w e A). simpl.
    eexists. split; [reflexivity|]. left. reflexivity.
  - unfold fetch_send, bind, log_info, emit, now, lift. simpl. rewrite A. simpl.
    eexists. split; [reflexivity|]. left. reflexivity.
Qed.

Lemma poll_result_sends_nothing x w :
  exists es,
    effects (snd (poll_result successFunc x w)) = (effects w ++ es)%list
    /\ sent_at es = [].
Proof.
  destruct (only_poll_result logs_only ltac:(intros; exact I) successFunc
              successFunc_logs x w) as (es & E & F).
  exists es. split; [exact E|apply logs_sent_at, F].
Qed.

Lemma pollStatus_paced w s :
  in_flight s = None -> checkTimeout s = None ->
  clock w <= clock (world s) ->
  (exists es,
      effects (world s) = (effects w ++ es)%list
      /\ spaced (timer_delay checkInterval) (sent_at es)
      /\ (forall t, In t (sent_at es) ->
                    clock w <= t
                    /\ t + timer_delay checkInterval <= clock (world s))) ->
  paced w (timer_delay checkInterval) (pollStatus env this checkUrl s).
Proof.
  intros X C K (es & E & S & B).
  pose proof (timer_delay_positive checkInterval) as D.
  unfold pollStatus.
  pose proof (fetch_send_clock env this checkUrl (Some "GET") NoBody (world s)) as Ck.
  destruct (fetch_send_now checkUrl (Some "GET") NoBody (world s))
    as (es' & E' & N).
  assert (G : forall w1 s1,
             w1 = snd (fetch_send env this checkUrl (Some "GET") NoBody (world s)) ->
             world s1 = w1 -> checkTimeout s1 = None ->
             paced w (timer_delay checkInterval) s1).
  { intros w1 s1 -> W1 C1. unfold paced. rewrite W1, Ck.
    split; [exact K|]. exists (es ++ es')%list.
    rewrite E', E, app_assoc. split; [reflexivity|].
    rewrite sent_at_app. destruct N as [N|N]; rewrite N.
    - rewrite app_nil_r. split; [exact S|]. split.
      + intros t H. destruct (B t H). lia.
      + rewrite C1. intros; discriminate.
    - split; [apply spaced_snoc; [exact S|intros t H; apply B, H]|]. split.
      + intros t H. apply in_app_or in H. destruct H as [H|[<-|[]]].
        * destruct (B t H). lia.
        * lia.
      + rewrite C1. intros; discriminate. }
  destruct (fetch_send env this checkUrl (Some "GET") NoBody (world s))
    as [[x|e|] w1] eqn:F; simpl in *.
  - apply (G w1); [reflexivity|reflexivity|exact C].
  - apply (G w1); [reflexivity| |];
      unfold pollStatus_catch, reject, settle, clearTimeout_abort, with_world;
      destruct (promise s); simpl; auto.
  - apply (G w1); [reflexivity|reflexivity|exact C].
Qed.

(** The requests of a call stay paced, in whatever order events run. *)
Lemma fire_paced w ev s s' :
  loop_invariant s ->
  paced w (timer_delay checkInterval) s ->
  fire env this successFunc checkUrl checkInterval context ev s = Some s' ->
  paced w (timer_delay checkInterval) s'.
Proof.
  intros (I1 & _ & _) (K & es & E & S & B & Cb) F.
  pose proof (timer_delay_positive checkInterval) as D.
  destruct ev; simpl in F.
  - destruct (abortTimeout s) as [t|]; [|discriminate]. injection F as <-.
    unfold paced, abort_callback, reject, settle, clearTimeout_check,
      clearTimeout_abort, with_world.
    destruct (promise s); simpl; (split; [lia|]); exists es;
      (split; [exact E|]); (split; [exact S|]);
      (split; [intros t0 H; destruct (B t0 H); lia|intros; discriminate]).
  - destruct (checkTimeout s) as [c|] eqn:C; [|discriminate]. injection F as <-.
    apply pollStatus_paced; simpl; auto.
    + destruct I1; congruence.
    + lia.
    + exists es. split; [exact E|]. split; [exact S|].
      intros t H. destruct (B t H). specialize (Cb c eq_refl t H). lia.
  - destruct (in_flight s) as [x|] eqn:X; [|discriminate]. injection F as <-.
    assert (C : checkTimeout s = None) by (destruct I1; congruence).
    unfold pollStatus_resume. cbn [world set_in_flight].
    pose proof (poll_result_clock successFunc successFunc_clock x (world s)) as Ck.
    destruct (poll_result_sends_nothing x (world s)) as (es' & E' & N).
    assert (G : forall s1,
               world s1 = snd (poll_result successFunc x (world s)) ->
               (checkTimeout s1 = None
                \/ checkTimeout s1
                   = Some (clock (world s1) + timer_delay checkInterval)) ->
               paced w (timer_delay checkInterval) s1).
    { intros s1 W1 C1. unfold paced. rewrite W1, Ck.
      split; [lia|]. exists (es ++ es')%list.
      rewrite E', E, app_assoc. split; [reflexivity|].
      rewrite sent_at_app, N, app_nil_r. split; [exact S|]. split.
      - intros t H. destruct (B t H). lia.
      - intros c H t Ht. destruct C1 as [C1|C1]; rewrite C1 in H;
          [discriminate|]. injection H as <-. rewrite W1, Ck.
        destruct (B t Ht). lia. }
    destruct (poll_result successFunc x (world s)) as [[v|e|] w1] eqn:Y;
      simpl in *.
    + destruct (Js.truthy v).
      * apply G; unfold resolve, settle, clearTimeout_abort, with_world,
          set_in_flight; destruct (promise s); simpl; auto.
      * apply G; unfold set_checkTimeout, with_world, set_in_flight; simpl; auto.
    + apply G; unfold pollStatus_catch, reject, settle, clearTimeout_abort,
        with_world, set_in_flight; destruct (promise s); simpl; auto.
    + apply G; unfold with_world, set_in_flight; simpl; auto.
Qed.

Lemma reachable_paced w s :
  reachable env this successFunc checkUrl checkInterval abortInterval context
    w s ->
  paced w (timer_delay checkInterval) s.
Proof.
  induction 1 as [|ev s s' R IH F].
  - unfold waitRetry_start. apply pollStatus_paced; simpl; auto; try lia.
    exists []. rewrite app_nil_r. split; [reflexivity|].
    split; [exact I|]. intros t [].
  - eapply fire_paced; [|exact IH|exact F].
    eapply reachable_invariant, R.
Qed.

(** In every state a call of [waitRetry] can be in, before and after the
    promise is settled, the requests it has sent are at least the check
    interval (1 ms for an interval that Node does not accept) apart. *)
Theorem waitRetry_paces_requests w s :
  reachable env this successFunc checkUrl checkInterval abortInterval context
    w s ->
  exists es,
    effects (world s) = (effects w ++ es)%list
    /\ spaced (timer_delay checkInterval) (sent_at es)
    /\ forall t, In t (sent_at es) -> clock w <= t <= clock (world s).
Proof.
  intros R. destruct (reachable_paced w s R) as (_ & es & E & S & B & _).
  exists es. auto.
Qed.

(** By the time [await waitRetry(...)] gives its result the call has sent
    at most one request more than check intervals fit in the abort
    interval. *)
Theorem waitRetry_bounded_requests w :
  exists es,
    effects (snd (waitRetry env this successFunc checkUrl checkInterval
                    abortInterval context w))
    = (effects w ++ es)%list
    /\ (Z.of_nat (List.length (sent_at es)) - 1) * timer_delay checkInterval
       <= timer_delay abortInterval.
Proof.
  pose proof (waitRetry_clock_bounds env this successFunc checkUrl
                checkInterval abortInterval context successFunc_clock w) as T.
  unfold waitRetry in *. cbn [fst snd] in *.
  pose proof (timer_delay_positive checkInterval) as D.
  pose proof (timer_delay_positive abortInterval) as D'.
  destruct (reachable_paced w _
              (run_until_settled_reachable env this successFunc checkUrl
                 checkInterval abortInterval context w
                 (waitRetry_fuel abortInterval) _
                 (reachable_start _ _ _ _ _ _ _ w)))
    as (_ & es & E & S & B & _).
  exists es. split; [exact E|].
  destruct (sent_at es) as [|first l] eqn:L;
    [change (Z.of_nat (List.length (@nil Z))) with 0; lia|].
  destruct (spaced_span (timer_delay checkInterval) l first ltac:(lia) S)
    as [K _].
  assert (H : In (List.last l first) (first :: l)).
  { destruct l as [|b l]; [left; reflexivity|].
    right. rewrite last_cons.
    clear. revert b. induction l as [|c l IH]; intros b; [left; reflexivity|].
    rewrite last_cons. right. apply IH. }
  pose proof (B _ H) as B1. pose proof (B first (or_introl eq_refl)) as B2.
  rewrite length_cons, Nat2Z.inj_succ. nia.
Qed.

End Pace.

Lemma waitRetry_paces_requests_witness :
  let env := Scenario.slow_server in
  let this := Scenario.client env None in
  let s :=
    run env this validation_successFunc (Scenario.status_url env) 10
      "Validation" 4
      (waitRetry_start env this (Scenario.status_url env) 20 Scenario.start) in
  exists es,
    effects (world s) = (effects Scenario.start ++ es)%list
    /\ spaced 10 (sent_at es)
    /\ forall t, In t (sent_at es) -> 0 <= t <= clock (world s).
Proof.
  intros env this s.
  apply (waitRetry_paces_requests env this validation_successFunc
           (Scenario.status_url env) 10 20 "Validation"
           validation_successFunc_clock
           (only_validation_successFunc logs_only ltac:(intros; exact I))).
  apply run_reachable. constructor.
Defined.

Lemma waitRetry_bounded_requests_witness :
  let env := Scenario.slow_server in
  let this := Scenario.client env None in
  exists es,
    effects (snd (waitRetry env this validation_successFunc
                    (Scenario.status_url env) 10 20 "Validation"
                    Scenario.start))
    = (effects Scenario.start ++ es)%list
    /\ (Z.of_nat (List.length (sent_at es)) - 1) * 10 <= 20.
Proof.
  intros env this.
  exact (waitRetry_bounded_requests env this validation_successFunc
           (Scenario.status_url env) 10 20 "Validation"
           validation_successFunc_clock
           (only_validation_successFunc logs_only ltac:(intros; exact I))
           Scenario.start).
Defined.
